(** * A shallow embedding of the extraction / aggregation pipeline

    Sources embedded here:
    - [problem3/processor/process.py]: [strip_html], [text_statistics],
      [process_one_html] and the driver loop of [main];
    - [problem3/analyzer/analyze.py]: [tokenize_words], [split_sentences],
      [ngrams], [jaccard_similarity] and the aggregation done by [main].

    Python values are modelled as follows.
    - A [str] is the list of its code points ([N]).  The tables of the
      Unicode database that [re] and [str] consult (white space, word
      characters, lower-casing, caseless comparison) are the fields of the
      class [Unicode]; a concrete table for the ASCII range is given for the
      examples.
    - A [float] is abstract (class [PyFloat]): the operations the code uses
      ([int / int], [*], [round], [float(int)]) with the facts about them the
      proofs need.  Exact rational arithmetic is the instance used to
      evaluate examples.
    - [int] counters are [nat] (they are lengths and sums of lengths).
    - A Python [set] of strings is a [gset str]; a [Counter] is an association
      list in insertion order, which is what [most_common] observes.
    - The regular expressions are terms of a small abstract syntax run by a
      backtracking matcher with the priorities of Python's [re]. *)

From Stdlib Require Import ZArith NArith QArith Qround List Ascii String Sorting.Sorted
  Permutation Lia Bool.
From stdpp Require Import base decidable list gmap sets.

Open Scope nat_scope.

(** ** Strings *)

(** A character is its code point, a [str] the list of its characters. *)
Abbreviation char := N (only parsing).
Abbreviation str := (list N) (only parsing).

Definition chr (a : ascii) : char := N_of_ascii a.
Definition lit (s : string) : str := map chr (list_ascii_of_string s).

Definition LT : char := 60%N.      (* < *)
Definition GT : char := 62%N.      (* > *)
Definition SP : char := 32%N.      (* space *)
Definition LF : char := 10%N.      (* \n *)
Definition DQUOTE : char := 34%N.
Definition SQUOTE : char := 39%N.

(** The tables of the Unicode database used by [re] ([\s], [\w],
    [IGNORECASE]) and by [str.strip] and [str.lower]. *)
Class Unicode := {
  isspace : char -> bool;
  isword : char -> bool;
  lower : str -> str;
  iequal : char -> char -> bool;
  isspace_LF : isspace LF = true;
  isspace_LT : isspace LT = false;
  isspace_GT : isspace GT = false
}.

(** ** Regular expressions *)

Inductive regex :=
| Eps
| Lit (c : char)
| LitI (c : char)
| Cls (p : char -> bool)
| Bnd
| Rep (greedy : bool) (lo : nat) (p : char -> bool)
| Opt (p : char -> bool)
| Cat (r1 r2 : regex)
| Alt (r1 r2 : regex)
| Grp (r : regex).

Definition seq_re (rs : list regex) : regex := fold_right Cat Eps rs.

Definition is_ascii_letter (c : char) : bool :=
  ((65 <=? c) && (c <=? 90) || (97 <=? c) && (c <=? 122))%N.

(** A literal string under [re.IGNORECASE]: the flag concerns the cased
    characters only; [<], [>], [/] and [=] are compared exactly. *)
Definition lits_i (cs : str) : list regex :=
  map (fun c => if is_ascii_letter c then LitI c else Lit c) cs.

Definition orelse {R} (a : option R) (b : option R) : option R :=
  match a with Some _ => a | None => b end.

Section Matcher.
Context {U : Unicode}.
Context {R : Type}.

(** [p{lo,}]: as many characters as possible first, then fewer. *)
Fixpoint rep_greedy (p : char -> bool) (lo : nat) (prev : option char)
    (s : str) (k : option char -> str -> option R) : option R :=
  match s with
  | c :: s' =>
      if p c then
        orelse (rep_greedy p (pred lo) (Some c) s' k)
               (match lo with 0 => k prev s | S _ => None end)
      else match lo with 0 => k prev s | S _ => None end
  | [] => match lo with 0 => k prev s | S _ => None end
  end.

(** [p{lo,}?]: as few characters as possible first, then more. *)
Fixpoint rep_lazy (p : char -> bool) (lo : nat) (prev : option char)
    (s : str) (k : option char -> str -> option R) : option R :=
  match s with
  | c :: s' =>
      match lo with
      | 0 => orelse (k prev s)
                    (if p c then rep_lazy p 0 (Some c) s' k else None)
      | S n => if p c then rep_lazy p n (Some c) s' k else None
      end
  | [] => match lo with 0 => k prev s | S _ => None end
  end.

Definition wordp (c : option char) : bool :=
  match c with Some x => isword x | None => false end.

(** The matcher, in continuation-passing style: [prev] is the character
    before the current position (for [\b]), [s] the rest of the subject, [g]
    the text of group 1 when it has been closed. *)
Fixpoint exec (r : regex) (prev : option char) (s : str) (g : option str)
    (k : option char -> str -> option str -> option R) : option R :=
  match r with
  | Eps => k prev s g
  | Lit c =>
      match s with
      | x :: s' => if N.eqb x c then k (Some x) s' g else None
      | [] => None
      end
  | LitI c =>
      match s with
      | x :: s' => if iequal c x then k (Some x) s' g else None
      | [] => None
      end
  | Cls p =>
      match s with
      | x :: s' => if p x then k (Some x) s' g else None
      | [] => None
      end
  | Bnd => if xorb (wordp prev) (wordp (head s)) then k prev s g else None
  | Rep true lo p => rep_greedy p lo prev s (fun pv s' => k pv s' g)
  | Rep false lo p => rep_lazy p lo prev s (fun pv s' => k pv s' g)
  | Opt p =>
      match s with
      | x :: s' => if p x then orelse (k (Some x) s' g) (k prev s g)
                   else k prev s g
      | [] => k prev s g
      end
  | Cat r1 r2 => exec r1 prev s g (fun pv s' g' => exec r2 pv s' g' k)
  | Alt r1 r2 => orelse (exec r1 prev s g k) (exec r2 prev s g k)
  | Grp r1 =>
      exec r1 prev s g
        (fun pv s' _ => k pv s' (Some (take (length s - length s') s)))
  end.

End Matcher.

Section Scanning.
Context {U : Unicode}.

(** One attempt at the current position: the rest of the subject after the
    match, and group 1. *)
Definition rmatch (r : regex) (prev : option char) (s : str)
    : option (str * option str) :=
  exec r prev s None (fun _ s' g => Some (s', g)).

(** What a left-to-right scan of the subject sees: a character outside every
    match, or a match with its group. *)
Inductive piece :=
| Gap (c : char)
| Hit (whole : str) (g : option str).

(** The scan of [re.sub], [re.findall] and [re.split]: try a match at each
    position that lies outside the previous match.  [skip] counts the
    characters of the current match still to pass.  None of the patterns of
    this program matches the empty string (lemmas [rmatch_progress] and
    [patterns_progress] below), so the empty match is left with the failed
    one. *)
Fixpoint scan (r : regex) (prev : option char) (s : str) (skip : nat)
    : list piece :=
  match s with
  | [] => []
  | c :: s' =>
      match skip with
      | S n => scan r (Some c) s' n
      | 0 =>
          match rmatch r prev s with
          | Some (rest, g) =>
              match length s - length rest with
              | S m => Hit (take (S m) s) g :: scan r (Some c) s' m
              | 0 => Gap c :: scan r (Some c) s' 0
              end
          | None => Gap c :: scan r (Some c) s' 0
          end
      end
  end.

(** The subject with every match replaced by [repl]. *)
Definition subst (repl : str) (ps : list piece) : str :=
  flat_map (fun p => match p with Gap c => [c] | Hit _ _ => repl end) ps.

Definition re_sub (r : regex) (repl : str) (s : str) : str :=
  subst repl (scan r None s 0).

(** [re.findall]: group 1 when the pattern has a group, else the match. *)
Definition re_findall (r : regex) (s : str) : list str :=
  flat_map (fun p => match p with
                     | Gap _ => []
                     | Hit w g => [default w g]
                     end)
           (scan r None s 0).

Fixpoint split_pieces (ps : list piece) (cur : str) : list str :=
  match ps with
  | [] => [cur]
  | Gap c :: ps' => split_pieces ps' (cur ++ [c])
  | Hit _ _ :: ps' => cur :: split_pieces ps' []
  end.

(** [re.split] for a pattern without capturing group. *)
Definition re_split (r : regex) (s : str) : list str :=
  split_pieces (scan r None s 0) [].

(** [str.strip()] *)
Fixpoint lstrip (s : str) : str :=
  match s with
  | c :: s' => if isspace c then lstrip s' else s
  | [] => []
  end.

Definition rstrip (s : str) : str := rev (lstrip (rev s)).
Definition strip (s : str) : str := rstrip (lstrip s).

End Scanning.

(** ** Floats *)

(** The float operations of the two programs.  [truediv a b] is [a / b] on
    two [int]s, [pyround x n] is [round(x, n)], [of_int n] is [float(n)].
    The laws are those of correctly rounded binary64 division that the
    similarity bounds rest on. *)
Class PyFloat := {
  float : Type;
  fzero : float;
  fone : float;
  of_int : nat -> float;
  truediv : nat -> nat -> float;
  fmul : float -> float -> float;
  pyround : float -> nat -> float;
  fle : float -> float -> Prop;
  float_truthy : float -> bool;
  truediv_same : forall n, 0 < n -> truediv n n = fone;
  truediv_unit : forall a b, a <= b -> 0 < b ->
    fle fzero (truediv a b) /\ fle (truediv a b) fone;
  fle_zero_zero : fle fzero fzero;
  fle_zero_one : fle fzero fone
}.

(** ** problem3/processor/process.py *)

Section Processor.
Context {U : Unicode} {F : PyFloat}.

Definition notgt (c : char) : bool := negb (N.eqb c GT).
Definition anychar (c : char) : bool := true.
Definition quote (c : char) : bool := N.eqb c SQUOTE || N.eqb c DQUOTE.
Definition attr_char (c : char) : bool :=
  negb (quote c || isspace c || N.eqb c GT).

(** [<script[^>]*>.*?</script>] with [DOTALL | IGNORECASE] *)
Definition script_re : regex :=
  seq_re (lits_i (lit "<script") ++
          [Rep true 0 notgt; Lit GT; Rep false 0 anychar] ++
          lits_i (lit "</script>")).

(** [<style[^>]*>.*?</style>] with [DOTALL | IGNORECASE] *)
Definition style_re : regex :=
  seq_re (lits_i (lit "<style") ++
          [Rep true 0 notgt; Lit GT; Rep false 0 anychar] ++
          lits_i (lit "</style>")).

(** [href=['"]?([^'"\s>]+)] with [IGNORECASE] *)
Definition href_re : regex :=
  seq_re (lits_i (lit "href=") ++ [Opt quote; Grp (Rep true 1 attr_char)]).

(** [src=['"]?([^'"\s>]+)] with [IGNORECASE] *)
Definition src_re : regex :=
  seq_re (lits_i (lit "src=") ++ [Opt quote; Grp (Rep true 1 attr_char)]).

(** [<[^>]+>] *)
Definition tag_re : regex := seq_re [Lit LT; Rep true 1 notgt; Lit GT].

(** [\s+] *)
Definition ws_re : regex := Rep true 1 isspace.

(** [\b\w+\b] *)
Definition word_re : regex := seq_re [Bnd; Rep true 1 isword; Bnd].

(** [[.!?]+] *)
Definition sentence_end (c : char) : bool :=
  N.eqb c 46 || N.eqb c 33 || N.eqb c 63.
Definition sentence_re : regex := Rep true 1 sentence_end.

(** [(?:\s{2,}|\n{2,})] *)
Definition para_re : regex :=
  Alt (Rep true 2 isspace) (Rep true 2 (fun c => N.eqb c LF)).

Definition remove_scripts (html : str) : str := re_sub script_re [] html.
Definition remove_styles (html : str) : str := re_sub style_re [] html.

(** The tail of [strip_html], once the script and style elements are gone. *)
Definition extract (html_content : str) : str * list str * list str :=
  let links := re_findall href_re html_content in
  let images := re_findall src_re html_content in
  let text := re_sub tag_re [SP] html_content in
  let text := strip (re_sub ws_re [SP] text) in
  (text, links, images).

Definition strip_html (html_content : str) : str * list str * list str :=
  let html_content := remove_scripts html_content in
  let html_content := remove_styles html_content in
  extract html_content.

Record statistics := {
  word_count : nat;
  sentence_count : nat;
  paragraph_count : nat;
  st_avg_word_length : float
}.

Definition nonblank (s : str) : bool :=
  match strip s with [] => false | _ :: _ => true end.

Definition sum_len (ws : list str) : nat :=
  fold_right (fun w n => length w + n) 0 ws.

Definition text_statistics (text : str) : statistics :=
  let words := re_findall word_re text in
  let word_count := length words in
  let sentences := List.filter nonblank (re_split sentence_re text) in
  let sentence_count := length sentences in
  let paragraphs := List.filter nonblank (re_split para_re text) in
  let paragraph_count :=
    match paragraphs with
    | [] => Nat.max 1 (sentence_count / 3)
    | _ :: _ => length paragraphs
    end in
  let avg_word_length :=
    match word_count with
    | 0 => fzero
    | S _ => truediv (sum_len words) word_count
    end in
  {| word_count := word_count;
     sentence_count := sentence_count;
     paragraph_count := paragraph_count;
     st_avg_word_length := pyround avg_word_length 3 |}.

(** [os.path.basename] and the root part of [os.path.splitext] (applied to a
    base name, which holds no separator). *)
Definition SLASH : char := 47%N.
Definition DOT : char := 46%N.

Fixpoint before (d : char) (s : str) : str :=
  match s with
  | [] => []
  | c :: s' => if N.eqb c d then [] else c :: before d s'
  end.

Definition basename (p : str) : str := rev (before SLASH (rev p)).

Definition splitext_root (p : str) : str :=
  if existsb (N.eqb DOT) p then
    let root := take (length p - length (before DOT (rev p)) - 1) p in
    if existsb (fun c => negb (N.eqb c DOT)) root then root else p
  else p.

(** A raw document as the driver meets it: [rf_content] is [None] when
    opening or reading it raises, [rf_writable] says whether the record can
    be written. *)
Record raw_file := {
  rf_path : str;
  rf_content : option str;
  rf_writable : bool
}.

(** The record of one document (the time stamp apart). *)
Record extracted := {
  source_file : str;
  text : str;
  stats : statistics;
  links : list str;
  images : list str
}.

Definition process_one_html (f : raw_file) : option extracted :=
  match rf_content f with
  | None => None
  | Some html =>
      let '(text, links, images) := strip_html html in
      Some {| source_file := basename (rf_path f);
              text := text;
              stats := text_statistics text;
              links := links;
              images := images |}
  end.

End Processor.

(** *** The extraction driver ([main] of process.py) *)

(** Order of [str] under [<=]: lexicographic on code points. *)
Fixpoint str_leb (a b : str) : bool :=
  match a, b with
  | [], _ => true
  | _ :: _, [] => false
  | x :: a', y :: b' =>
      if N.ltb x y then true else if N.ltb y x then false else str_leb a' b'
  end.

Section Driver.
Context {U : Unicode} {F : PyFloat}.

(** [sorted] on the paths found by [glob]. *)
Fixpoint insert_path (f : raw_file) (l : list raw_file) : list raw_file :=
  match l with
  | [] => [f]
  | g :: l' =>
      if str_leb (rf_path f) (rf_path g) then f :: l else g :: insert_path f l'
  end.

Definition sorted_paths (l : list raw_file) : list raw_file :=
  fold_right insert_path [] l.

Definition out_name (html_path : str) : str :=
  splitext_root (basename html_path) ++ lit ".json".

(** The variables of the loop, with the record files written so far. *)
Record driver_state := {
  processed_files : list str;
  successes : nat;
  failures : nat;
  written : list (str * extracted)
}.

Definition driver_init : driver_state :=
  {| processed_files := []; successes := 0; failures := 0; written := [] |}.

(** One turn of the loop: the [try] body either runs to its end or an
    exception (reading the document, writing the record) sends it to the
    handler. *)
Definition driver_step (st : driver_state) (f : raw_file) : driver_state :=
  match process_one_html f with
  | Some data =>
      if rf_writable f then
        {| processed_files := processed_files st ++ [out_name (rf_path f)];
           successes := successes st + 1;
           failures := failures st;
           written := written st ++ [(out_name (rf_path f), data)] |}
      else
        {| processed_files := processed_files st;
           successes := successes st;
           failures := failures st + 1;
           written := written st |}
  | None =>
      {| processed_files := processed_files st;
         successes := successes st;
         failures := failures st + 1;
         written := written st |}
  end.

(** The completion marker (the time stamp apart). *)
Record marker := {
  inputs_detected : nat;
  processed_success : nat;
  processed_failed : nat;
  outputs : list str
}.

Definition processor_main (globbed : list raw_file)
    : marker * list (str * extracted) :=
  let html_files := sorted_paths globbed in
  let st := fold_left driver_step html_files driver_init in
  ({| inputs_detected := length html_files;
      processed_success := successes st;
      processed_failed := failures st;
      outputs := processed_files st |},
   written st).

End Driver.

(** ** problem3/analyzer/analyze.py *)

(** The value [json.load] returns. *)
#[local] Unset Elimination Schemes.
Inductive pyval {F : PyFloat} :=
| PNone
| PBool (b : bool)
| PInt (z : Z)
| PFloat (f : float)
| PStr (s : str)
| PList (l : list pyval)
| PDict (d : list (str * pyval)).
#[local] Set Elimination Schemes.

Inductive exn := AttributeError | TypeError.

Section Analyzer.
Context {U : Unicode} {F : PyFloat}.

Definition truthy (v : pyval) : bool :=
  match v with
  | PNone => false
  | PBool b => b
  | PInt z => negb (Z.eqb z 0)
  | PFloat f => float_truthy f
  | PStr s => match s with [] => false | _ => true end
  | PList l => match l with [] => false | _ => true end
  | PDict d => match d with [] => false | _ => true end
  end.

Definition str_eqb (a b : str) : bool := bool_decide (a = b).

(** [d.get(key, dflt)] *)
Fixpoint dict_get (d : list (str * pyval)) (key : str) (dflt : pyval)
    : pyval :=
  match d with
  | [] => dflt
  | (k, v) :: d' => if str_eqb k key then v else dict_get d' key dflt
  end.

Definition tokenize_words (text : str) : list str :=
  map lower (re_findall word_re text).

Definition split_sentences (text : str) : list str :=
  List.filter nonblank (re_split sentence_re text).

(** [sep.join(l)] *)
Fixpoint join (sep : str) (l : list str) : str :=
  match l with
  | [] => []
  | [w] => w
  | w :: l' => w ++ sep ++ join sep l'
  end.

Definition ngrams (words : list str) (n : nat) : list str :=
  map (fun i => join [SP] (take n (drop i words)))
      (seq 0 (length words + 1 - n)).

Definition jaccard_similarity (doc1_words doc2_words : list str) : float :=
  let set1 : gset str := list_to_set doc1_words in
  let set2 : gset str := list_to_set doc2_words in
  let union := set1 ∪ set2 in
  if decide (union = ∅) then fzero
  else truediv (size (set1 ∩ set2)) (size union).

(** [Counter(l)]: the counts, in the order in which the keys were first
    seen. *)
Fixpoint counter_add (w : str) (c : list (str * nat)) : list (str * nat) :=
  match c with
  | [] => [(w, 1)]
  | (k, n) :: c' =>
      if str_eqb k w then (k, S n) :: c' else (k, n) :: counter_add w c'
  end.

Definition Counter (l : list str) : list (str * nat) :=
  fold_left (fun c w => counter_add w c) l [].

(** [most_common(n)] is [sorted(items, key=count, reverse=True)[:n]]: the
    sort is stable, so equal counts keep the order of the counter. *)
Fixpoint insert_desc (x : str * nat) (l : list (str * nat))
    : list (str * nat) :=
  match l with
  | [] => [x]
  | y :: l' => if x.2 <? y.2 then y :: insert_desc x l' else x :: l
  end.

Definition sort_desc (l : list (str * nat)) : list (str * nat) :=
  fold_right insert_desc [] l.

Definition most_common (n : nat) (c : list (str * nat)) : list (str * nat) :=
  take n (sort_desc c).

(** [itertools.combinations(l, 2)] *)
Fixpoint combinations2 {A} (l : list A) : list (A * A) :=
  match l with
  | [] => []
  | x :: l' => map (fun y => (x, y)) l' ++ combinations2 l'
  end.

(** A record file as the aggregator meets it: [pf_data] is [None] when
    opening it or [json.load] raises. *)
Record processed_file := {
  pf_path : str;
  pf_data : option pyval
}.

Record doc := {
  name : str;
  words : list str
}.

(** The variables of the loading loop. *)
Record corpus := {
  docs : list doc;
  all_words : list str;
  all_bigrams : list str;
  all_trigrams : list str;
  total_word_chars : nat;
  total_sentences : nat
}.

Definition corpus_init : corpus :=
  {| docs := []; all_words := []; all_bigrams := []; all_trigrams := [];
     total_word_chars := 0; total_sentences := 0 |}.

(** [data.get("text", "") or ""], then the two helpers that need a [str]. *)
Definition text_of (data : pyval) : exn + str :=
  match data with
  | PDict d =>
      let v := dict_get d (lit "text") (PStr []) in
      match (if truthy v then v else PStr []) with
      | PStr s => inr s
      | _ => inl TypeError
      end
  | _ => inl AttributeError
  end.

Definition add_doc (st : corpus) (path : str) (text : str) : corpus :=
  let words := tokenize_words text in
  let sentences := split_sentences text in
  {| docs := docs st ++ [{| name := basename path; words := words |}];
     all_words := all_words st ++ words;
     all_bigrams := all_bigrams st ++ ngrams words 2;
     all_trigrams := all_trigrams st ++ ngrams words 3;
     total_word_chars := total_word_chars st + sum_len words;
     total_sentences := total_sentences st + length sentences |}.

(** The loading loop; [inl] is an exception that leaves [main]. *)
Fixpoint load (files : list processed_file) (st : corpus) : exn + corpus :=
  match files with
  | [] => inr st
  | f :: files' =>
      match pf_data f with
      | None => load files' st
      | Some data =>
          match text_of data with
          | inl e => inl e
          | inr text => load files' (add_doc st (pf_path f) text)
          end
      end
  end.

Record word_entry := {
  word : str;
  count : nat;
  frequency : float
}.

Record sim_entry := {
  doc1 : str;
  doc2 : str;
  similarity : float
}.

Record ngram_entry := {
  gram : str;
  gram_count : nat
}.

Record readability_entry := {
  avg_sentence_length : float;
  avg_word_length : float;
  complexity_score : float
}.

(** The final report (the time stamp apart).  [top_trigrams] is [None] when
    the written object has no such key. *)
Record report := {
  documents_processed : nat;
  total_words : nat;
  unique_words : nat;
  top_100_words : list word_entry;
  document_similarity : list sim_entry;
  top_bigrams : list ngram_entry;
  top_trigrams : option (list ngram_entry);
  readability : readability_entry
}.

Definition top_ngrams (l : list str) : list ngram_entry :=
  map (fun gc => {| gram := gc.1; gram_count := gc.2 |})
      (most_common 50 (Counter l)).

Definition make_report (st : corpus) : report :=
  let total_words := length (all_words st) in
  let unique_words := size (list_to_set (all_words st) : gset str) in
  if Nat.eqb total_words 0 then
    {| documents_processed := length (docs st);
       total_words := 0;
       unique_words := 0;
       top_100_words := [];
       document_similarity := [];
       top_bigrams := [];
       top_trigrams := None;
       readability :=
         {| avg_sentence_length := fzero;
            avg_word_length := fzero;
            complexity_score := fzero |} |}
  else
    let word_counter := Counter (all_words st) in
    let top_100_words :=
      map (fun wc => {| word := wc.1; count := wc.2;
                        frequency := pyround (truediv wc.2 total_words) 6 |})
          (most_common 100 word_counter) in
    let similarities :=
      map (fun dd : doc * doc =>
             {| doc1 := name dd.1; doc2 := name dd.2;
                similarity :=
                  pyround (jaccard_similarity (words dd.1) (words dd.2)) 6 |})
          (combinations2 (docs st)) in
    let avg_sentence_length :=
      if Nat.eqb (total_sentences st) 0 then of_int total_words
      else truediv total_words (total_sentences st) in
    let avg_word_length :=
      if Nat.eqb total_words 0 then fzero
      else truediv (total_word_chars st) total_words in
    let complexity_score :=
      pyround (fmul avg_sentence_length avg_word_length) 6 in
    {| documents_processed := length (docs st);
       total_words := total_words;
       unique_words := unique_words;
       top_100_words := top_100_words;
       document_similarity := similarities;
       top_bigrams := top_ngrams (all_bigrams st);
       top_trigrams := Some (top_ngrams (all_trigrams st));
       readability :=
         {| avg_sentence_length := pyround avg_sentence_length 6;
            avg_word_length := pyround avg_word_length 6;
            complexity_score := complexity_score |} |}.

(** [sorted] on the paths found by [glob] (the record files). *)
Fixpoint insert_file (f : processed_file) (l : list processed_file)
    : list processed_file :=
  match l with
  | [] => [f]
  | g :: l' =>
      if str_leb (pf_path f) (pf_path g) then f :: l else g :: insert_file f l'
  end.

Definition sorted_files (l : list processed_file) : list processed_file :=
  fold_right insert_file [] l.

Definition analyzer_main (globbed : list processed_file) : exn + report :=
  match load (sorted_files globbed) corpus_init with
  | inl e => inl e
  | inr st => inr (make_report st)
  end.

End Analyzer.

(** ** Concrete tables and numbers for the examples *)

(** The Unicode tables on the ASCII range; a code point outside it is taken
    as neither white space nor word character, and has no case. *)
Definition ascii_isspace (c : char) : bool :=
  ((9 <=? c) && (c <=? 13) || (28 <=? c) && (c <=? 32))%N.

Definition ascii_isword (c : char) : bool :=
  ((48 <=? c) && (c <=? 57) || (65 <=? c) && (c <=? 90) || (c =? 95)
   || (97 <=? c) && (c <=? 122))%N.

Definition ascii_lower1 (c : char) : char :=
  (if (65 <=? c) && (c <=? 90) then c + 32 else c)%N.

Definition ascii_tables : Unicode :=
  {| isspace := ascii_isspace;
     isword := ascii_isword;
     lower := map ascii_lower1;
     iequal := fun c x => N.eqb (ascii_lower1 c) (ascii_lower1 x);
     isspace_LF := eq_refl;
     isspace_LT := eq_refl;
     isspace_GT := eq_refl |}.

(** Exact rational arithmetic, with [round] to the nearest multiple of
    [10^-n], ties to even. *)
Definition q_truediv (a b : nat) : Q := Qred (Z.of_nat a # Pos.of_nat b).

Definition q_round (x : Q) (n : nat) : Q :=
  let scale := (10 ^ Z.of_nat n)%Z in
  let y := Qmult x (inject_Z scale) in
  let f := Qfloor y in
  let r :=
    match Qcompare (Qminus y (inject_Z f)) (1 # 2) with
    | Lt => f
    | Gt => (f + 1)%Z
    | Eq => if Z.even f then f else (f + 1)%Z
    end in
  Qred (Qdiv (inject_Z r) (inject_Z scale)).

Definition exact_floats : PyFloat.
Proof.
  refine {| float := Q;
            fzero := 0%Q;
            fone := 1%Q;
            of_int := fun n => inject_Z (Z.of_nat n);
            truediv := q_truediv;
            fmul := fun x y => Qred (Qmult x y);
            pyround := q_round;
            fle := Qle;
            float_truthy := fun x => negb (Qeq_bool x 0) |}.
  - abstract (intros n Hn; unfold q_truediv;
              change 1%Q with (Qred 1); apply Qred_complete;
              unfold Qeq; simpl; rewrite Z.mul_1_r;
              destruct n as [|n]; [lia|];
              rewrite <- Pos.of_nat_succ; lia).
  - abstract (intros a b Hab Hb; unfold q_truediv; rewrite Qred_correct;
              unfold Qle; simpl; destruct b as [|b]; [lia|];
              rewrite <- Pos.of_nat_succ; lia).
  - apply Qle_refl.
  - abstract (unfold Qle; simpl; lia).
Defined.

(** * The vocabulary of the statements *)

(** The least number of characters a match takes. *)
Fixpoint min_len (r : regex) : nat :=
  match r with
  | Eps | Bnd | Opt _ => 0
  | Lit _ | LitI _ | Cls _ => 1
  | Rep _ lo _ => lo
  | Cat r1 r2 => min_len r1 + min_len r2
  | Alt r1 r2 => Nat.min (min_len r1) (min_len r2)
  | Grp r1 => min_len r1
  end.

(** [\b] is the one construct that looks at the character before the
    current position. *)
Fixpoint bnd_free (r : regex) : bool :=
  match r with
  | Bnd => false
  | Cat r1 r2 | Alt r1 r2 => bnd_free r1 && bnd_free r2
  | Grp r1 => bnd_free r1
  | _ => true
  end.

Definition prev_after (prev : option char) (m : str) : option char :=
  match last m with Some c => Some c | None => prev end.

Section Vocabulary.
Context {U : Unicode} {F : PyFloat}.

(** A complete tag: [<], one character or more other than [>], then [>]. *)
Definition has_tag (s : str) : Prop :=
  exists pre body post,
    s = pre ++ LT :: body ++ GT :: post /\ body <> [] /\ GT ∉ body.

(** A tag opens at the head of [s]. *)
Definition opens_tag (s : str) : bool :=
  match s with
  | c :: d :: t => N.eqb c LT && negb (N.eqb d GT) && existsb (N.eqb GT) t
  | _ => false
  end.

Fixpoint tag_free (s : str) : bool :=
  match s with
  | [] => true
  | _ :: s' => negb (opens_tag s) && tag_free s'
  end.

(** [s] starts with the literal [p], letters compared without case. *)
Fixpoint starts_ci (p s : str) : bool :=
  match p, s with
  | [], _ => true
  | _ :: _, [] => false
  | c :: p', x :: s' =>
      (if is_ascii_letter c then iequal c x else N.eqb x c) && starts_ci p' s'
  end.

(** The shape of the two patterns: an opening tag that starts with [op], and
    the nearest [cl] after it. *)
Definition block_re (op cl : str) : regex :=
  seq_re (lits_i op ++ [Rep true 0 notgt; Lit GT; Rep false 0 anychar] ++
          lits_i cl).

(** A terminated element: [o] is the opening literal as written, [attrs]
    the rest of the opening tag, [c] the closing tag as written, and no
    closing tag starts inside [body]. *)
Definition element (op cl o attrs body c : str) : Prop :=
  starts_ci op o = true /\ length o = length op /\
  (GT ∉ attrs) /\
  starts_ci cl c = true /\ length c = length cl /\
  forall i, i < length body -> starts_ci cl (drop i (body ++ c)) = false.

(** No opening literal starts inside [pre] when [o] follows it. *)
Definition no_opener (op pre o : str) : Prop :=
  forall i, i < length pre -> starts_ci op (drop i (pre ++ o)) = false.

(** A document whose elements of one kind are all terminated, with what is
    left of it once they are taken out. *)
Inductive elements (op cl : str) : str -> str -> Prop :=
| elements_none s :
    (forall i, starts_ci op (drop i s) = false) ->
    elements op cl s s
| elements_cons pre o attrs body c post out :
    no_opener op pre o ->
    element op cl o attrs body c ->
    elements op cl post out ->
    elements op cl (pre ++ o ++ attrs ++ GT :: body ++ c ++ post) (pre ++ out).

(** [p] starts at none of the first [n] positions of [s]. *)
Definition free_upto (p s : str) (n : nat) : bool :=
  forallb (fun i => negb (starts_ci p (drop i s))) (seq 0 n).

Definition head_space (s : str) : bool :=
  match s with c :: _ => isspace c | [] => false end.

(** No two white space characters in a row. *)
Fixpoint single_spaced (s : str) : bool :=
  match s with
  | [] => true
  | c :: s' => negb (isspace c && head_space s') && single_spaced s'
  end.

(** What [strip_html] returns as text: single spaces, none in front. *)
Definition tidy (s : str) : Prop :=
  single_spaced s = true /\ head_space s = false.

(** The documents whose record gets written. *)
Definition succeeded (f : raw_file) : bool :=
  match rf_content f with Some _ => rf_writable f | None => false end.

Definition path_le (f g : raw_file) : Prop :=
  str_leb (rf_path f) (rf_path g) = true.

(** The record files that [json.load] reads. *)
Definition loaded (f : processed_file) : bool :=
  match pf_data f with Some _ => true | None => false end.

(** A record the loop can go through: an object whose ["text"] is absent,
    falsy or a string. *)
Definition well_formed (data : pyval) : Prop :=
  exists s, text_of data = inr s.

Definition file_le (f g : processed_file) : Prop :=
  str_leb (pf_path f) (pf_path g) = true.

(** The position at which [w] is first seen in [l]. *)
Fixpoint first_index (w : str) (l : list str) : nat :=
  match l with
  | [] => 0
  | x :: l' => if str_eqb x w then 0 else S (first_index w l')
  end.

(** The number of times [w] occurs in [l]. *)
Definition occurrences (w : str) (l : list str) : nat :=
  length (List.filter (fun x => str_eqb x w) l).

(** The order of [most_common] over the corpus [l]: the higher count first,
    and of two equal counts the word first seen. *)
Definition ranks_before (l : list str) (x y : str * nat) : Prop :=
  y.2 < x.2 \/ (x.2 = y.2 /\ first_index x.1 l < first_index y.1 l).

End Vocabulary.

(** The corpora of the examples, as the loading loop leaves them. *)
Definition readability_corpus : corpus :=
  {| docs := [ {| name := lit "a.json";
                  words := [lit "ab"; lit "c"; lit "d"] |} ];
     all_words := [lit "ab"; lit "c"; lit "d"];
     all_bigrams := [lit "ab c"; lit "c d"];
     all_trigrams := [lit "ab c d"];
     total_word_chars := 4;
     total_sentences := 1 |}.

Definition pair_corpus : corpus :=
  {| docs := [ {| name := lit "a.json"; words := [lit "hello"; lit "world"] |};
               {| name := lit "b.json"; words := [lit "hello"] |};
               {| name := lit "c.json"; words := [] |} ];
     all_words := [lit "hello"; lit "world"; lit "hello"];
     all_bigrams := [lit "hello world"];
     all_trigrams := [];
     total_word_chars := 15;
     total_sentences := 2 |}.

Definition rank_corpus : corpus :=
  {| docs := [ {| name := lit "a.json";
                  words := [lit "hello"; lit "world"; lit "again"] |};
               {| name := lit "b.json";
                  words := [lit "hello"; lit "world"; lit "hello";
                            lit "again"] |} ];
     all_words := [lit "hello"; lit "world"; lit "again";
                   lit "hello"; lit "world"; lit "hello"; lit "again"];
     all_bigrams := [lit "hello world"; lit "world again"; lit "hello world";
                     lit "world hello"; lit "hello again"];
     all_trigrams := [lit "hello world again"; lit "hello world hello";
                      lit "world hello again"];
     total_word_chars := 35;
     total_sentences := 3 |}.


(** The number of characters of the subject that a piece stands for. *)
Definition piece_len (p : piece) : nat :=
  match p with Gap _ => 1 | Hit w _ => length w end.

Definition weight (ps : list piece) : nat :=
  fold_right (fun p n => piece_len p + n) 0 ps.


Section TextVocabulary.
Context {U : Unicode}.

(** The shape of an extracted text: no white space at either end, and
    inside only single spaces. *)
Definition normalized (s : str) : Prop :=
  head_space s = false /\ head_space (rev s) = false /\
  single_spaced s = true /\
  forall c, c ∈ s -> isspace c = true -> c = SP.

(** A value of [href] or [src] as the patterns take it: not empty, and
    without quote, white space or [>]. *)
Definition attr_value (s : str) : Prop :=
  s <> [] /\
  forall c, c ∈ s ->
    c <> SQUOTE /\ c <> DQUOTE /\ isspace c = false /\ c <> GT.

End TextVocabulary.


Section CorpusVocabulary.
Context {U : Unicode} {F : PyFloat}.

(** The text the loading loop takes from a record file (the empty text
    where it takes none). *)
Definition file_text (f : processed_file) : str :=
  match pf_data f with
  | Some data => match text_of data with inr s => s | inl _ => [] end
  | None => []
  end.

(** The document the loop makes of a record file. *)
Definition doc_of (f : processed_file) : doc :=
  {| name := basename (pf_path f); words := tokenize_words (file_text f) |}.

(** The corpus-wide variables of the loop say what the documents say. *)
Definition consistent (st : corpus) : Prop :=
  all_words st = flat_map words (docs st) /\
  all_bigrams st = flat_map (fun d => ngrams (words d) 2) (docs st) /\
  all_trigrams st = flat_map (fun d => ngrams (words d) 3) (docs st) /\
  total_word_chars st = sum_len (all_words st).

End CorpusVocabulary.


(** What [most_common(n)] over the counts of [l] gives: at most [n] items
    in ranking order, each a key of [l] with its number of occurrences, and
    no key left out that occurs more often than a listed one. *)
Definition ranked (n : nat) (l : list str) (top : list (str * nat)) : Prop :=
  length top <= n /\
  (forall i j x y,
     i < j -> top !! i = Some x -> top !! j = Some y -> ranks_before l x y) /\
  (forall x, x ∈ top -> x.1 ∈ l /\ x.2 = occurrences x.1 l) /\
  (forall w, w ∈ l -> w ∉ map fst top ->
     length top = n /\ forall x, x ∈ top -> occurrences w l <= x.2).


(** ** The two programs together *)

Section Pipeline.
Context {U : Unicode} {F : PyFloat}.

(** The object that [json.dump] writes for a record, as [json.load] gives
    it back; [now] is its time stamp. *)
Definition record_json (now : str) (e : extracted) : pyval :=
  PDict
    [ (lit "source_file", PStr (source_file e));
      (lit "text", PStr (text e));
      (lit "statistics",
       PDict
         [ (lit "word_count", PInt (Z.of_nat (word_count (stats e))));
           (lit "sentence_count", PInt (Z.of_nat (sentence_count (stats e))));
           (lit "paragraph_count",
            PInt (Z.of_nat (paragraph_count (stats e))));
           (lit "avg_word_length", PFloat (st_avg_word_length (stats e))) ]);
      (lit "links", PList (map PStr (links e)));
      (lit "images", PList (map PStr (images e)));
      (lit "processed_at", PStr now) ].

(** The directory of records that the driver leaves, by file name, when it
    starts with none: a record written under a name already there replaces
    the earlier one. *)
Definition record_dir (now : str -> str) (written : list (str * extracted))
    : gmap str pyval :=
  fold_left (fun d ne => <[ne.1 := record_json (now ne.1) ne.2]> d)
            written ∅.

Definition PROCESSED_DIR : str := lit "/shared/processed".

(** The files of the directory as the aggregator opens them. *)
Definition record_files (d : gmap str pyval) : list processed_file :=
  map (fun kv => {| pf_path := PROCESSED_DIR ++ SLASH :: kv.1;
                    pf_data := Some kv.2 |})
      (map_to_list d).

End Pipeline.


(** * Properties *)

(** ** The matcher *)

Section MatcherFacts.
Context {U : Unicode}.

Lemma orelse_Some {R} (a b : option R) (x : R) :
  orelse a b = Some x -> a = Some x \/ (a = None /\ b = Some x).
Proof. destruct a; simpl; intros; [left | right]; auto. Qed.

Lemma rep_greedy_inv {R} p lo prev s (k : option char -> str -> option R) res :
  rep_greedy p lo prev s k = Some res ->
  exists pv m s', s = m ++ s' /\ lo <= length m /\ forallb p m = true /\
                  k pv s' = Some res.
Proof.
  revert lo prev. induction s as [|c s IH]; intros lo prev Hm; simpl in Hm.
  - destruct lo; [|discriminate]. exists prev, [], []. auto.
  - destruct (p c) eqn:Hp.
    + apply orelse_Some in Hm as [Hm | [_ Hm]].
      * apply IH in Hm as (pv & m & s' & -> & Hlo & Hall & Hk).
        exists pv, (c :: m), s'. simpl. rewrite Hp.
        repeat split; auto; lia.
      * destruct lo; [|discriminate]. exists prev, [], (c :: s).
        repeat split; auto.
    + destruct lo; [|discriminate]. exists prev, [], (c :: s).
      repeat split; auto.
Qed.

Lemma rep_lazy_inv {R} p lo prev s (k : option char -> str -> option R) res :
  rep_lazy p lo prev s k = Some res ->
  exists pv m s', s = m ++ s' /\ lo <= length m /\ forallb p m = true /\
                  k pv s' = Some res.
Proof.
  revert lo prev. induction s as [|c s IH]; intros lo prev Hm; simpl in Hm.
  - destruct lo; [|discriminate]. exists prev, [], []. auto.
  - destruct lo as [|lo].
    + apply orelse_Some in Hm as [Hm | [_ Hm]].
      * exists prev, [], (c :: s). repeat split; auto.
      * destruct (p c) eqn:Hp; [|discriminate].
        apply IH in Hm as (pv & m & s' & -> & Hlo & Hall & Hk).
        exists pv, (c :: m), s'. simpl. rewrite Hp.
        repeat split; auto; lia.
    + destruct (p c) eqn:Hp; [|discriminate].
      apply IH in Hm as (pv & m & s' & -> & Hlo & Hall & Hk).
      exists pv, (c :: m), s'. simpl. rewrite Hp.
      repeat split; auto; lia.
Qed.

(** A successful run hands the continuation a suffix of the subject, at
    least [min_len r] characters further. *)
Lemma exec_inv {R} r : forall prev s g
    (k : option char -> str -> option str -> option R) res,
  exec r prev s g k = Some res ->
  exists pv m s' g', s = m ++ s' /\ min_len r <= length m /\
                     k pv s' g' = Some res.
Proof.
  induction r; intros prev s g k res Hm; simpl in Hm.
  - exists prev, [], s, g. auto.
  - destruct s as [|x s]; [discriminate|].
    destruct (N.eqb x c); [|discriminate].
    exists (Some x), [x], s, g. simpl. auto.
  - destruct s as [|x s]; [discriminate|].
    destruct (iequal c x); [|discriminate].
    exists (Some x), [x], s, g. simpl. auto.
  - destruct s as [|x s]; [discriminate|].
    destruct (p x); [|discriminate].
    exists (Some x), [x], s, g. simpl. auto.
  - destruct (xorb _ _); [|discriminate].
    exists prev, [], s, g. simpl. auto.
  - destruct greedy.
    + apply rep_greedy_inv in Hm as (pv & m & s' & -> & Hlo & _ & Hk).
      exists pv, m, s', g. auto.
    + apply rep_lazy_inv in Hm as (pv & m & s' & -> & Hlo & _ & Hk).
      exists pv, m, s', g. auto.
  - destruct s as [|x s].
    + exists prev, [], [], g. simpl. auto with arith.
    + destruct (p x).
      * apply orelse_Some in Hm as [Hm | [_ Hm]].
        -- exists (Some x), [x], s, g. simpl. auto with arith.
        -- exists prev, [], (x :: s), g. simpl. auto.
      * exists prev, [], (x :: s), g. simpl. auto.
  - apply IHr1 in Hm as (pv & m & s' & g' & -> & Hl1 & Hm).
    apply IHr2 in Hm as (pv' & m' & s'' & g'' & -> & Hl2 & Hm).
    exists pv', (m ++ m'), s'', g''. rewrite length_app, <- app_assoc.
    repeat split; auto; simpl; lia.
  - apply orelse_Some in Hm as [Hm | [_ Hm]].
    + apply IHr1 in Hm as (pv & m & s' & g' & -> & Hl1 & Hm).
      exists pv, m, s', g'. repeat split; auto; simpl; lia.
    + apply IHr2 in Hm as (pv & m & s' & g' & -> & Hl1 & Hm).
      exists pv, m, s', g'. repeat split; auto; simpl; lia.
  - apply IHr in Hm as (pv & m & s' & g' & -> & Hl1 & Hm).
    eexists pv, m, s', _. repeat split; eauto.
Qed.

(** A match ends on a suffix of the subject and takes [min_len r]
    characters at least: a pattern with [0 < min_len r] never matches the
    empty string. *)
Lemma rmatch_progress r prev s rest g :
  rmatch r prev s = Some (rest, g) ->
  exists m, s = m ++ rest /\ min_len r <= length m.
Proof.
  unfold rmatch. intros Hm.
  apply exec_inv in Hm as (pv & m & s' & g' & -> & Hl & Hk).
  injection Hk as <- _. eauto.
Qed.

End MatcherFacts.

(** ** The scan *)

Section ScanFacts.
Context {U : Unicode}.

Lemma prev_after_cons prev c m :
  prev_after prev (c :: m) = prev_after (Some c) m.
Proof.
  unfold prev_after. destruct m as [|d m]; [reflexivity|].
  rewrite last_cons. destruct (last (d :: m)) eqn:E; [reflexivity|].
  apply last_None in E. discriminate.
Qed.

Lemma scan_skip r m : forall prev rest,
  scan r prev (m ++ rest) (length m) = scan r (prev_after prev m) rest 0.
Proof.
  induction m as [|c m IH]; intros prev rest.
  - reflexivity.
  - rewrite prev_after_cons. simpl. apply IH.
Qed.

Lemma scan_gap r prev c s :
  rmatch r prev (c :: s) = None ->
  scan r prev (c :: s) 0 = Gap c :: scan r (Some c) s 0.
Proof. intros Hm. simpl. rewrite Hm. reflexivity. Qed.

Lemma scan_hit r prev m rest g :
  rmatch r prev (m ++ rest) = Some (rest, g) -> m <> [] ->
  scan r prev (m ++ rest) 0 = Hit m g :: scan r (prev_after prev m) rest 0.
Proof.
  intros Hm Hne. destruct m as [|c m]; [congruence|].
  change ((c :: m) ++ rest) with (c :: (m ++ rest)) in *.
  cbn [scan]. rewrite Hm.
  replace (length (c :: m ++ rest) - length rest) with (S (length m))
    by (simpl; rewrite length_app; lia).
  rewrite scan_skip, prev_after_cons.
  f_equal. f_equal.
  exact (take_app_length (c :: m) rest).
Qed.

(** Without [\b] the character before the position plays no part. *)
Lemma rep_greedy_prev {R} p s : forall lo prev prev'
    (k : option char -> str -> option R),
  (forall pv pv' s', k pv s' = k pv' s') ->
  rep_greedy p lo prev s k = rep_greedy p lo prev' s k.
Proof.
  induction s as [|c s IH]; intros lo prev prev' k Hk; simpl.
  - destruct lo; auto.
  - destruct lo; simpl; try rewrite (Hk prev prev' (c :: s)); reflexivity.
Qed.

Lemma rep_lazy_prev {R} p s : forall lo prev prev'
    (k : option char -> str -> option R),
  (forall pv pv' s', k pv s' = k pv' s') ->
  rep_lazy p lo prev s k = rep_lazy p lo prev' s k.
Proof.
  induction s as [|c s IH]; intros lo prev prev' k Hk; simpl.
  - destruct lo; auto.
  - destruct lo; simpl; try rewrite (Hk prev prev' (c :: s)); reflexivity.
Qed.

Lemma exec_prev {R} r : bnd_free r = true ->
  forall prev prev' s g (k : option char -> str -> option str -> option R),
  (forall pv pv' s' g', k pv s' g' = k pv' s' g') ->
  exec r prev s g k = exec r prev' s g k.
Proof.
  induction r; intros Hb prev prev' s g k Hk; simpl in *; auto;
    try discriminate.
  - destruct greedy.
    + apply rep_greedy_prev. auto.
    + apply rep_lazy_prev. auto.
  - destruct s as [|x s]; auto. rewrite (Hk prev prev'). reflexivity.
  - apply andb_prop in Hb as [Hb1 Hb2]. apply IHr1; auto.
  - apply andb_prop in Hb as [Hb1 Hb2].
    rewrite (IHr1 Hb1 prev prev'), (IHr2 Hb2 prev prev'); auto.
Qed.

Lemma rmatch_prev r prev prev' s :
  bnd_free r = true -> rmatch r prev s = rmatch r prev' s.
Proof. intros Hb. unfold rmatch. apply exec_prev; auto. Qed.

Lemma scan_prev r : bnd_free r = true ->
  forall s prev prev' skip, scan r prev s skip = scan r prev' s skip.
Proof.
  intros Hb. induction s as [|c s IH]; intros prev prev' skip; simpl; auto.
  destruct skip; auto.
  rewrite (rmatch_prev r prev prev' (c :: s) Hb). reflexivity.
Qed.

(** The characters of a substitution come from the subject or from the
    replacement. *)
Lemma scan_sub_elem r repl x : forall s prev skip,
  x ∈ flat_map (fun p => match p with Gap c => [c] | Hit _ _ => repl end)
        (scan r prev s skip) ->
  x ∈ s \/ x ∈ repl.
Proof.
  induction s as [|c s IH]; intros prev skip Hx; cbn [scan] in Hx.
  - inversion Hx.
  - assert (Hrec : forall pv n,
      x ∈ flat_map (fun p => match p with Gap c => [c] | Hit _ _ => repl end)
            (scan r pv s n) -> x ∈ c :: s \/ x ∈ repl).
    { intros pv n Hx'. apply IH in Hx' as [Hx'|Hx']; [left; right|right]; auto. }
    assert (Hgap : forall pv n,
      x ∈ flat_map (fun p => match p with Gap c => [c] | Hit _ _ => repl end)
            (Gap c :: scan r pv s n) -> x ∈ c :: s \/ x ∈ repl).
    { intros pv n Hx'. cbn [flat_map] in Hx'.
      apply elem_of_app in Hx' as [Hx'|Hx']; eauto.
      apply list_elem_of_singleton in Hx' as ->. left. left. }
    destruct skip as [|n]; [|eauto].
    destruct (rmatch r prev (c :: s)) as [[rest g]|]; [|eauto].
    destruct (length (c :: s) - length rest); [eauto|].
    cbn [flat_map] in Hx. apply elem_of_app in Hx as [Hx|Hx]; eauto.
Qed.

End ScanFacts.

(** ** Tags *)

Section TagFacts.
Context {U : Unicode}.

Lemma existsb_GT (t : str) : existsb (N.eqb GT) t = true <-> GT ∈ t.
Proof.
  rewrite existsb_exists. split.
  - intros (x & Hx & E). apply N.eqb_eq in E. subst x.
    apply list_elem_of_In. exact Hx.
  - intros Hx. exists GT. split; [apply list_elem_of_In; exact Hx|].
    apply N.eqb_refl.
Qed.

Lemma has_tag_not_free s : has_tag s -> tag_free s = false.
Proof.
  intros (pre & body & post & -> & Hne & Hgt).
  induction pre as [|c pre IH].
  - destruct body as [|d body]; [congruence|].
    cbn [app tag_free]. apply andb_false_iff. left.
    apply negb_false_iff. cbn [opens_tag app].
    rewrite N.eqb_refl. cbn [andb].
    apply andb_true_iff. split.
    + apply negb_true_iff. apply N.eqb_neq. intros ->. apply Hgt. left.
    + apply existsb_GT. apply elem_of_app. right. left.
  - change ((c :: pre) ++ LT :: body ++ GT :: post)
      with (c :: (pre ++ LT :: body ++ GT :: post)).
    cbn [tag_free]. rewrite IH. apply andb_false_r.
Qed.

Lemma opens_tag_no_GT c (t : str) : GT ∉ t -> opens_tag (c :: t) = false.
Proof.
  intros Hgt. destruct t as [|d t]; [reflexivity|].
  cbn [opens_tag]. apply andb_false_iff. right.
  apply not_true_is_false. intros E. apply existsb_GT in E.
  apply Hgt. right. exact E.
Qed.

Lemma tag_free_suffix (m s : str) : tag_free (m ++ s) = true -> tag_free s = true.
Proof.
  induction m as [|c m IH]; [auto|].
  change ((c :: m) ++ s) with (c :: (m ++ s)). cbn [tag_free].
  intros E. apply andb_true_iff in E as [_ E]. auto.
Qed.

Lemma opens_tag_app (s q : str) :
  opens_tag s = true -> opens_tag (s ++ q) = true.
Proof.
  destruct s as [|c [|d t]]; try discriminate.
  cbn [opens_tag app]. intros E.
  apply andb_true_iff in E as [E1 E2]. rewrite E1. cbn [andb].
  apply existsb_GT. apply elem_of_app. left. apply existsb_GT. exact E2.
Qed.

Lemma tag_free_prefix (s q : str) : tag_free (s ++ q) = true -> tag_free s = true.
Proof.
  induction s as [|c s IH]; [auto|].
  change ((c :: s) ++ q) with (c :: (s ++ q)). cbn [tag_free].
  intros E. apply andb_true_iff in E as [E1 E2].
  rewrite (IH E2), andb_true_r.
  apply negb_true_iff. apply not_true_is_false. intros E.
  apply (opens_tag_app _ q) in E.
  change ((c :: s) ++ q) with (c :: (s ++ q)) in E.
  rewrite E in E1. discriminate.
Qed.

(** A substitution leaves no complete tag when: the pattern takes a
    character at least and never starts on [>]; where it fails on the
    subject no tag opens; the replacement is a space. *)
Lemma subst_tag_free r :
  0 < min_len r ->
  (forall prev t, rmatch r prev (GT :: t) = None) ->
  forall s,
  (forall m s' prev, s = m ++ s' -> rmatch r prev s' = None ->
                     opens_tag s' = false) ->
  forall prev skip, tag_free (subst [SP] (scan r prev s skip)) = true.
Proof.
  intros Hmin Hgt. induction s as [|c s IH]; intros Hs prev skip.
  - reflexivity.
  - assert (Hs' : forall m s' pv, s = m ++ s' -> rmatch r pv s' = None ->
                                   opens_tag s' = false).
    { intros m s' pv -> Hm. apply (Hs (c :: m) s' pv); auto. }
    specialize (IH Hs').
    assert (Hgap : tag_free (subst [SP] (Gap c :: scan r (Some c) s 0)) = true
                   \/ rmatch r prev (c :: s) <> None).
    { destruct (rmatch r prev (c :: s)) eqn:Hm; [right; congruence|left].
      apply (Hs [] (c :: s) prev eq_refl) in Hm.
      change (subst [SP] (Gap c :: scan r (Some c) s 0))
        with (c :: subst [SP] (scan r (Some c) s 0)).
      cbn [tag_free]. rewrite IH, andb_true_r. apply negb_true_iff.
      destruct s as [|d t]; [reflexivity|].
      cbn [opens_tag] in Hm.
      destruct (N.eqb c LT) eqn:Ec;
        [|generalize (subst [SP] (scan r (Some c) (d :: t) 0));
          intros [|? ?]; cbn [opens_tag]; try rewrite Ec; reflexivity].
      cbn [andb] in Hm. apply andb_false_iff in Hm as [Hm|Hm].
      - apply negb_false_iff, N.eqb_eq in Hm. subst d.
        rewrite scan_gap by apply Hgt.
        cbn [opens_tag subst flat_map app]. rewrite Ec. reflexivity.
      - destruct (N.eqb d GT) eqn:Ed.
        + apply N.eqb_eq in Ed. subst d.
          rewrite scan_gap by apply Hgt.
          cbn [opens_tag subst flat_map app]. rewrite Ec. reflexivity.
        + apply opens_tag_no_GT. intros Hin.
          apply scan_sub_elem in Hin as [Hin|Hin].
          * apply elem_of_cons in Hin as [Hin|Hin].
            -- subst d. rewrite N.eqb_refl in Ed. discriminate.
            -- apply existsb_GT in Hin. congruence.
          * apply list_elem_of_singleton in Hin. discriminate. }
    cbn [scan]. destruct skip as [|n]; [|apply IH].
    destruct (rmatch r prev (c :: s)) as [[rest g]|] eqn:Hm.
    + destruct (length (c :: s) - length rest) eqn:Hlen.
      * apply rmatch_progress in Hm as (m & E & Hl).
        rewrite E, length_app in Hlen. lia.
      * change (subst [SP] (Hit (take (S n) (c :: s)) g :: scan r (Some c) s n))
          with (SP :: subst [SP] (scan r (Some c) s n)).
        cbn [tag_free]. rewrite IH, andb_true_r.
        generalize (subst [SP] (scan r (Some c) s n)).
        intros [|? [|? ?]]; reflexivity.
    + destruct Hgap as [Hgap|Hgap]; [exact Hgap|congruence].
Qed.

End TagFacts.

Section StripFacts.
Context {U : Unicode}.

Lemma rep_greedy_stop {R} p (k : option char -> str -> option R) res rest m :
  forall lo prev,
  forallb p m = true ->
  match rest with c :: _ => p c = false | [] => True end ->
  lo <= length m ->
  k (prev_after prev m) rest = Some res ->
  rep_greedy p lo prev (m ++ rest) k = Some res.
Proof.
  induction m as [|c m IH]; intros lo prev Hall Hrest Hlo Hk.
  - destruct lo; [|simpl in Hlo; lia]. cbn [app]. 
    destruct rest as [|d rest]; simpl; [exact Hk|].
    rewrite Hrest. exact Hk.
  - cbn [forallb] in Hall. apply andb_true_iff in Hall as [Hc Hall].
    rewrite prev_after_cons in Hk. cbn [app rep_greedy]. rewrite Hc.
    rewrite (IH (pred lo) (Some c) Hall Hrest); [reflexivity| |exact Hk].
    simpl in Hlo. lia.
Qed.

Lemma lstrip_suffix s : exists m, s = m ++ lstrip s /\ forallb isspace m = true.
Proof.
  induction s as [|c s (m & E & Hm)]; [exists []; auto|].
  cbn [lstrip]. destruct (isspace c) eqn:Hc.
  - exists (c :: m). cbn [forallb app]. rewrite Hc, Hm, <- E. auto.
  - exists []. auto.
Qed.

Lemma rstrip_prefix s : exists q, s = rstrip s ++ q.
Proof.
  unfold rstrip. destruct (lstrip_suffix (rev s)) as (m & E & _).
  exists (rev m). rewrite <- rev_app_distr, <- E, rev_involutive. reflexivity.
Qed.

Lemma tag_free_strip s : tag_free s = true -> tag_free (strip s) = true.
Proof.
  intros Hs. unfold strip.
  destruct (lstrip_suffix s) as (m & E & _).
  destruct (rstrip_prefix (lstrip s)) as (q & E').
  rewrite E in Hs. apply tag_free_suffix in Hs.
  rewrite E' in Hs. apply tag_free_prefix in Hs. exact Hs.
Qed.

Lemma tag_free_opens (m s : str) :
  tag_free (m ++ s) = true -> opens_tag s = false.
Proof.
  intros Hs. apply tag_free_suffix in Hs. destruct s as [|c s]; [reflexivity|].
  cbn [tag_free] in Hs. apply andb_true_iff in Hs as [Hs _].
  apply negb_true_iff in Hs. exact Hs.
Qed.

Lemma tag_re_complete prev s :
  rmatch tag_re prev s = None -> opens_tag s = false.
Proof.
  intros Hm. apply not_true_is_false. intros Ho.
  destruct s as [|c [|d t]]; try discriminate.
  cbn [opens_tag] in Ho.
  apply andb_true_iff in Ho as [Ho Ht]. apply andb_true_iff in Ho as [Hc Hd].
  apply N.eqb_eq in Hc. subst c.
  apply existsb_GT in Ht. apply list_elem_of_split_l in Ht as (b & rest & -> & Hb).
  unfold rmatch, tag_re in Hm. cbn [seq_re fold_right exec] in Hm.
  change (N.eqb LT LT) with true in Hm. cbn iota in Hm.
  change (d :: b ++ GT :: rest) with ((d :: b) ++ GT :: rest) in Hm.
  erewrite rep_greedy_stop in Hm; [discriminate| | | |].
  - cbn [forallb]. unfold notgt at 1. rewrite Hd. cbn [andb].
    apply forallb_forall. intros x Hx. unfold notgt.
    apply negb_true_iff, N.eqb_neq. intros ->.
    apply Hb. apply list_elem_of_In. exact Hx.
  - reflexivity.
  - simpl. lia.
  - cbn [exec]. rewrite N.eqb_refl. reflexivity.
Qed.

Lemma tag_re_GT prev t : rmatch tag_re prev (GT :: t) = None.
Proof. reflexivity. Qed.

Lemma ws_re_GT prev t : rmatch ws_re prev (GT :: t) = None.
Proof.
  unfold rmatch, ws_re. cbn [exec rep_greedy]. rewrite isspace_GT. reflexivity.
Qed.

(** The text that [strip_html] returns holds no complete tag. *)
Lemma extract_tag_free html : tag_free (extract html).1.1 = true.
Proof.
  unfold extract. cbn [fst]. apply tag_free_strip.
  unfold re_sub.
  apply (subst_tag_free ws_re); [simpl; lia|apply ws_re_GT|].
  intros m s' prev E _. apply (tag_free_opens m). rewrite <- E.
  apply (subst_tag_free tag_re); [simpl; lia|apply tag_re_GT|].
  intros m' s'' prev' _. apply tag_re_complete.
Qed.

(** Each pattern of the two programs takes a character at least. *)
Lemma patterns_progress :
  Forall (fun r => 0 < min_len r)
         [script_re; style_re; href_re; src_re; tag_re; ws_re; word_re;
          sentence_re; para_re].
Proof. repeat constructor; simpl; lia. Qed.

End StripFacts.

(** ** Script and style elements *)

Section BlockFacts.
Context {U : Unicode}.

Lemma script_re_block : script_re = block_re (lit "<script") (lit "</script>").
Proof. reflexivity. Qed.

Lemma style_re_block : style_re = block_re (lit "<style") (lit "</style>").
Proof. reflexivity. Qed.

Lemma block_re_bnd_free op cl : bnd_free (block_re op cl) = true.
Proof.
  unfold block_re.
  assert (Hl : forall p rs, bnd_free (seq_re rs) = true ->
                            bnd_free (seq_re (lits_i p ++ rs)) = true).
  { induction p as [|c p IH]; intros rs Hrs; [exact Hrs|].
    cbn [lits_i map app seq_re fold_right bnd_free].
    apply andb_true_iff. split; [destruct (is_ascii_letter c); reflexivity|].
    apply IH. exact Hrs. }
  apply Hl. cbn [app seq_re fold_right bnd_free andb].
  rewrite <- (app_nil_r (lits_i cl)). apply Hl. reflexivity.
Qed.

Lemma block_re_min_len op cl : 0 < min_len (block_re op cl).
Proof.
  unfold block_re.
  assert (Hl : forall p rs, 0 < min_len (seq_re rs) ->
                            0 < min_len (seq_re (lits_i p ++ rs))).
  { induction p as [|c p IH]; intros rs Hrs; [exact Hrs|].
    cbn [lits_i map app seq_re fold_right min_len].
    destruct (is_ascii_letter c); simpl; lia. }
  apply Hl. cbn [app seq_re fold_right min_len]. lia.
Qed.

(** Running a literal. *)
Lemma exec_lits {R} p rs : forall prev s g
    (k : option char -> str -> option str -> option R),
  exec (seq_re (lits_i p ++ rs)) prev s g k =
  if starts_ci p s
  then exec (seq_re rs) (prev_after prev (take (length p) s))
            (drop (length p) s) g k
  else None.
Proof.
  induction p as [|c p IH]; intros prev s g k.
  - reflexivity.
  - cbn [lits_i map app seq_re fold_right].
    change (fold_right Cat Eps (map _ p ++ rs)) with (seq_re (lits_i p ++ rs)).
    destruct s as [|x s].
    + cbn [exec starts_ci]. destruct (is_ascii_letter c); reflexivity.
    + cbn [starts_ci length take drop]. rewrite prev_after_cons.
      destruct (is_ascii_letter c); cbn [exec].
      * destruct (iequal c x); [apply IH|reflexivity].
      * destruct (N.eqb x c); [apply IH|reflexivity].
Qed.

Lemma starts_ci_app p : forall s q,
  length p <= length s -> starts_ci p (s ++ q) = starts_ci p s.
Proof.
  induction p as [|c p IH]; intros s q Hl; [reflexivity|].
  destruct s as [|x s]; [simpl in Hl; lia|].
  cbn [app starts_ci]. rewrite IH; [reflexivity|]. simpl in Hl. lia.
Qed.

Lemma block_fail op cl prev s :
  starts_ci op s = false -> rmatch (block_re op cl) prev s = None.
Proof.
  intros Hs. unfold rmatch, block_re. rewrite exec_lits, Hs. reflexivity.
Qed.

Lemma rep_lazy_first {R} p (k : option char -> str -> option R) res rest body :
  forall prev,
  forallb p body = true ->
  (forall pv i, i < length body -> k pv (drop i (body ++ rest)) = None) ->
  k (prev_after prev body) rest = Some res ->
  rep_lazy p 0 prev (body ++ rest) k = Some res.
Proof.
  induction body as [|b body IH]; intros prev Hall Hno Hk.
  - cbn [app]. destruct rest as [|d rest]; simpl; [exact Hk|].
    unfold prev_after in Hk. cbn [last] in Hk. rewrite Hk. reflexivity.
  - cbn [forallb] in Hall. apply andb_true_iff in Hall as [Hb Hall].
    rewrite prev_after_cons in Hk. cbn [app rep_lazy].
    pose proof (Hno prev 0 ltac:(simpl; lia)) as H0. cbn [drop app] in H0.
    rewrite H0. cbn [orelse]. rewrite Hb.
    apply IH; [exact Hall| |exact Hk].
    intros pv i Hi. apply (Hno pv (S i)). simpl. lia.
Qed.

Lemma block_match op cl o attrs body c post prev :
  element op cl o attrs body c ->
  rmatch (block_re op cl) prev (o ++ attrs ++ GT :: body ++ c ++ post)
  = Some (post, None).
Proof.
  intros (Ho & Hol & Hattrs & Hc & Hcl & Hbody).
  unfold rmatch, block_re. rewrite exec_lits.
  rewrite starts_ci_app, Ho by lia.
  rewrite <- Hol, drop_app_length.
  cbn [app seq_re fold_right]. cbn [exec].
  apply rep_greedy_stop.
  - apply forallb_forall. intros x Hx. unfold notgt.
    apply negb_true_iff, N.eqb_neq. intros ->.
    apply Hattrs. apply list_elem_of_In. exact Hx.
  - reflexivity.
  - lia.
  - cbn [exec]. rewrite N.eqb_refl.
    change (fold_right Cat Eps (lits_i cl)) with (seq_re (lits_i cl)).
    rewrite <- (app_nil_r (lits_i cl)).
    apply rep_lazy_first.
    + apply forallb_forall. reflexivity.
    + intros pv i Hi. rewrite exec_lits.
      rewrite (app_assoc body), drop_app_le by (rewrite length_app; lia).
      rewrite starts_ci_app, Hbody; [reflexivity|exact Hi|].
      rewrite length_drop, length_app. lia.
    + rewrite exec_lits, starts_ci_app, Hc by lia.
      rewrite <- Hcl, drop_app_length. reflexivity.
Qed.

Lemma scan_gaps r pre : forall prev rest,
  (forall i pv, i < length pre -> rmatch r pv (drop i (pre ++ rest)) = None) ->
  scan r prev (pre ++ rest) 0
  = map Gap pre ++ scan r (prev_after prev pre) rest 0.
Proof.
  induction pre as [|c pre IH]; intros prev rest Hno; [reflexivity|].
  change ((c :: pre) ++ rest) with (c :: (pre ++ rest)).
  rewrite scan_gap by (apply (Hno 0); simpl; lia).
  rewrite prev_after_cons. cbn [map app]. f_equal. apply IH.
  intros i pv Hi. apply (Hno (S i)). simpl. lia.
Qed.

Lemma subst_gaps repl s : subst repl (map Gap s) = s.
Proof. induction s as [|c s IH]; [reflexivity|]. simpl. f_equal. exact IH. Qed.

Lemma subst_app repl ps qs :
  subst repl (ps ++ qs) = subst repl ps ++ subst repl qs.
Proof. unfold subst. apply flat_map_app. Qed.

(** The first element of a document goes away whole, and the scan resumes
    after its closing tag. *)
Lemma block_removed op cl pre o attrs body c post :
  no_opener op pre o ->
  element op cl o attrs body c ->
  re_sub (block_re op cl) [] (pre ++ o ++ attrs ++ GT :: body ++ c ++ post)
  = pre ++ re_sub (block_re op cl) [] post.
Proof.
  intros Hpre Hel. unfold re_sub.
  rewrite scan_gaps.
  - assert (E : o ++ attrs ++ GT :: body ++ c ++ post
                = (o ++ attrs ++ GT :: body ++ c) ++ post).
    { repeat rewrite <- app_assoc. cbn [app]. repeat rewrite <- app_assoc.
      reflexivity. }
    rewrite E at 1.
    rewrite (scan_hit _ _ _ _ None).
    + rewrite subst_app, subst_gaps. cbn [subst flat_map app]. f_equal.
      f_equal. apply scan_prev. apply block_re_bnd_free.
    + rewrite <- E. apply block_match. exact Hel.
    + destruct Hel as (Ho & Hol & _). destruct o; [|discriminate].
      destruct op; [|discriminate]. 
      intros Hnil. apply app_eq_nil in Hnil as [_ Hnil].
      apply app_eq_nil in Hnil as [_ Hnil]. discriminate.
  - intros i pv Hi. apply block_fail.
    destruct Hel as (Ho & Hol & _).
    rewrite app_assoc, drop_app_le by (rewrite length_app; lia).
    rewrite starts_ci_app; [apply Hpre; exact Hi|].
    rewrite length_drop, length_app. lia.
Qed.

(** A text in which no opening literal starts is left as it is. *)
Lemma block_free op cl s :
  (forall i, starts_ci op (drop i s) = false) ->
  re_sub (block_re op cl) [] s = s.
Proof.
  intros Hs. unfold re_sub.
  rewrite <- (app_nil_r s) at 1. rewrite scan_gaps.
  - rewrite subst_app, subst_gaps. apply app_nil_r.
  - intros i pv _. rewrite app_nil_r. apply block_fail, Hs.
Qed.

End BlockFacts.

Section ElementFacts.
Context {U : Unicode}.

Lemma free_upto_spec p s n :
  free_upto p s n = true ->
  forall i, i < n -> starts_ci p (drop i s) = false.
Proof.
  unfold free_upto. rewrite forallb_forall. intros Hall i Hi.
  apply negb_true_iff. apply Hall. apply in_seq. lia.
Qed.

Lemma free_upto_all p s :
  p <> [] -> free_upto p s (length s) = true ->
  forall i, starts_ci p (drop i s) = false.
Proof.
  intros Hp Hall i. destruct (Nat.lt_ge_cases i (length s)) as [Hi|Hi].
  - apply (free_upto_spec p s (length s)); assumption.
  - rewrite drop_ge by exact Hi. destruct p; [congruence|reflexivity].
Qed.

Lemma elements_removed op cl s out :
  elements op cl s out -> re_sub (block_re op cl) [] s = out.
Proof.
  induction 1 as [s Hs|pre o attrs body c post out Hpre Hel _ IH].
  - apply block_free. exact Hs.
  - rewrite block_removed by assumption. rewrite IH. reflexivity.
Qed.

End ElementFacts.

(** C2 (as amended).  For every HTML input the extracted text holds no
    complete tag (a [<], one character or more other than [>], then [>]);
    and when the script elements of the input, and then the style elements
    of what is left, are all terminated, [strip_html] returns what [extract]
    computes from the document without these elements: their content
    reaches neither the text nor the links nor the images. *)
Theorem strip_html_removes_markup {U : Unicode} (html : str) :
  ~ has_tag (strip_html html).1.1 /\
  forall out1 out2,
    elements (lit "<script") (lit "</script>") html out1 ->
    elements (lit "<style") (lit "</style>") out1 out2 ->
    strip_html html = extract out2.
Proof.
  split.
  - intros Htag. apply has_tag_not_free in Htag.
    unfold strip_html in Htag. rewrite extract_tag_free in Htag. discriminate.
  - intros out1 out2 H1 H2. unfold strip_html, remove_scripts, remove_styles.
    rewrite script_re_block, style_re_block.
    rewrite (elements_removed _ _ _ _ H1), (elements_removed _ _ _ _ H2).
    reflexivity.
Qed.

Lemma strip_html_removes_markup_witness :
  ~ has_tag (lit "abc") /\
  strip_html (U := ascii_tables) (lit "a<script>x</script>b<style>y</style>c")
  = (lit "abc", [], []).
Proof.
  pose proof (strip_html_removes_markup (U := ascii_tables)
                (lit "a<script>x</script>b<style>y</style>c")) as [Ht He].
  split; [exact Ht|].
  apply (He (lit "ab<style>y</style>c") (lit "abc")).
  - apply (elements_cons (U := ascii_tables) _ _ (lit "a") (lit "<script") []
             (lit "x") (lit "</script>") (lit "b<style>y</style>c")).
    + intros i Hi. apply (free_upto_spec _ _ 1); [reflexivity|exact Hi].
    + repeat split; try reflexivity.
      * intros Hin. inversion Hin.
      * intros i Hi. apply (free_upto_spec _ _ 1); [reflexivity|exact Hi].
    + apply elements_none. apply free_upto_all; [discriminate|reflexivity].
  - apply (elements_cons (U := ascii_tables) _ _ (lit "ab") (lit "<style") []
             (lit "y") (lit "</style>") (lit "c")).
    + intros i Hi. apply (free_upto_spec _ _ 2); [reflexivity|exact Hi].
    + repeat split; try reflexivity.
      * intros Hin. inversion Hin.
      * intros i Hi. apply (free_upto_spec _ _ 1); [reflexivity|exact Hi].
    + apply elements_none. apply free_upto_all; [discriminate|reflexivity].
Defined.

(** C2 as stated fails, in both halves.  A [>] inside a quoted attribute
    value ends the tag for the pattern, so the rest of the tag, with the
    [>] that closes it, stays in the text, as does the [<] of a tag cut
    short by the end of the input; and the content of a script element that
    is never closed stays in the text. *)
Lemma strip_html_leaves_markup :
  let text1 :=
    (strip_html (U := ascii_tables) (lit "<a title='x>y'>link</a> <b")).1.1 in
  (text1 = lit "y'>link <b" /\ GT ∈ text1 /\ LT ∈ text1) /\
  (strip_html (U := ascii_tables) (lit "<script>alert(1)")).1.1
  = lit "alert(1)".
Proof.
  cbn zeta. split; [|reflexivity].
  split; [reflexivity|].
  change ((strip_html (U := ascii_tables)
             (lit "<a title='x>y'>link</a> <b")).1.1)
    with (lit "y'>link <b").
  split; [apply (list_elem_of_lookup_2 _ 2); reflexivity|].
  apply (list_elem_of_lookup_2 _ 8). reflexivity.
Qed.

(** ** Paragraphs *)

Section ParagraphFacts.
Context {U : Unicode} {F : PyFloat}.

Lemma rep_greedy_spaces prev s :
  rep_greedy isspace 0 prev s (fun _ s' => Some (s', @None str))
  = Some (lstrip s, None).
Proof.
  revert prev. induction s as [|c s IH]; intros prev; [reflexivity|].
  cbn [rep_greedy lstrip]. destruct (isspace c); [|reflexivity].
  cbn [pred]. rewrite IH. reflexivity.
Qed.

Lemma ws_re_match prev s :
  rmatch ws_re prev s = if head_space s then Some (lstrip s, None) else None.
Proof.
  unfold rmatch, ws_re. cbn [exec]. destruct s as [|c s]; [reflexivity|].
  cbn [rep_greedy head_space lstrip]. destruct (isspace c); [|reflexivity].
  cbn [pred]. rewrite rep_greedy_spaces. reflexivity.
Qed.

Lemma head_space_lstrip s : head_space (lstrip s) = false.
Proof.
  induction s as [|c s IH]; [reflexivity|].
  cbn [lstrip]. destruct (isspace c) eqn:Hc; [exact IH|].
  cbn [head_space]. exact Hc.
Qed.

(** Collapsing the white space leaves single spaces, and no space in front
    of a text that had none. *)
Lemma collapse_single_spaced n : forall s prev,
  length s <= n ->
  single_spaced (subst [SP] (scan ws_re prev s 0)) = true /\
  (head_space s = false ->
   head_space (subst [SP] (scan ws_re prev s 0)) = false).
Proof.
  induction n as [|n IH]; intros s prev Hn.
  - destruct s; [split; reflexivity|simpl in Hn; lia].
  - destruct s as [|c s]; [split; reflexivity|].
    pose proof (ws_re_match prev (c :: s)) as Hm.
    cbn [head_space] in *. destruct (isspace c) eqn:Hc.
    + destruct (lstrip_suffix (c :: s)) as (m & E & _).
      pose proof (head_space_lstrip (c :: s)) as Hh.
      remember (lstrip (c :: s)) as rest eqn:Hrest. clear Hrest.
      assert (Hne : m <> []).
      { intros ->. cbn [app] in E. rewrite <- E in Hh.
        cbn [head_space] in Hh. congruence. }
      assert (Hlen : length rest <= n).
      { apply (f_equal (@length N)) in E. rewrite length_app in E.
        destruct m; [congruence|]. simpl in E, Hn. lia. }
      rewrite E in Hm |- *.
      rewrite (scan_hit _ _ _ _ None) by assumption.
      destruct (IH rest (prev_after prev m) Hlen) as [H1 H2].
      specialize (H2 Hh).
      split; [|discriminate].
      change (subst [SP] (Hit m None :: ?ps)) with (SP :: subst [SP] ps).
      cbn [single_spaced]. rewrite H1, H2, andb_false_r. reflexivity.
    + rewrite (scan_gap _ _ _ _ Hm).
      destruct (IH s (Some c) ltac:(simpl in Hn; lia)) as [H1 H2].
      change (subst [SP] (Gap c :: ?ps)) with (c :: subst [SP] ps).
      cbn [single_spaced head_space]. rewrite Hc, H1. split; reflexivity.
Qed.

Lemma single_spaced_suffix (m s : str) :
  single_spaced (m ++ s) = true -> single_spaced s = true.
Proof.
  induction m as [|c m IH]; [auto|].
  change ((c :: m) ++ s) with (c :: (m ++ s)). cbn [single_spaced].
  intros E. apply andb_true_iff in E as [_ E]. auto.
Qed.

Lemma single_spaced_prefix (s q : str) :
  single_spaced (s ++ q) = true -> single_spaced s = true.
Proof.
  induction s as [|c s IH]; [auto|].
  change ((c :: s) ++ q) with (c :: (s ++ q)). cbn [single_spaced].
  intros E. apply andb_true_iff in E as [E1 E2].
  rewrite (IH E2), andb_true_r.
  destruct s as [|d s]; [cbn [head_space]; rewrite andb_false_r; reflexivity|].
  exact E1.
Qed.

Lemma strip_tidy s : single_spaced s = true -> tidy (strip s).
Proof.
  intros Hs. unfold strip.
  destruct (lstrip_suffix s) as (m & E & _).
  destruct (rstrip_prefix (lstrip s)) as (q & E').
  split.
  - rewrite E in Hs. apply single_spaced_suffix in Hs.
    rewrite E' in Hs. apply single_spaced_prefix in Hs. exact Hs.
  - pose proof (head_space_lstrip s) as Hh. rewrite E' in Hh.
    destruct (rstrip (lstrip s)); [reflexivity|exact Hh].
Qed.

Lemma extract_tidy html : tidy (extract html).1.1.
Proof.
  unfold extract. cbn [fst]. apply strip_tidy. unfold re_sub.
  eapply collapse_single_spaced. reflexivity.
Qed.

Lemma lstrip_nil_spaces s : lstrip s = [] -> forallb isspace s = true.
Proof.
  induction s as [|c s IH]; [reflexivity|].
  cbn [lstrip forallb]. destruct (isspace c); [exact IH|discriminate].
Qed.

Lemma nonblank_head s : s <> [] -> head_space s = false -> nonblank s = true.
Proof.
  intros Hne Hh. destruct s as [|c s]; [congruence|].
  cbn [head_space] in Hh. unfold nonblank, strip.
  cbn [lstrip]. rewrite Hh. unfold rstrip.
  destruct (lstrip (rev (c :: s))) as [|d t] eqn:E.
  - apply lstrip_nil_spaces in E. rewrite forallb_forall in E.
    rewrite (E c) in Hh; [discriminate|].
    apply in_rev. rewrite rev_involutive. left. reflexivity.
  - destruct (rev (d :: t)) eqn:E'; [|reflexivity].
    apply (f_equal (@length N)) in E'. rewrite length_rev in E'. discriminate.
Qed.

(** The paragraph pattern needs two white space characters in a row. *)
Lemma para_re_fail prev s :
  negb (head_space s && head_space (tail s)) = true ->
  rmatch para_re prev s = None.
Proof.
  intros Hs. unfold rmatch, para_re. cbn [exec].
  destruct s as [|c [|d t]]; cbn [rep_greedy pred orelse head_space tail] in *.
  - reflexivity.
  - destruct (isspace c), (N.eqb c LF); reflexivity.
  - destruct (N.eqb c LF) eqn:Ec.
    + apply N.eqb_eq in Ec. subst c. rewrite isspace_LF in *.
      cbn [andb negb] in Hs. apply negb_true_iff in Hs. rewrite Hs.
      destruct (N.eqb d LF) eqn:Ed; [|reflexivity].
      apply N.eqb_eq in Ed. subst d. rewrite isspace_LF in Hs. discriminate.
    + destruct (isspace c); [|reflexivity].
      cbn [andb negb] in Hs. apply negb_true_iff in Hs. rewrite Hs.
      reflexivity.
Qed.

Lemma split_gaps s : forall cur, split_pieces (map Gap s) cur = [cur ++ s].
Proof.
  induction s as [|c s IH]; intros cur; cbn [map split_pieces].
  - rewrite app_nil_r. reflexivity.
  - rewrite IH, <- app_assoc. reflexivity.
Qed.

Lemma para_split_tidy s : single_spaced s = true -> re_split para_re s = [s].
Proof.
  intros Hs. unfold re_split.
  rewrite <- (app_nil_r s) at 1. rewrite scan_gaps.
  - rewrite app_nil_r. rewrite <- (app_nil_r (map Gap s)).
    change (scan para_re (prev_after None s) [] 0) with (@nil piece).
    rewrite app_nil_r. apply (split_gaps s []).
  - intros i pv _. rewrite app_nil_r. apply para_re_fail.
    rewrite <- (take_drop i s) in Hs. apply single_spaced_suffix in Hs.
    destruct (drop i s) as [|c t]; [reflexivity|].
    cbn [single_spaced] in Hs. apply andb_true_iff in Hs as [Hs _].
    destruct t; exact Hs.
Qed.

Lemma paragraph_count_tidy s :
  tidy s -> paragraph_count (text_statistics s) = 1.
Proof.
  intros [Hs Hh]. unfold text_statistics. cbn [paragraph_count].
  rewrite (para_split_tidy s Hs). cbn [List.filter].
  destruct s as [|c s]; [reflexivity|].
  rewrite nonblank_head by (auto; discriminate). reflexivity.
Qed.

End ParagraphFacts.

(** C9.  The record of every document has [paragraph_count] at least 1, and
    exactly 1 when its text is not empty: the text has single spaces only,
    so the split on two white space characters or more finds nothing. *)
Theorem paragraph_count_one {U : Unicode} {F : PyFloat}
    (path html : str) (w : bool) :
  match process_one_html
          {| rf_path := path; rf_content := Some html; rf_writable := w |} with
  | Some rec =>
      1 <= paragraph_count (stats rec) /\
      (text rec <> [] -> paragraph_count (stats rec) = 1)
  | None => False
  end.
Proof.
  unfold process_one_html, strip_html. cbn [rf_content].
  pose proof (extract_tidy (remove_styles (remove_scripts html))) as Ht.
  destruct (extract _) as [[t l] i]. cbn [fst] in Ht.
  cbn [stats text]. rewrite (paragraph_count_tidy t Ht). auto.
Qed.

(** ** The extraction driver *)

Section DriverFacts.
Context {U : Unicode} {F : PyFloat}.

Lemma str_leb_total a : forall b, str_leb a b = false -> str_leb b a = true.
Proof.
  induction a as [|x a IH]; intros [|y b]; cbn [str_leb]; try discriminate;
    try reflexivity.
  destruct (N.ltb x y) eqn:Exy; [discriminate|].
  destruct (N.ltb y x) eqn:Eyx; [reflexivity|]. apply IH.
Qed.

Lemma insert_path_perm f l : Permutation (insert_path f l) (f :: l).
Proof.
  induction l as [|g l IH]; cbn [insert_path]; [reflexivity|].
  destruct (str_leb _ _); [reflexivity|].
  rewrite IH. apply perm_swap.
Qed.

Lemma sorted_paths_perm l : Permutation (sorted_paths l) l.
Proof.
  induction l as [|f l IH]; [reflexivity|].
  cbn [sorted_paths fold_right]. fold (sorted_paths l).
  rewrite insert_path_perm, IH. reflexivity.
Qed.

Lemma insert_path_sorted f l :
  Sorted path_le l -> Sorted path_le (insert_path f l).
Proof.
  induction 1 as [|g l Hl IH Hg]; cbn [insert_path].
  - repeat constructor.
  - destruct (str_leb (rf_path f) (rf_path g)) eqn:E.
    + repeat constructor; assumption.
    + constructor; [exact IH|].
      apply str_leb_total in E.
      destruct Hg as [|h l' Hgh]; cbn [insert_path].
      * repeat constructor. exact E.
      * destruct (str_leb (rf_path f) (rf_path h)); constructor; assumption.
Qed.

Lemma sorted_paths_sorted l : Sorted path_le (sorted_paths l).
Proof.
  induction l as [|f l IH]; [constructor|].
  cbn [sorted_paths fold_right]. apply insert_path_sorted. exact IH.
Qed.

Lemma process_one_html_succeeds f :
  match process_one_html f with
  | Some _ => rf_content f <> None
  | None => rf_content f = None
  end.
Proof.
  unfold process_one_html. destruct (rf_content f); [|reflexivity].
  destruct (strip_html _) as [[? ?] ?]. discriminate.
Qed.

Lemma driver_step_spec st f :
  let st' := driver_step st f in
  if succeeded f then
    successes st' = successes st + 1 /\
    failures st' = failures st /\
    processed_files st' = processed_files st ++ [out_name (rf_path f)] /\
    map fst (written st') = map fst (written st) ++ [out_name (rf_path f)]
  else
    successes st' = successes st /\
    failures st' = failures st + 1 /\
    processed_files st' = processed_files st /\
    written st' = written st.
Proof.
  cbn zeta. unfold driver_step, succeeded.
  pose proof (process_one_html_succeeds f) as Hp.
  destruct (process_one_html f) as [data|].
  - destruct (rf_content f); [|congruence].
    destruct (rf_writable f); cbn [successes failures processed_files written];
      rewrite ?map_app; auto.
  - rewrite Hp. auto.
Qed.

(** The loop, turn by turn. *)
Lemma driver_loop l : forall st,
  let st' := fold_left driver_step l st in
  successes st' = successes st + length (List.filter succeeded l) /\
  failures st' + length (List.filter succeeded l) = failures st + length l /\
  processed_files st'
  = processed_files st
    ++ map (fun f => out_name (rf_path f)) (List.filter succeeded l) /\
  map fst (written st')
  = map fst (written st)
    ++ map (fun f => out_name (rf_path f)) (List.filter succeeded l).
Proof.
  induction l as [|f l IH]; intros st; cbn [fold_left List.filter].
  - cbn [length map]. rewrite !app_nil_r. repeat split; lia.
  - specialize (IH (driver_step st f)). cbn zeta in IH.
    destruct IH as (H1 & H2 & H3 & H4).
    pose proof (driver_step_spec st f) as Hs. cbn zeta in Hs.
    destruct (succeeded f); destruct Hs as (S1 & S2 & S3 & S4).
    + rewrite H1, H3, H4, S1, S3, S4. cbn [length map].
      rewrite <- !app_assoc. repeat split; try reflexivity; lia.
    + rewrite H1, H3, H4, S1, S3, S4. cbn [length].
      repeat split; try reflexivity; lia.
Qed.

End DriverFacts.

(** C8.  The completion marker counts every input once, as a success or as
    a failure; [outputs] holds one name per success, the names of the
    records written, in the lexicographic order of the source paths. *)
Theorem marker_counts {U : Unicode} {F : PyFloat} (globbed : list raw_file) :
  let m := (processor_main globbed).1 in
  let html_files := sorted_paths globbed in
  inputs_detected m = processed_success m + processed_failed m /\
  inputs_detected m = length globbed /\
  length (outputs m) = processed_success m /\
  outputs m = map (fun f => out_name (rf_path f))
                  (List.filter succeeded html_files) /\
  outputs m = map fst (processor_main globbed).2 /\
  Sorted path_le html_files /\
  Permutation html_files globbed.
Proof.
  cbn zeta. unfold processor_main. cbn [fst snd inputs_detected
    processed_success processed_failed outputs].
  destruct (driver_loop (sorted_paths globbed) driver_init)
    as (H1 & H2 & H3 & H4).
  cbn zeta in *. cbn [driver_init successes failures processed_files written
    map app] in *.
  rewrite H1, H3, H4. rewrite length_map.
  repeat split; try lia.
  - apply Permutation_length, sorted_paths_perm.
  - apply sorted_paths_sorted.
  - apply sorted_paths_perm.
Qed.

(** ** The loading loop of the aggregator *)

Section LoadFacts.
Context {U : Unicode} {F : PyFloat}.

Lemma insert_file_perm f l : Permutation (insert_file f l) (f :: l).
Proof.
  induction l as [|g l IH]; cbn [insert_file]; [reflexivity|].
  destruct (str_leb _ _); [reflexivity|].
  rewrite IH. apply perm_swap.
Qed.

Lemma sorted_files_perm l : Permutation (sorted_files l) l.
Proof.
  induction l as [|f l IH]; [reflexivity|].
  cbn [sorted_files fold_right]. fold (sorted_files l).
  rewrite insert_file_perm, IH. reflexivity.
Qed.

Lemma str_leb_trans a : forall b c,
  str_leb a b = true -> str_leb b c = true -> str_leb a c = true.
Proof.
  induction a as [|x a IH]; intros [|y b] [|z c]; cbn [str_leb];
    try discriminate; try reflexivity.
  destruct (N.ltb x y) eqn:Exy, (N.ltb y x) eqn:Eyx,
           (N.ltb y z) eqn:Eyz, (N.ltb z y) eqn:Ezy,
           (N.ltb x z) eqn:Exz, (N.ltb z x) eqn:Ezx;
    try discriminate; try reflexivity;
    rewrite ?N.ltb_lt, ?N.ltb_ge in *; try lia.
  apply IH.
Qed.

Lemma insert_file_least f l :
  Forall (file_le f) l -> insert_file f l = f :: l.
Proof.
  intros Hl. destruct Hl as [|g l Hg _]; [reflexivity|].
  cbn [insert_file]. unfold file_le in Hg. rewrite Hg. reflexivity.
Qed.

Lemma insert_file_sorted f l :
  StronglySorted file_le l -> StronglySorted file_le (insert_file f l).
Proof.
  induction 1 as [|g l Hl IH Hg]; cbn [insert_file].
  - repeat constructor.
  - destruct (str_leb (pf_path f) (pf_path g)) eqn:E.
    + constructor; [constructor; assumption|].
      constructor; [exact E|].
      eapply Forall_impl; [exact Hg|].
      intros h Hh. exact (str_leb_trans _ _ _ E Hh).
    + constructor; [exact IH|].
      apply str_leb_total in E.
      apply (Permutation_Forall (Permutation_sym (insert_file_perm f l))).
      constructor; assumption.
Qed.

Lemma sorted_files_sorted l : StronglySorted file_le (sorted_files l).
Proof.
  induction l as [|f l IH]; [constructor|].
  cbn [sorted_files fold_right]. apply insert_file_sorted. exact IH.
Qed.

Lemma filter_insert_file p f l :
  StronglySorted file_le l ->
  List.filter p (insert_file f l)
  = if p f then insert_file f (List.filter p l) else List.filter p l.
Proof.
  induction 1 as [|g l Hl IH Hg]; cbn [insert_file List.filter].
  - destruct (p f); reflexivity.
  - destruct (str_leb (pf_path f) (pf_path g)) eqn:E.
    + cbn [List.filter]. destruct (p f); [|reflexivity].
      rewrite insert_file_least; [reflexivity|].
      assert (Hall : Forall (file_le f) (g :: l)).
      { constructor; [exact E|]. eapply Forall_impl; [exact Hg|].
        intros h Hh. exact (str_leb_trans _ _ _ E Hh). }
      rewrite List.Forall_forall in Hall |- *.
      intros h Hh. apply Hall.
      change (In h (List.filter p (g :: l))) in Hh.
      apply filter_In in Hh as [Hh _]. exact Hh.
    + cbn [List.filter]. rewrite IH.
      destruct (p f), (p g); cbn [insert_file]; rewrite ?E; reflexivity.
Qed.

(** Sorting and dropping the unreadable files commute. *)
Lemma sorted_files_filter p l :
  sorted_files (List.filter p l) = List.filter p (sorted_files l).
Proof.
  induction l as [|f l IH]; [reflexivity|].
  cbn [sorted_files fold_right List.filter]. fold (sorted_files l).
  rewrite filter_insert_file by apply sorted_files_sorted.
  destruct (p f); [|exact IH].
  cbn [sorted_files fold_right]. fold (sorted_files (List.filter p l)).
  rewrite IH. reflexivity.
Qed.

(** An unreadable file leaves the loop variables as they are. *)
Lemma load_filter l : forall st, load (List.filter loaded l) st = load l st.
Proof.
  induction l as [|f l IH]; intros st; [reflexivity|].
  cbn [List.filter load]. unfold loaded at 1.
  destruct (pf_data f) as [data|] eqn:E; [|apply IH].
  cbn [load]. rewrite E. destruct (text_of data); [reflexivity|apply IH].
Qed.

Lemma load_docs l : forall st st',
  load l st = inr st' ->
  length (docs st') = length (docs st) + length (List.filter loaded l).
Proof.
  induction l as [|f l IH]; intros st st' Hl; cbn [load List.filter] in *.
  - injection Hl as <-. cbn [length]. lia.
  - unfold loaded at 1. destruct (pf_data f) as [data|]; [|auto].
    destruct (text_of data) as [e|s]; [discriminate|].
    apply IH in Hl. rewrite Hl. cbn [add_doc docs length].
    rewrite length_app. cbn [length]. lia.
Qed.

Lemma load_total l : forall st,
  (forall f data, In f l -> pf_data f = Some data -> well_formed data) ->
  exists st', load l st = inr st'.
Proof.
  induction l as [|f l IH]; intros st Hwf; cbn [load]; [eauto|].
  destruct (pf_data f) as [data|] eqn:E.
  - destruct (Hwf f data (or_introl eq_refl) E) as [s ->].
    apply IH. intros g d Hg. apply Hwf. right. exact Hg.
  - apply IH. intros g d Hg. apply Hwf. right. exact Hg.
Qed.

Lemma documents_processed_docs st :
  documents_processed (make_report st) = length (docs st).
Proof. unfold make_report. destruct (length (all_words st)); reflexivity. Qed.

Lemma analyzer_main_report globbed st :
  load (sorted_files globbed) corpus_init = inr st ->
  analyzer_main globbed = inr (make_report st) /\
  length (docs st) = length (List.filter loaded globbed).
Proof.
  intros Hl. unfold analyzer_main. rewrite Hl. split; [reflexivity|].
  apply load_docs in Hl. rewrite Hl. cbn [corpus_init docs length].
  rewrite <- sorted_files_filter.
  apply Permutation_length, sorted_files_perm.
Qed.

Lemma analyzer_main_docs globbed rep :
  analyzer_main globbed = inr rep ->
  documents_processed rep = length (List.filter loaded globbed).
Proof.
  unfold analyzer_main.
  destruct (load _ _) as [e|st] eqn:Hl; [discriminate|].
  intros [= <-]. rewrite documents_processed_docs.
  apply load_docs in Hl. rewrite Hl. cbn [corpus_init docs length].
  rewrite <- sorted_files_filter.
  apply Permutation_length, sorted_files_perm.
Qed.

End LoadFacts.

(** C6.  A file that cannot be read or parsed is passed over: the run gives
    what it gives on the readable files alone, [documents_processed] is the
    number of readable files, and the run ends with a report whenever each
    readable file holds a record. *)
Theorem documents_processed_loaded {U : Unicode} {F : PyFloat}
    (globbed : list processed_file) :
  analyzer_main globbed = analyzer_main (List.filter loaded globbed) /\
  (forall rep, analyzer_main globbed = inr rep ->
     documents_processed rep = length (List.filter loaded globbed)) /\
  ((forall f data, In f globbed -> pf_data f = Some data -> well_formed data)
   -> exists rep, analyzer_main globbed = inr rep).
Proof.
  unfold analyzer_main. repeat split.
  - rewrite sorted_files_filter, load_filter. reflexivity.
  - intros rep Hrep. apply analyzer_main_docs. exact Hrep.
  - intros Hwf.
    destruct (load_total (sorted_files globbed) corpus_init) as [st ->];
      [|eauto].
    intros f data Hf. apply Hwf.
    apply (Permutation_in _ (sorted_files_perm globbed)). exact Hf.
Qed.

Lemma documents_processed_loaded_witness :
  exists rep,
    analyzer_main (U := ascii_tables) (F := exact_floats)
      [ {| pf_path := lit "/shared/processed/a.json";
           pf_data := Some (PDict [(lit "text", PStr (lit "Hello world."))]) |};
        {| pf_path := lit "/shared/processed/b.json"; pf_data := None |};
        {| pf_path := lit "/shared/processed/c.json";
           pf_data := Some (PDict [(lit "text", PStr (lit "Hello again!"))]) |} ]
    = inr rep /\ documents_processed rep = 2.
Proof.
  destruct (documents_processed_loaded (U := ascii_tables) (F := exact_floats)
    [ {| pf_path := lit "/shared/processed/a.json";
         pf_data := Some (PDict [(lit "text", PStr (lit "Hello world."))]) |};
      {| pf_path := lit "/shared/processed/b.json"; pf_data := None |};
      {| pf_path := lit "/shared/processed/c.json";
         pf_data := Some (PDict [(lit "text", PStr (lit "Hello again!"))]) |} ])
    as (_ & Hcount & Htotal).
  destruct Htotal as [rep Hrep].
  - intros f data [<-|[<-|[<-|[]]]] [= <-]; eexists; reflexivity.
  - exists rep. split; [exact Hrep|]. exact (Hcount rep Hrep).
Defined.

(** ** Records without text *)







(** ** The report *)

(** C1 (as amended).  When the corpus holds no token the report has
    [total_words] and [unique_words] zero, [documents_processed] the number
    of records loaded, the lists [top_100_words], [document_similarity] and
    [top_bigrams] empty and the three readability numbers [0.0]: no word is
    ranked, no pair compared, no n-gram counted. *)
Theorem empty_corpus_report {U : Unicode} {F : PyFloat}
    (globbed : list processed_file) (st : corpus) :
  load (sorted_files globbed) corpus_init = inr st ->
  all_words st = [] ->
  exists rep,
    analyzer_main globbed = inr rep /\
    documents_processed rep = length (List.filter loaded globbed) /\
    total_words rep = 0 /\
    unique_words rep = 0 /\
    top_100_words rep = [] /\
    document_similarity rep = [] /\
    top_bigrams rep = [] /\
    readability rep = {| avg_sentence_length := fzero;
                         avg_word_length := fzero;
                         complexity_score := fzero |}.
Proof.
  intros Hl Hw. exists (make_report st).
  assert (Hm : analyzer_main globbed = inr (make_report st)).
  { unfold analyzer_main. rewrite Hl. reflexivity. }
  split; [exact Hm|].
  split; [apply analyzer_main_docs; exact Hm|].
  unfold make_report. rewrite Hw. cbn. auto 10.
Qed.

(** Two records of no text: two documents processed, no pair compared. *)
Lemma empty_corpus_report_witness :
  exists rep,
    analyzer_main (U := ascii_tables) (F := exact_floats)
      [ {| pf_path := lit "a.json";
           pf_data := Some (PDict [(lit "text", PStr [])]) |};
        {| pf_path := lit "b.json";
           pf_data := Some (PDict [(lit "text", PStr (lit " ... "))]) |} ]
    = inr rep /\
    documents_processed rep = 2 /\ total_words rep = 0 /\
    document_similarity rep = [].
Proof.
  destruct (empty_corpus_report (U := ascii_tables) (F := exact_floats)
    [ {| pf_path := lit "a.json";
         pf_data := Some (PDict [(lit "text", PStr [])]) |};
      {| pf_path := lit "b.json";
         pf_data := Some (PDict [(lit "text", PStr (lit " ... "))]) |} ]
    _ eq_refl eq_refl) as (rep & H1 & H2 & H3 & _ & _ & H6 & _).
  exists rep. auto.
Defined.

(** C1 as stated fails: [documents_processed] counts the records loaded,
    also when none of them holds a token. *)
Lemma empty_corpus_counts_documents :
  match analyzer_main (U := ascii_tables) (F := exact_floats)
          [ {| pf_path := lit "a.json";
               pf_data := Some (PDict [(lit "text", PStr [])]) |} ] with
  | inr rep => total_words rep = 0 /\ documents_processed rep = 1
  | inl _ => False
  end.
Proof. vm_compute. split; reflexivity. Qed.

(** The readability numbers of the report of a corpus with a token. *)
Lemma readability_of_corpus {F : PyFloat} (st : corpus) :
  all_words st <> [] ->
  let n_words := length (all_words st) in
  let asl :=
    if Nat.eqb (total_sentences st) 0 then of_int n_words
    else truediv n_words (total_sentences st) in
  let awl := truediv (total_word_chars st) n_words in
  readability (make_report st)
  = {| avg_sentence_length := pyround asl 6;
       avg_word_length := pyround awl 6;
       complexity_score := pyround (fmul asl awl) 6 |}.
Proof.
  intros Hw. cbn zeta. unfold make_report.
  destruct (all_words st) as [|w ws]; [congruence|].
  cbn [length Nat.eqb readability]. reflexivity.
Qed.

(** C7 (as amended).  For a run that loads a corpus with a token at least,
    the report gives [avg_sentence_length] and [avg_word_length] rounded to
    6 decimals: the first is [total_words / total_sentences], or
    [total_words] when no sentence was counted, the second
    [total_word_chars / total_words]; [complexity_score] is the product of
    the two numbers before their rounding, rounded to 6 decimals. *)
Theorem readability_rounded {U : Unicode} {F : PyFloat}
    (globbed : list processed_file) (st : corpus) :
  load (sorted_files globbed) corpus_init = inr st ->
  all_words st <> [] ->
  let n_words := length (all_words st) in
  let asl :=
    if Nat.eqb (total_sentences st) 0 then of_int n_words
    else truediv n_words (total_sentences st) in
  let awl := truediv (total_word_chars st) n_words in
  exists rep,
    analyzer_main globbed = inr rep /\
    total_words rep = n_words /\
    readability rep
    = {| avg_sentence_length := pyround asl 6;
         avg_word_length := pyround awl 6;
         complexity_score := pyround (fmul asl awl) 6 |}.
Proof.
  intros Hl Hw. cbn zeta. exists (make_report st).
  split; [apply analyzer_main_report; exact Hl|].
  split; [|apply readability_of_corpus; exact Hw].
  unfold make_report. destruct (all_words st); [congruence|reflexivity].
Qed.

Lemma readability_rounded_witness :
  exists rep,
    analyzer_main (U := ascii_tables) (F := exact_floats)
      [ {| pf_path := lit "a.json";
           pf_data := Some (PDict [(lit "text", PStr (lit "ab c d"))]) |} ]
    = inr rep /\
    total_words rep = 3 /\
    readability rep
    = @Build_readability_entry exact_floats 3%Q (1333333 # 1000000)%Q 4%Q.
Proof.
  exact (readability_rounded (U := ascii_tables) (F := exact_floats)
           [ {| pf_path := lit "a.json";
                pf_data := Some (PDict [(lit "text", PStr (lit "ab c d"))]) |} ]
           readability_corpus eq_refl ltac:(discriminate)).
Defined.

(** C7 as stated fails.  For the one record of text [ab c d] (3 words,
    4 characters, 1 sentence) the [avg_word_length] of the report is the
    rounded quotient, not the quotient, and [complexity_score] is not the
    product of the two numbers the report shows. *)
Lemma readability_not_exact :
  let files :=
    [ {| pf_path := lit "a.json";
         pf_data := Some (@PDict exact_floats
                            [(lit "text", PStr (lit "ab c d"))]) |} ] in
  let rd := readability (make_report (F := exact_floats)
                           readability_corpus) in
  analyzer_main (U := ascii_tables) files
  = inr (make_report readability_corpus) /\
  ~ Qeq (avg_word_length rd)
        (@truediv exact_floats (total_word_chars readability_corpus)
                  (length (all_words readability_corpus))) /\
  ~ Qeq (complexity_score rd)
        (@pyround exact_floats
           (@fmul exact_floats (avg_sentence_length rd) (avg_word_length rd))
           6).
Proof.
  cbn zeta. split; [reflexivity|]. split; vm_compute; discriminate.
Qed.

(** ** Similarity *)

Section JaccardFacts.
Context {F : PyFloat}.

Lemma size_pos (X : gset str) : X <> ∅ -> 0 < size X.
Proof.
  intros HX. apply Nat.neq_0_lt_0. intros Hs. apply HX.
  apply leibniz_equiv. apply size_empty_iff. exact Hs.
Qed.

Lemma jaccard_sym (a b : list str) :
  jaccard_similarity a b = jaccard_similarity b a.
Proof.
  unfold jaccard_similarity.
  rewrite (union_comm_L (list_to_set a : gset str) (list_to_set b)).
  rewrite (intersection_comm_L (list_to_set a : gset str) (list_to_set b)).
  reflexivity.
Qed.

Lemma jaccard_range (a b : list str) :
  fle fzero (jaccard_similarity a b) /\ fle (jaccard_similarity a b) fone.
Proof.
  unfold jaccard_similarity.
  destruct (decide _) as [E|E].
  - split; [apply fle_zero_zero|apply fle_zero_one].
  - apply truediv_unit.
    + apply subseteq_size. intros x Hx.
      apply elem_of_intersection in Hx as [Hx _].
      apply elem_of_union. left. exact Hx.
    + apply size_pos. exact E.
Qed.

Lemma jaccard_self (d : list str) :
  d <> [] -> jaccard_similarity d d = fone.
Proof.
  intros Hd. unfold jaccard_similarity.
  rewrite (union_idemp_L (list_to_set d : gset str)).
  rewrite (intersection_idemp_L (list_to_set d : gset str)).
  destruct (decide _) as [E|E].
  - destruct d as [|w d]; [congruence|]. exfalso.
    assert (Hw : w ∈ (list_to_set (w :: d) : gset str)) by set_solver.
    rewrite E in Hw. set_solver.
  - apply truediv_same. apply size_pos. exact E.
Qed.

Lemma jaccard_nil : jaccard_similarity [] [] = fzero.
Proof. reflexivity. Qed.

(** The quotient, with the one case that [if union] guards. *)
Lemma jaccard_eq (a b : list str) :
  jaccard_similarity a b
  = match a, b with
    | [], [] => fzero
    | _, _ => truediv (size ((list_to_set a : gset str) ∩ list_to_set b))
                      (size ((list_to_set a : gset str) ∪ list_to_set b))
    end.
Proof.
  unfold jaccard_similarity. destruct (decide _) as [E|E].
  - apply empty_union_L in E as [Ea Eb].
    destruct a as [|x a]; [destruct b as [|y b]; [reflexivity|]|].
    + exfalso. assert (Hy : y ∈ (list_to_set (y :: b) : gset str))
        by set_solver. rewrite Eb in Hy. set_solver.
    + exfalso. assert (Hx : x ∈ (list_to_set (x :: a) : gset str))
        by set_solver. rewrite Ea in Hx. set_solver.
  - destruct a as [|x a]; [destruct b as [|y b]|]; try reflexivity.
    exfalso. apply E. set_solver.
Qed.

End JaccardFacts.

(** C5 (as amended).  The similarity is symmetric and lies between [0.0]
    and [1.0]; a document with a token at least has similarity [1.0] with
    itself, and the document of no token [0.0]. *)
Theorem jaccard_symmetric_bounded {F : PyFloat} (a b d : list str) :
  jaccard_similarity a b = jaccard_similarity b a /\
  fle fzero (jaccard_similarity a b) /\
  fle (jaccard_similarity a b) fone /\
  (d <> [] -> jaccard_similarity d d = fone) /\
  jaccard_similarity [] [] = fzero.
Proof.
  split; [apply jaccard_sym|].
  split; [apply jaccard_range|].
  split; [apply jaccard_range|].
  split; [apply jaccard_self|apply jaccard_nil].
Qed.

Lemma jaccard_symmetric_bounded_witness :
  jaccard_similarity (F := exact_floats)
    [lit "hello"; lit "world"; lit "hello"; lit "again"]
    [lit "hello"; lit "world"; lit "hello"; lit "again"] = 1%Q /\
  jaccard_similarity (F := exact_floats)
    [lit "hello"; lit "world"] [lit "world"; lit "again"] = (1 # 3)%Q.
Proof.
  destruct (jaccard_symmetric_bounded (F := exact_floats)
              [lit "hello"; lit "world"] [lit "world"; lit "again"]
              [lit "hello"; lit "world"; lit "hello"; lit "again"])
    as (_ & _ & _ & Hself & _).
  split; [apply Hself; discriminate|].
  vm_compute. reflexivity.
Defined.

(** C5 as stated fails: the document of no token has similarity [0.0] with
    itself. *)
Lemma jaccard_empty_self :
  jaccard_similarity (F := exact_floats) [] [] = 0%Q /\ ~ Qeq 0 1.
Proof. split; [reflexivity|discriminate]. Qed.

Section CombinationFacts.
Context {A : Type}.

Lemma elem_of_map {B} (f : A -> B) (l : list A) y :
  y ∈ map f l <-> exists x, y = f x /\ x ∈ l.
Proof.
  rewrite list_elem_of_In, in_map_iff. split.
  - intros (x & <- & Hx). exists x. rewrite list_elem_of_In. auto.
  - intros (x & -> & Hx). exists x. rewrite <- list_elem_of_In. auto.
Qed.

Lemma combinations2_length2 (l : list A) :
  2 * length (combinations2 l) = length l * (length l - 1).
Proof.
  induction l as [|x l IH]; [reflexivity|].
  cbn [combinations2 length]. rewrite length_app, length_map.
  destruct (length l) as [|n]; simpl in *; nia.
Qed.

Lemma combinations2_length (l : list A) :
  length (combinations2 l) = length l * (length l - 1) / 2.
Proof.
  rewrite <- combinations2_length2, Nat.mul_comm. symmetry.
  apply Nat.div_mul. discriminate.
Qed.

Lemma combinations2_map {B} (f : A -> B) (l : list A) :
  combinations2 (map f l)
  = map (fun p => (f p.1, f p.2)) (combinations2 l).
Proof.
  induction l as [|x l IH]; [reflexivity|].
  cbn [map combinations2]. rewrite map_app, !map_map, IH. reflexivity.
Qed.

Lemma combinations2_elem (l : list A) x y :
  (x, y) ∈ combinations2 l -> x ∈ l /\ y ∈ l.
Proof.
  induction l as [|z l IH]; cbn [combinations2]; [inversion 1|].
  intros Hin. apply elem_of_app in Hin as [Hin|Hin].
  - apply elem_of_map in Hin as (w & [= -> ->] & Hw).
    split; [left|right; exact Hw].
  - apply IH in Hin as [Hx Hy]. split; right; assumption.
Qed.

Lemma combinations2_NoDup (l : list A) :
  NoDup l -> NoDup (combinations2 l).
Proof.
  induction 1 as [|x l Hx Hl IH]; cbn [combinations2]; [constructor|].
  apply NoDup_app. split; [|split; [|exact IH]].
  - clear Hx IH. induction Hl as [|y l Hy Hl IH]; cbn [map]; constructor;
      [|exact IH].
    intros Hin. apply elem_of_map in Hin as (w & [= ->] & Hw). auto.
  - intros [a b] Hin Hin'.
    apply elem_of_map in Hin as (w & [= -> ->] & Hw).
    apply combinations2_elem in Hin' as [Hin' _]. auto.
Qed.

End CombinationFacts.

Lemma combinations2_seq n : forall off i j,
  (i, j) ∈ combinations2 (seq off n) <-> off <= i /\ i < j /\ j < off + n.
Proof.
  induction n as [|n IH]; intros off i j; cbn [seq combinations2].
  - split; [inversion 1|lia].
  - rewrite elem_of_app, elem_of_map, IH. split.
    + intros [(w & [= -> ->] & Hw)|Hin]; [|lia].
      apply elem_of_seq in Hw. lia.
    + intros (H1 & H2 & H3).
      destruct (decide (i = off)) as [->|Hne]; [left|right; lia].
      exists j. split; [reflexivity|]. apply elem_of_seq. lia.
Qed.

(** The pairs of a list, told by their positions. *)
Lemma combinations2_indexed {A} (l : list A) :
  Forall2 (fun ij xy => l !! ij.1 = Some xy.1 /\ l !! ij.2 = Some xy.2)
          (combinations2 (seq 0 (length l))) (combinations2 l).
Proof.
  set (il := imap (fun i x => (i, x)) l).
  assert (E1 : map fst il = seq 0 (length l)).
  { subst il. change (map fst ?x) with (fst <$> x). rewrite fmap_imap.
    rewrite <- (list_fmap_id (seq 0 (length l))).
    rewrite <- (imap_seq_0 l id). apply imap_ext. reflexivity. }
  assert (E2 : map snd il = l).
  { subst il. change (map snd ?x) with (snd <$> x). rewrite fmap_imap.
    rewrite <- (list_fmap_id l) at 2. rewrite <- imap_const.
    apply imap_ext. reflexivity. }
  enough (Hen : Forall2
            (fun ij xy => l !! ij.1 = Some xy.1 /\ l !! ij.2 = Some xy.2)
            (combinations2 (map fst il)) (combinations2 (map snd il)))
    by (rewrite E1, E2 in Hen; exact Hen).
  rewrite !combinations2_map.
  assert (Hall : Forall (fun p : (nat * A) * (nat * A) =>
                           l !! p.1.1 = Some p.1.2 /\ l !! p.2.1 = Some p.2.2)
                        (combinations2 il)).
  { apply List.Forall_forall. intros [[i x] [j y]] Hin.
    apply list_elem_of_In, combinations2_elem in Hin as [Hi Hj].
    subst il. apply elem_of_lookup_imap in Hi as (i' & x' & [= -> ->] & Hi).
    apply elem_of_lookup_imap in Hj as (j' & y' & [= -> ->] & Hj).
    auto. }
  induction Hall as [|p ps Hp _ IH]; cbn [map]; constructor; auto.
Qed.

(** The similarity list of the report of a corpus with a token. *)
Lemma similarity_of_corpus {F : PyFloat} (st : corpus) :
  all_words st <> [] ->
  let n := length (docs st) in
  let sims := document_similarity (make_report st) in
  let pairs := combinations2 (seq 0 n) in
  length sims = n * (n - 1) / 2 /\
  NoDup pairs /\
  (forall i j, (i, j) ∈ pairs <-> i < j /\ j < n) /\
  Forall2
    (fun ij e =>
       exists d1 d2,
         docs st !! ij.1 = Some d1 /\ docs st !! ij.2 = Some d2 /\
         doc1 e = name d1 /\ doc2 e = name d2 /\
         similarity e
         = pyround
             match words d1, words d2 with
             | [], [] => fzero
             | _, _ =>
                 truediv
                   (size ((list_to_set (words d1) : gset str)
                          ∩ list_to_set (words d2)))
                   (size ((list_to_set (words d1) : gset str)
                          ∪ list_to_set (words d2)))
             end 6)
    pairs sims.
Proof.
  intros Hw. cbn zeta. unfold make_report.
  destruct (all_words st) as [|w ws] eqn:E; [congruence|].
  cbn [length Nat.eqb document_similarity]. rewrite length_map.
  split; [apply combinations2_length|].
  split; [apply combinations2_NoDup, NoDup_seq|].
  split; [intros i j; rewrite combinations2_seq; lia|].
  apply Forall2_fmap_r.
  eapply Forall2_impl; [apply combinations2_indexed|].
  intros [i j] [d1 d2] [H1 H2]. cbn [fst snd] in *.
  exists d1, d2. rewrite <- jaccard_eq. auto 10.
Qed.

(** C4.  For a run that loads a corpus with a token at least,
    [document_similarity] has [n (n - 1) / 2] entries for the [n] documents
    loaded: entry by entry it follows the pairs of positions [i < j], each
    met once, and gives the names of the two documents with the size of the
    intersection of their token sets over the size of the union ([0.0] when
    neither has a token), rounded to 6 decimals. *)
Theorem similarity_all_pairs {U : Unicode} {F : PyFloat}
    (globbed : list processed_file) (st : corpus) :
  load (sorted_files globbed) corpus_init = inr st ->
  all_words st <> [] ->
  let n := length (List.filter loaded globbed) in
  let pairs := combinations2 (seq 0 n) in
  exists rep,
    analyzer_main globbed = inr rep /\
    documents_processed rep = n /\
    length (docs st) = n /\
    length (document_similarity rep) = n * (n - 1) / 2 /\
    NoDup pairs /\
    (forall i j, (i, j) ∈ pairs <-> i < j /\ j < n) /\
    Forall2
      (fun ij e =>
         exists d1 d2,
           docs st !! ij.1 = Some d1 /\ docs st !! ij.2 = Some d2 /\
           doc1 e = name d1 /\ doc2 e = name d2 /\
           similarity e
           = pyround
               match words d1, words d2 with
               | [], [] => fzero
               | _, _ =>
                   truediv
                     (size ((list_to_set (words d1) : gset str)
                            ∩ list_to_set (words d2)))
                     (size ((list_to_set (words d1) : gset str)
                            ∪ list_to_set (words d2)))
               end 6)
      pairs (document_similarity rep).
Proof.
  intros Hl Hw. cbn zeta.
  destruct (analyzer_main_report globbed st Hl) as [Hm Hn].
  exists (make_report st). rewrite <- Hn.
  split; [exact Hm|].
  split; [apply documents_processed_docs|].
  split; [reflexivity|].
  apply similarity_of_corpus. exact Hw.
Qed.

Lemma similarity_all_pairs_witness :
  exists rep,
    analyzer_main (U := ascii_tables) (F := exact_floats)
      [ {| pf_path := lit "a.json";
           pf_data := Some (PDict [(lit "text", PStr (lit "Hello world."))]) |};
        {| pf_path := lit "b.json";
           pf_data := Some (PDict [(lit "text", PStr (lit "hello!"))]) |};
        {| pf_path := lit "c.json"; pf_data := Some (PDict []) |} ]
    = inr rep /\
    documents_processed rep = 3 /\
    length (document_similarity rep) = 3.
Proof.
  destruct (similarity_all_pairs (U := ascii_tables) (F := exact_floats)
    [ {| pf_path := lit "a.json";
         pf_data := Some (PDict [(lit "text", PStr (lit "Hello world."))]) |};
      {| pf_path := lit "b.json";
         pf_data := Some (PDict [(lit "text", PStr (lit "hello!"))]) |};
      {| pf_path := lit "c.json"; pf_data := Some (PDict []) |} ]
    pair_corpus eq_refl ltac:(discriminate))
    as (rep & H1 & H2 & _ & H4 & _).
  exists rep. auto.
Defined.

(** ** Word frequency *)

Section CounterFacts.

Lemma str_eqb_eq a b : str_eqb a b = true <-> a = b.
Proof. unfold str_eqb. apply bool_decide_eq_true. Qed.

Lemma str_eqb_refl a : str_eqb a a = true.
Proof. apply str_eqb_eq. reflexivity. Qed.

Lemma str_eqb_neq a b : str_eqb a b = false <-> a <> b.
Proof. unfold str_eqb. apply bool_decide_eq_false. Qed.

Lemma first_index_lt w l : w ∈ l -> first_index w l < length l.
Proof.
  induction l as [|x l IH]; [inversion 1|].
  intros Hin. cbn [first_index length].
  destruct (str_eqb x w) eqn:E; [lia|].
  apply str_eqb_neq in E. apply elem_of_cons in Hin as [->|Hin]; [congruence|].
  apply IH in Hin. lia.
Qed.

Lemma first_index_app_l w l q :
  w ∈ l -> first_index w (l ++ q) = first_index w l.
Proof.
  induction l as [|x l IH]; [inversion 1|].
  intros Hin. cbn [first_index app].
  destruct (str_eqb x w) eqn:E; [reflexivity|].
  apply str_eqb_neq in E. apply elem_of_cons in Hin as [->|Hin]; [congruence|].
  rewrite IH by exact Hin. reflexivity.
Qed.

Lemma first_index_new w l : w ∉ l -> first_index w (l ++ [w]) = length l.
Proof.
  induction l as [|x l IH]; intros Hin; cbn [first_index app length].
  - rewrite str_eqb_refl. reflexivity.
  - destruct (str_eqb x w) eqn:E.
    + apply str_eqb_eq in E. subst x. exfalso. apply Hin. left.
    + rewrite IH; [reflexivity|]. intros Hw. apply Hin. right. exact Hw.
Qed.

Lemma occurrences_snoc w l x :
  occurrences w (l ++ [x])
  = occurrences w l + (if str_eqb x w then 1 else 0).
Proof.
  unfold occurrences. rewrite List.filter_app, length_app. cbn [List.filter].
  destruct (str_eqb x w); reflexivity.
Qed.

Lemma occurrences_absent w l : w ∉ l -> occurrences w l = 0.
Proof.
  unfold occurrences. induction l as [|x l IH]; [reflexivity|].
  intros Hin. cbn [List.filter].
  destruct (str_eqb x w) eqn:E.
  - apply str_eqb_eq in E. subst x. exfalso. apply Hin. left.
  - apply IH. intros Hw. apply Hin. right. exact Hw.
Qed.

Lemma Counter_snoc l w : Counter (l ++ [w]) = counter_add w (Counter l).
Proof. unfold Counter. rewrite fold_left_app. reflexivity. Qed.

Lemma counter_add_absent w c :
  w ∉ map fst c -> counter_add w c = c ++ [(w, 1)].
Proof.
  induction c as [|[k n] c IH]; intros Hin; cbn [counter_add app];
    [reflexivity|].
  destruct (str_eqb k w) eqn:E.
  - apply str_eqb_eq in E. subst k. exfalso. apply Hin. left.
  - rewrite IH; [reflexivity|]. intros Hw. apply Hin. right. exact Hw.
Qed.

Lemma counter_add_keys w c :
  w ∈ map fst c -> map fst (counter_add w c) = map fst c.
Proof.
  induction c as [|[k n] c IH]; [inversion 1|].
  intros Hin. cbn [counter_add map fst] in *.
  destruct (str_eqb k w) eqn:E; [reflexivity|].
  apply str_eqb_neq in E. apply elem_of_cons in Hin as [->|Hin]; [congruence|].
  cbn [map fst]. rewrite IH by exact Hin. reflexivity.
Qed.

Lemma counter_add_elem w c k n :
  NoDup (map fst c) ->
  (k, n) ∈ counter_add w c ->
  (k <> w /\ (k, n) ∈ c) \/
  (k = w /\ ((exists m, n = S m /\ (w, m) ∈ c) \/
             (n = 1 /\ w ∉ map fst c))).
Proof.
  induction c as [|[k' n'] c IH]; intros Hnd Hin; cbn [counter_add] in Hin.
  - apply list_elem_of_singleton in Hin as [= -> ->].
    right. split; [reflexivity|]. right. split; [reflexivity|]. inversion 1.
  - cbn [map fst] in Hnd. apply NoDup_cons in Hnd as [Hk' Hnd].
    destruct (str_eqb k' w) eqn:E.
    + apply str_eqb_eq in E. subst k'.
      apply elem_of_cons in Hin as [[= -> ->]|Hin].
      * right. split; [reflexivity|]. left. exists n'.
        split; [reflexivity|left].
      * left. split; [|right; exact Hin].
        intros ->. apply Hk'. apply elem_of_map. exists (w, n).
        split; [reflexivity|exact Hin].
    + apply str_eqb_neq in E.
      apply elem_of_cons in Hin as [[= -> ->]|Hin].
      * left. split; [exact E|left].
      * destruct (IH Hnd Hin) as [[H1 H2]|[-> [(m & -> & Hm)|[-> Hw]]]].
        -- left. split; [exact H1|right; exact H2].
        -- right. split; [reflexivity|]. left. exists m.
           split; [reflexivity|right; exact Hm].
        -- right. split; [reflexivity|]. right. split; [reflexivity|].
           cbn [map fst]. intros Hin'.
           apply elem_of_cons in Hin' as [->|Hin']; [congruence|auto].
Qed.

(** What the counter holds after the corpus [l]: the keys in the order in
    which they were first seen, each with its number of occurrences. *)
Lemma Counter_spec l :
  StronglySorted (fun k1 k2 => first_index k1 l < first_index k2 l)
                 (map fst (Counter l)) /\
  (forall k n, (k, n) ∈ Counter l -> n = occurrences k l /\ k ∈ l) /\
  (forall w, w ∈ l -> w ∈ map fst (Counter l)).
Proof.
  induction l as [|w l (IH1 & IH2 & IH3)] using rev_ind.
  - split; [constructor|]. split; [inversion 1|inversion 1].
  - rewrite Counter_snoc.
    assert (Hkeys : forall k, k ∈ map fst (Counter l) -> k ∈ l).
    { intros k Hk. apply elem_of_map in Hk as ([k' n] & -> & Hk).
      apply (IH2 k' n Hk). }
    assert (Hnd : NoDup (map fst (Counter l))).
    { clear -IH1. induction IH1 as [|k ks _ IH Hk]; constructor; [|exact IH].
      intros Hin. rewrite List.Forall_forall in Hk.
      apply list_elem_of_In, Hk in Hin. lia. }
    assert (Hss : StronglySorted
              (fun k1 k2 => first_index k1 (l ++ [w]) < first_index k2 (l ++ [w]))
              (map fst (Counter l))).
    { clear -IH1 Hkeys. induction IH1 as [|k ks Hs IH Hk]; constructor.
      - apply IH. intros k' Hk'. apply Hkeys. right. exact Hk'.
      - rewrite List.Forall_forall in Hk |- *. intros k' Hk'.
        rewrite !first_index_app_l.
        + apply Hk. exact Hk'.
        + apply Hkeys. right. apply list_elem_of_In. exact Hk'.
        + apply Hkeys. left. }
    destruct (decide (w ∈ map fst (Counter l))) as [Hw|Hw].
    + split; [rewrite counter_add_keys by exact Hw; exact Hss|].
      split.
      * intros k n Hin. rewrite occurrences_snoc.
        apply counter_add_elem in Hin
          as [[H1 H2]|[-> [(m & -> & Hm)|[-> Hn]]]]; [| | |exact Hnd].
        -- destruct (IH2 k n H2) as [-> Hk].
           assert (E : str_eqb w k = false) by (apply str_eqb_neq; congruence).
           rewrite E, Nat.add_0_r. split; [reflexivity|].
           apply elem_of_app. left. exact Hk.
        -- destruct (IH2 w m Hm) as [-> Hk]. rewrite str_eqb_refl.
           split; [lia|]. apply elem_of_app. left. exact Hk.
        -- contradiction.
      * intros x Hx. rewrite counter_add_keys by exact Hw.
        apply elem_of_app in Hx as [Hx|Hx]; [apply IH3; exact Hx|].
        apply list_elem_of_singleton in Hx as ->. exact Hw.
    + assert (Hwl : w ∉ l) by (intros Hin; apply Hw, IH3, Hin).
      rewrite counter_add_absent by exact Hw.
      rewrite map_app. cbn [map fst].
      split.
      * clear -Hss Hkeys Hwl. induction Hss as [|k ks Hs IH Hk].
        -- repeat constructor.
        -- cbn [app]. constructor.
           ++ apply IH. intros k' Hk'. apply Hkeys. right. exact Hk'.
           ++ apply Forall_app. split; [exact Hk|]. constructor; [|constructor].
              rewrite first_index_app_l by (apply Hkeys; left).
              rewrite first_index_new by exact Hwl.
              apply first_index_lt. apply Hkeys. left.
      * split.
        -- intros k n Hin. rewrite occurrences_snoc.
           apply elem_of_app in Hin as [Hin|Hin].
           ++ destruct (IH2 k n Hin) as [-> Hk].
              assert (E : str_eqb w k = false).
              { apply str_eqb_neq. intros ->. auto. }
              rewrite E, Nat.add_0_r. split; [reflexivity|].
              apply elem_of_app. left. exact Hk.
           ++ apply list_elem_of_singleton in Hin as [= -> ->].
              rewrite str_eqb_refl, occurrences_absent by exact Hwl.
              split; [reflexivity|]. apply elem_of_app. right. left.
        -- intros x Hx. apply elem_of_app.
           apply elem_of_app in Hx as [Hx|Hx]; [left; apply IH3; exact Hx|].
           right. exact Hx.
Qed.

End CounterFacts.

Section SortFacts.
Variable l : list str.

Lemma insert_desc_perm x c : Permutation (insert_desc x c) (x :: c).
Proof.
  induction c as [|y c IH]; cbn [insert_desc]; [reflexivity|].
  destruct (x.2 <? y.2); [|reflexivity].
  rewrite IH. apply perm_swap.
Qed.

Lemma sort_desc_perm c : Permutation (sort_desc c) c.
Proof.
  induction c as [|x c IH]; [reflexivity|].
  cbn [sort_desc fold_right]. fold (sort_desc c).
  rewrite insert_desc_perm, IH. reflexivity.
Qed.

(** Inserting an item seen before all the items of a ranked list. *)
Lemma insert_desc_sorted x c :
  Forall (fun y => first_index x.1 l < first_index y.1 l) c ->
  StronglySorted (ranks_before l) c ->
  StronglySorted (ranks_before l) (insert_desc x c).
Proof.
  intros Hx Hc. induction Hc as [|y c Hc IH Hy]; cbn [insert_desc].
  - repeat constructor.
  - apply Forall_cons in Hx as [Hxy Hx].
    destruct (x.2 <? y.2) eqn:E.
    + apply Nat.ltb_lt in E. constructor; [apply IH; exact Hx|].
      apply (Permutation_Forall (Permutation_sym (insert_desc_perm x c))).
      constructor; [left; exact E|exact Hy].
    + apply Nat.ltb_ge in E. constructor; [constructor; assumption|].
      constructor.
      * unfold ranks_before. lia.
      * rewrite List.Forall_forall in Hx, Hy |- *. intros z Hz.
        specialize (Hx z Hz). specialize (Hy z Hz).
        unfold ranks_before in *. lia.
Qed.

Lemma sort_desc_sorted c :
  StronglySorted (fun x y => first_index x.1 l < first_index y.1 l) c ->
  StronglySorted (ranks_before l) (sort_desc c).
Proof.
  induction 1 as [|x c Hc IH Hx]; [constructor|].
  cbn [sort_desc fold_right]. fold (sort_desc c).
  apply insert_desc_sorted; [|exact IH].
  apply (Permutation_Forall (Permutation_sym (sort_desc_perm c))). exact Hx.
Qed.

End SortFacts.

Lemma StronglySorted_lookup {A} (R : A -> A -> Prop) (l : list A) :
  StronglySorted R l ->
  forall i j x y, i < j -> l !! i = Some x -> l !! j = Some y -> R x y.
Proof.
  induction 1 as [|z l Hl IH Hz]; intros i j x y Hij Hi Hj.
  - discriminate.
  - destruct j as [|j]; [lia|]. cbn in Hj. destruct i as [|i].
    + cbn in Hi. injection Hi as <-.
      rewrite List.Forall_forall in Hz. apply Hz.
      apply list_elem_of_In. eapply list_elem_of_lookup_2. exact Hj.
    + cbn in Hi. apply (IH i j); [lia|assumption|assumption].
Qed.

Lemma StronglySorted_fst {A B} (R : A -> A -> Prop) (l : list (A * B)) :
  StronglySorted R (map fst l) ->
  StronglySorted (fun x y => R x.1 y.1) l.
Proof.
  induction l as [|x l IH]; cbn [map]; intros Hs; [constructor|].
  apply StronglySorted_inv in Hs as [Hs Hx].
  constructor; [apply IH; exact Hs|].
  rewrite List.Forall_forall in Hx |- *. intros y Hy.
  apply Hx. apply in_map. exact Hy.
Qed.

(** The word list of the report of a corpus with a token. *)
Lemma top_words_of_corpus {F : PyFloat} (st : corpus) :
  all_words st <> [] ->
  let top := top_100_words (make_report st) in
  let rank e := (word e, count e) in
  length top <= 100 /\
  (forall i j e1 e2,
     i < j -> top !! i = Some e1 -> top !! j = Some e2 ->
     ranks_before (all_words st) (rank e1) (rank e2)) /\
  (forall e, e ∈ top ->
     word e ∈ all_words st /\
     count e = occurrences (word e) (all_words st) /\
     frequency e = pyround (truediv (count e) (length (all_words st))) 6) /\
  (forall w, w ∈ all_words st -> w ∉ map word top ->
     length top = 100 /\
     forall e, e ∈ top -> occurrences w (all_words st) <= count e).
Proof.
  intros Hw. cbn zeta. unfold make_report.
  destruct (length (all_words st)) as [|n] eqn:Hn;
    [destruct (all_words st); [congruence|discriminate]|].
  cbn [Nat.eqb top_100_words]. unfold most_common.
  set (l := all_words st).
  set (mk := fun wc : str * nat =>
               {| word := wc.1; count := wc.2;
                  frequency := pyround (truediv wc.2 (S n)) 6 |}).
  destruct (Counter_spec l) as (HC1 & HC2 & HC3).
  pose proof (sort_desc_sorted l _ (StronglySorted_fst _ _ HC1)) as HS.
  pose proof (sort_desc_perm (Counter l)) as HP.
  set (L := sort_desc (Counter l)) in *.
  assert (Hlook : forall i e, map mk (take 100 L) !! i = Some e ->
            exists x, L !! i = Some x /\ i < 100 /\ e = mk x).
  { intros i e. change (map mk ?x) with (mk <$> x).
    rewrite list_lookup_fmap. destruct (take 100 L !! i) as [x|] eqn:Ex;
      [|discriminate].
    intros [= <-]. apply lookup_take_Some in Ex as [Ex Hi]. eauto. }
  assert (HinC : forall x, x ∈ L -> x ∈ Counter l).
  { intros x Hx. rewrite <- HP. exact Hx. }
  split; [rewrite length_map, length_take; lia|].
  split.
  { intros i j e1 e2 Hij H1 H2.
    apply Hlook in H1 as (x1 & H1 & _ & ->).
    apply Hlook in H2 as (x2 & H2 & _ & ->).
    destruct x1, x2. exact (StronglySorted_lookup _ _ HS i j _ _ Hij H1 H2). }
  split.
  { intros e He. apply list_elem_of_lookup_1 in He as [i He].
    apply Hlook in He as ([w c] & He & _ & ->). cbn [mk word count frequency].
    apply list_elem_of_lookup_2, HinC, HC2 in He as [-> Hin]. auto. }
  intros w Hin Hout.
  apply HC3, elem_of_map in Hin as ([w' c] & Ew & Hin). cbn [fst] in Ew.
  subst w'. rewrite <- HP in Hin.
  apply list_elem_of_lookup_1 in Hin as [q Hq].
  assert (Hq100 : 100 <= q).
  { apply Nat.nlt_ge. intros Hlt. apply Hout.
    apply elem_of_map. exists (mk (w, c)). split; [reflexivity|].
    apply elem_of_map. exists (w, c). split; [reflexivity|].
    apply elem_of_take. eauto. }
  pose proof (lookup_lt_Some _ _ _ Hq) as HqL.
  split; [rewrite length_map, length_take; lia|].
  intros e He. apply list_elem_of_lookup_1 in He as [i He].
  apply Hlook in He as ([w' c'] & He & Hi & ->). cbn [mk count].
  pose proof (StronglySorted_lookup _ _ HS i q _ _ ltac:(lia) He Hq) as HR.
  apply list_elem_of_lookup_2, HinC, HC2 in Hq as [<- _].
  unfold ranks_before in HR. cbn [fst snd] in HR |- *. lia.
Qed.

(** C3.  For a run that loads a corpus with a token at least,
    [top_100_words] has at most 100 entries; an entry comes before another
    when its count is higher, or equal with its word first seen earlier in
    the corpus; each entry gives the number of occurrences of its word, and
    that count over [total_words] rounded to 6 decimals as frequency; a
    word of the corpus that is not listed occurs no more often than any
    listed one, and then the list is full. *)
Theorem top_100_words_ranked {U : Unicode} {F : PyFloat}
    (globbed : list processed_file) (st : corpus) :
  load (sorted_files globbed) corpus_init = inr st ->
  all_words st <> [] ->
  exists rep,
    analyzer_main globbed = inr rep /\
    total_words rep = length (all_words st) /\
    let top := top_100_words rep in
    let rank e := (word e, count e) in
    length top <= 100 /\
    (forall i j e1 e2,
       i < j -> top !! i = Some e1 -> top !! j = Some e2 ->
       ranks_before (all_words st) (rank e1) (rank e2)) /\
    (forall e, e ∈ top ->
       word e ∈ all_words st /\
       count e = occurrences (word e) (all_words st) /\
       frequency e = pyround (truediv (count e) (total_words rep)) 6) /\
    (forall w, w ∈ all_words st -> w ∉ map word top ->
       length top = 100 /\
       forall e, e ∈ top -> occurrences w (all_words st) <= count e).
Proof.
  intros Hl Hw. exists (make_report st).
  split; [apply analyzer_main_report; exact Hl|].
  assert (Ht : total_words (make_report st) = length (all_words st)).
  { unfold make_report. destruct (all_words st); [congruence|reflexivity]. }
  split; [exact Ht|]. rewrite Ht.
  apply top_words_of_corpus. exact Hw.
Qed.

(** The two documents of the scenario: [world] and [again] tie at 2 and
    keep the order in which they were first seen. *)
Lemma top_100_words_ranked_witness :
  exists rep,
    analyzer_main (U := ascii_tables) (F := exact_floats)
      [ {| pf_path := lit "a.json";
           pf_data := Some (PDict [(lit "text",
                                    PStr (lit "Hello world again."))]) |};
        {| pf_path := lit "b.json";
           pf_data := Some (PDict [(lit "text",
                                    PStr (lit "Hello world. Hello again!"))]) |} ]
    = inr rep /\
    map (fun e => (word e, count e)) (top_100_words rep)
    = [(lit "hello", 3); (lit "world", 2); (lit "again", 2)] /\
    length (top_100_words rep) <= 100.
Proof.
  destruct (top_100_words_ranked (U := ascii_tables) (F := exact_floats)
    [ {| pf_path := lit "a.json";
         pf_data := Some (PDict [(lit "text",
                                  PStr (lit "Hello world again."))]) |};
      {| pf_path := lit "b.json";
         pf_data := Some (PDict [(lit "text",
                                  PStr (lit "Hello world. Hello again!"))]) |} ]
    rank_corpus eq_refl ltac:(discriminate))
    as (rep & H1 & _ & H3 & _).
  exists rep. split; [exact H1|]. split; [|exact H3].
  assert (E : analyzer_main (U := ascii_tables) (F := exact_floats)
    [ {| pf_path := lit "a.json";
         pf_data := Some (PDict [(lit "text",
                                  PStr (lit "Hello world again."))]) |};
      {| pf_path := lit "b.json";
         pf_data := Some (PDict [(lit "text",
                                  PStr (lit "Hello world. Hello again!"))]) |} ]
    = inr (make_report rank_corpus)) by reflexivity.
  rewrite E in H1. injection H1 as <-. reflexivity.
Defined.

(** * Further properties of the two programs *)

(** ** Record names *)

Section NameFacts.
Context {U : Unicode} {F : PyFloat}.

Lemma before_absent d (a : str) : d ∉ a -> before d a = a.
Proof.
  induction a as [|c a IH]; intros Hd; cbn [before]; [reflexivity|].
  destruct (N.eqb c d) eqn:E.
  - apply N.eqb_eq in E. subst c. exfalso. apply Hd. left.
  - rewrite IH; [reflexivity|]. intros Hin. apply Hd. right. exact Hin.
Qed.

Lemma before_app d (a b : str) : d ∉ a -> before d (a ++ d :: b) = a.
Proof.
  induction a as [|c a IH]; intros Hd; cbn [before app].
  - rewrite N.eqb_refl. reflexivity.
  - destruct (N.eqb c d) eqn:E.
    + apply N.eqb_eq in E. subst c. exfalso. apply Hd. left.
    + rewrite IH; [reflexivity|]. intros Hin. apply Hd. right. exact Hin.
Qed.

Lemma not_elem_of_rev {A} (x : A) (l : list A) : x ∉ l -> x ∉ rev l.
Proof.
  intros Hx Hin. apply Hx. apply list_elem_of_In, in_rev.
  apply list_elem_of_In. exact Hin.
Qed.

Lemma basename_dir (prefix name : str) :
  prefix = [] \/ (exists d, prefix = d ++ [SLASH]) ->
  SLASH ∉ name ->
  basename (prefix ++ name) = name.
Proof.
  intros [->|[d ->]] Hn; unfold basename.
  - cbn [app]. rewrite before_absent by (apply not_elem_of_rev; exact Hn).
    apply rev_involutive.
  - rewrite <- app_assoc. cbn [app]. rewrite rev_app_distr. cbn [rev].
    rewrite <- app_assoc. cbn [app].
    rewrite before_app by (apply not_elem_of_rev; exact Hn).
    apply rev_involutive.
Qed.

Lemma splitext_root_ext (stem ext : str) :
  DOT ∉ ext ->
  splitext_root (stem ++ DOT :: ext)
  = if existsb (fun c => negb (N.eqb c DOT)) stem then stem
    else stem ++ DOT :: ext.
Proof.
  intros He. unfold splitext_root.
  assert (Hd : existsb (N.eqb DOT) (stem ++ DOT :: ext) = true).
  { apply existsb_exists. exists DOT. split; [|reflexivity].
    apply in_or_app. right. left. reflexivity. }
  rewrite Hd. rewrite rev_app_distr. cbn [rev]. rewrite <- app_assoc.
  cbn [app]. rewrite before_app by (apply not_elem_of_rev; exact He).
  rewrite length_rev, length_app. cbn [length].
  replace (length stem + S (length ext) - length ext - 1) with (length stem)
    by lia.
  rewrite take_app_length. reflexivity.
Qed.

End NameFacts.

(** X1.  The record of [prefix/stem.ext] is named [stem.json]: the directory
    goes, and the extension after the last dot is replaced.  When the dots
    of the name are all leading ones the name has no extension for
    [splitext], and [.json] is added to the whole of it. *)
Theorem out_name_replaces_extension (prefix stem ext : str) :
  prefix = [] \/ (exists d, prefix = d ++ [SLASH]) ->
  SLASH ∉ stem -> SLASH ∉ ext -> DOT ∉ ext ->
  out_name (prefix ++ stem ++ DOT :: ext)
  = if existsb (fun c => negb (N.eqb c DOT)) stem then stem ++ lit ".json"
    else stem ++ DOT :: ext ++ lit ".json".
Proof.
  intros Hp Hs He Hd. unfold out_name.
  rewrite basename_dir; [|exact Hp|].
  - rewrite splitext_root_ext by exact Hd.
    destruct (existsb _ stem); [reflexivity|].
    rewrite <- app_assoc. reflexivity.
  - intros Hin. apply elem_of_app in Hin as [Hin|Hin]; [auto|].
    apply elem_of_cons in Hin as [Hin|Hin]; [discriminate|auto].
Qed.

Lemma out_name_replaces_extension_witness :
  out_name (lit "/shared/raw/page_1.html") = lit "page_1.json" /\
  out_name (lit "/shared/raw/.html") = lit ".html.json".
Proof.
  split.
  - apply (out_name_replaces_extension (lit "/shared/raw/") (lit "page_1")
             (lit "html")).
    + right. exists (lit "/shared/raw"). reflexivity.
    + vm_compute. intros Hin. 
      repeat (apply elem_of_cons in Hin as [Hin|Hin]; [discriminate|]).
      inversion Hin.
    + intros Hin.
      repeat (apply elem_of_cons in Hin as [Hin|Hin]; [discriminate|]).
      inversion Hin.
    + intros Hin.
      repeat (apply elem_of_cons in Hin as [Hin|Hin]; [discriminate|]).
      inversion Hin.
  - apply (out_name_replaces_extension (lit "/shared/raw/") [] (lit "html")).
    + right. exists (lit "/shared/raw"). reflexivity.
    + inversion 1.
    + intros Hin.
      repeat (apply elem_of_cons in Hin as [Hin|Hin]; [discriminate|]).
      inversion Hin.
    + intros Hin.
      repeat (apply elem_of_cons in Hin as [Hin|Hin]; [discriminate|]).
      inversion Hin.
Defined.

(** ** The order and the failures of the extraction driver *)

Section DriverOrder.
Context {U : Unicode} {F : PyFloat}.

Lemma str_leb_antisym a : forall b,
  str_leb a b = true -> str_leb b a = true -> a = b.
Proof.
  induction a as [|x a IH]; intros [|y b]; cbn [str_leb]; try discriminate;
    [reflexivity|].
  destruct (N.ltb x y) eqn:Exy, (N.ltb y x) eqn:Eyx; try discriminate;
    rewrite ?N.ltb_lt, ?N.ltb_ge in *; try lia.
  intros H1 H2. assert (x = y) by lia. subst y. f_equal. apply IH; assumption.
Qed.

Lemma insert_path_strongly_sorted f l :
  StronglySorted path_le l -> StronglySorted path_le (insert_path f l).
Proof.
  induction 1 as [|g l Hl IH Hg]; cbn [insert_path].
  - repeat constructor.
  - destruct (str_leb (rf_path f) (rf_path g)) eqn:E.
    + constructor; [constructor; assumption|].
      constructor; [exact E|].
      eapply Forall_impl; [exact Hg|].
      intros h Hh. exact (str_leb_trans _ _ _ E Hh).
    + constructor; [exact IH|].
      apply str_leb_total in E.
      apply (Permutation_Forall (Permutation_sym (insert_path_perm f l))).
      constructor; assumption.
Qed.

Lemma sorted_paths_strongly_sorted l : StronglySorted path_le (sorted_paths l).
Proof.
  induction l as [|f l IH]; [constructor|].
  cbn [sorted_paths fold_right]. apply insert_path_strongly_sorted. exact IH.
Qed.

(** Two sorted lists with the same elements are one list, when the order
    tells the elements apart. *)
Lemma sorted_unique {A} (R : A -> A -> Prop) (l1 : list A) : forall l2,
  StronglySorted R l1 -> StronglySorted R l2 -> Permutation l1 l2 ->
  (forall x y, In x l1 -> In y l1 -> R x y -> R y x -> x = y) ->
  l1 = l2.
Proof.
  induction l1 as [|x l1 IH]; intros l2 H1 H2 Hp Hanti.
  - apply Permutation_nil in Hp. congruence.
  - destruct l2 as [|y l2];
      [apply Permutation_sym, Permutation_nil in Hp; discriminate|].
    apply StronglySorted_inv in H1 as [H1 Hx].
    apply StronglySorted_inv in H2 as [H2 Hy].
    rewrite List.Forall_forall in Hx, Hy.
    assert (E : x = y).
    { assert (Hxin : In x (y :: l2))
        by (apply (Permutation_in _ Hp); left; reflexivity).
      assert (Hyin : In y (x :: l1))
        by (apply (Permutation_in _ (Permutation_sym Hp)); left; reflexivity).
      destruct Hxin as [->|Hxin]; [reflexivity|].
      destruct Hyin as [->|Hyin]; [reflexivity|].
      apply Hanti; [left; reflexivity|right; exact Hyin|auto|auto]. }
    subst y. f_equal. apply Permutation_cons_inv in Hp.
    apply IH; auto. intros a b Ha Hb. apply Hanti; right; assumption.
Qed.

Lemma In_map_inj {A B} (f : A -> B) (l : list A) x y :
  NoDup (map f l) -> In x l -> In y l -> f x = f y -> x = y.
Proof.
  induction l as [|z l IH]; cbn [map]; intros Hnd Hx Hy E; [destruct Hx|].
  apply NoDup_cons in Hnd as [Hz Hnd].
  destruct Hx as [->|Hx], Hy as [->|Hy]; auto.
  - exfalso. apply Hz. rewrite E. apply list_elem_of_In, in_map. exact Hy.
  - exfalso. apply Hz. rewrite <- E. apply list_elem_of_In, in_map. exact Hx.
Qed.

Lemma sorted_paths_order (l1 l2 : list raw_file) :
  Permutation l1 l2 -> NoDup (map rf_path l1) ->
  sorted_paths l1 = sorted_paths l2.
Proof.
  intros Hp Hnd. apply (sorted_unique path_le).
  - apply sorted_paths_strongly_sorted.
  - apply sorted_paths_strongly_sorted.
  - rewrite !sorted_paths_perm. exact Hp.
  - intros x y Hx Hy Hxy Hyx.
    apply (Permutation_in _ (sorted_paths_perm l1)) in Hx, Hy.
    apply (In_map_inj rf_path l1); auto.
    apply str_leb_antisym; assumption.
Qed.

Lemma insert_path_least f l :
  Forall (path_le f) l -> insert_path f l = f :: l.
Proof.
  intros Hl. destruct Hl as [|g l Hg _]; [reflexivity|].
  cbn [insert_path]. unfold path_le in Hg. rewrite Hg. reflexivity.
Qed.

Lemma filter_insert_path p f l :
  StronglySorted path_le l ->
  List.filter p (insert_path f l)
  = if p f then insert_path f (List.filter p l) else List.filter p l.
Proof.
  induction 1 as [|g l Hl IH Hg]; cbn [insert_path List.filter].
  - destruct (p f); reflexivity.
  - destruct (str_leb (rf_path f) (rf_path g)) eqn:E.
    + cbn [List.filter]. destruct (p f); [|reflexivity].
      rewrite insert_path_least; [reflexivity|].
      assert (Hall : Forall (path_le f) (g :: l)).
      { constructor; [exact E|]. eapply Forall_impl; [exact Hg|].
        intros h Hh. exact (str_leb_trans _ _ _ E Hh). }
      rewrite List.Forall_forall in Hall |- *.
      intros h Hh. apply Hall.
      change (In h (List.filter p (g :: l))) in Hh.
      apply filter_In in Hh as [Hh _]. exact Hh.
    + cbn [List.filter]. rewrite IH.
      destruct (p f), (p g); cbn [insert_path]; rewrite ?E; reflexivity.
Qed.

Lemma sorted_paths_filter p l :
  sorted_paths (List.filter p l) = List.filter p (sorted_paths l).
Proof.
  induction l as [|f l IH]; [reflexivity|].
  cbn [sorted_paths fold_right List.filter]. fold (sorted_paths l).
  rewrite filter_insert_path by apply sorted_paths_strongly_sorted.
  destruct (p f); [|exact IH].
  cbn [sorted_paths fold_right]. fold (sorted_paths (List.filter p l)).
  rewrite IH. reflexivity.
Qed.

Lemma driver_step_failed st f :
  succeeded f = false ->
  driver_step st f
  = {| processed_files := processed_files st; successes := successes st;
       failures := failures st + 1; written := written st |}.
Proof.
  unfold succeeded, driver_step. intros Hs.
  pose proof (process_one_html_succeeds f) as Hp.
  destruct (process_one_html f) as [data|]; [|reflexivity].
  destruct (rf_content f); [|congruence]. rewrite Hs. reflexivity.
Qed.

(** Up to the count of failures, the loop on all documents is the loop on
    those that succeed. *)
Lemma driver_loop_filter l : forall st st',
  processed_files st = processed_files st' ->
  successes st = successes st' ->
  written st = written st' ->
  let a := fold_left driver_step l st in
  let b := fold_left driver_step (List.filter succeeded l) st' in
  processed_files a = processed_files b /\ successes a = successes b /\
  written a = written b /\ failures b = failures st'.
Proof.
  induction l as [|f l IH]; intros st st' H1 H2 H3; cbn zeta;
    cbn [List.filter fold_left]; [auto|].
  destruct (succeeded f) eqn:Hs.
  - cbn [fold_left].
    destruct (IH (driver_step st f) (driver_step st' f)) as (A & B & C & D).
    + unfold driver_step. destruct (process_one_html f); [|exact H1].
      destruct (rf_writable f); cbn [processed_files]; congruence.
    + unfold driver_step. destruct (process_one_html f); [|exact H2].
      destruct (rf_writable f); cbn [successes]; congruence.
    + unfold driver_step. destruct (process_one_html f); [|exact H3].
      destruct (rf_writable f); cbn [written]; congruence.
    + repeat split; auto. rewrite D.
      pose proof (driver_step_spec st' f) as Hsp. cbn zeta in Hsp.
      rewrite Hs in Hsp. apply Hsp.
  - rewrite (driver_step_failed st f Hs). apply IH; assumption.
Qed.

End DriverOrder.

(** X2.  The order in which [glob] lists the documents plays no part: the
    marker and the records written are those of the sorted paths. *)
Theorem processor_main_order {U : Unicode} {F : PyFloat}
    (globbed globbed' : list raw_file) :
  Permutation globbed globbed' ->
  NoDup (map rf_path globbed) ->
  processor_main globbed = processor_main globbed'.
Proof.
  intros Hp Hnd. unfold processor_main.
  rewrite (sorted_paths_order _ _ Hp Hnd). reflexivity.
Qed.

Lemma processor_main_order_witness :
  processor_main (U := ascii_tables) (F := exact_floats)
    [ {| rf_path := lit "/shared/raw/b.html"; rf_content := Some (lit "<p>b</p>");
         rf_writable := true |};
      {| rf_path := lit "/shared/raw/a.html"; rf_content := None;
         rf_writable := true |} ]
  = processor_main (U := ascii_tables) (F := exact_floats)
      [ {| rf_path := lit "/shared/raw/a.html"; rf_content := None;
           rf_writable := true |};
        {| rf_path := lit "/shared/raw/b.html";
           rf_content := Some (lit "<p>b</p>"); rf_writable := true |} ].
Proof.
  apply processor_main_order.
  - apply perm_swap.
  - cbn [map rf_path]. apply NoDup_cons. split.
    + intros Hin. apply list_elem_of_singleton in Hin. discriminate.
    + apply NoDup_singleton.
Defined.

(** X3.  A document that cannot be read, or whose record cannot be written,
    costs the others nothing: the names in [outputs], the records written
    and the count of successes are those of a run on the documents that
    succeed, a run that in turn counts no failure. *)
Theorem processor_main_isolates_failures {U : Unicode} {F : PyFloat}
    (globbed : list raw_file) :
  let run := processor_main globbed in
  let good := processor_main (List.filter succeeded globbed) in
  outputs run.1 = outputs good.1 /\
  run.2 = good.2 /\
  processed_success run.1 = processed_success good.1 /\
  processed_failed good.1 = 0 /\
  processed_failed run.1
  = length globbed - length (List.filter succeeded globbed).
Proof.
  cbn zeta. unfold processor_main.
  cbn [fst snd outputs processed_success processed_failed].
  rewrite sorted_paths_filter.
  destruct (driver_loop_filter (sorted_paths globbed) driver_init driver_init
              eq_refl eq_refl eq_refl) as (A & B & C & D).
  cbn zeta in *. repeat split; auto.
  destruct (driver_loop (sorted_paths globbed) driver_init) as (_ & E & _).
  cbn zeta in E. cbn [driver_init failures] in E.
  rewrite <- (Permutation_length (sorted_paths_perm globbed)).
  rewrite <- (Permutation_length (sorted_paths_perm
                                    (List.filter succeeded globbed))).
  rewrite sorted_paths_filter. lia.
Qed.

(** ** What the scan finds *)

Section HitFacts.
Context {U : Unicode}.

(** The pieces of a scan make up the subject. *)
Lemma scan_weight r s : forall prev skip,
  skip <= length s -> weight (scan r prev s skip) = length s - skip.
Proof.
  induction s as [|c s IH]; intros prev skip Hs; cbn [scan].
  - reflexivity.
  - destruct skip as [|n].
    + destruct (rmatch r prev (c :: s)) as [[rest g]|] eqn:Hm.
      * destruct (length (c :: s) - length rest) as [|m] eqn:Hl.
        -- change (weight (?p :: ?ps)) with (piece_len p + weight ps).
           cbn [piece_len length] in *. rewrite IH by lia. lia.
        -- change (weight (?p :: ?ps)) with (piece_len p + weight ps).
           cbn [piece_len]. rewrite length_take.
           cbn [length] in *. rewrite IH by lia. lia.
      * change (weight (?p :: ?ps)) with (piece_len p + weight ps).
        cbn [piece_len length] in *. rewrite IH by lia. lia.
    + cbn [length] in *. rewrite IH by lia. lia.
Qed.

(** Each match of a scan is a match of the pattern, and takes a character
    at least. *)
Lemma scan_hits r s : forall prev skip w g,
  Hit w g ∈ scan r prev s skip ->
  w <> [] /\ exists pv rest, rmatch r pv (w ++ rest) = Some (rest, g).
Proof.
  induction s as [|c s IH]; intros prev skip w g Hin; cbn [scan] in Hin.
  - inversion Hin.
  - destruct skip as [|n]; [|eauto].
    destruct (rmatch r prev (c :: s)) as [[rest g']|] eqn:Hm.
    + destruct (length (c :: s) - length rest) as [|m] eqn:Hl.
      * apply elem_of_cons in Hin as [Hin|Hin]; [discriminate|eauto].
      * apply elem_of_cons in Hin as [Hin|Hin]; [|eauto].
        injection Hin as -> ->.
        destruct (rmatch_progress _ _ _ _ _ Hm) as (m' & E & _).
        assert (Hlen : length m' = S m).
        { rewrite E, length_app in Hl. lia. }
        assert (Et : take (S m) (c :: s) = m').
        { rewrite E, <- Hlen. apply take_app_length. }
        cbn [take] in Et. rewrite Et.
        split; [destruct m'; discriminate|].
        exists prev, rest. rewrite <- E. exact Hm.
    + apply elem_of_cons in Hin as [Hin|Hin]; [discriminate|eauto].
Qed.

Lemma rep_greedy_zero_total p s : forall prev,
  exists rest,
    rep_greedy p 0 prev s (fun _ s' => Some (s', @None str))
    = Some (rest, None).
Proof.
  induction s as [|c s IH]; intros prev; cbn [rep_greedy pred]; [eauto|].
  destruct (p c); [|eauto].
  destruct (IH (Some c)) as [rest ->]. cbn [orelse]. eauto.
Qed.

(** A run of one class or more: a match is a run of the class, and where
    none starts the class does not hold. *)
Lemma class_match p prev s rest g :
  rmatch (Rep true 1 p) prev s = Some (rest, g) ->
  g = None /\ exists m, s = m ++ rest /\ m <> [] /\ forallb p m = true.
Proof.
  unfold rmatch. cbn [exec]. intros Hm.
  apply rep_greedy_inv in Hm as (pv & m & s' & -> & Hl & Hall & Hk).
  injection Hk as <- <-. split; [reflexivity|].
  exists m. repeat split; auto. destruct m; [simpl in Hl; lia|discriminate].
Qed.

Lemma class_no_match p prev c s :
  rmatch (Rep true 1 p) prev (c :: s) = None -> p c = false.
Proof.
  unfold rmatch. cbn [exec rep_greedy pred]. destruct (p c); [|reflexivity].
  destruct (rep_greedy_zero_total p s (Some c)) as [rest ->]. discriminate.
Qed.

Lemma scan_class_gap p s : forall prev skip c,
  Gap c ∈ scan (Rep true 1 p) prev s skip -> p c = false.
Proof.
  induction s as [|x s IH]; intros prev skip c Hin; cbn [scan] in Hin.
  - inversion Hin.
  - destruct skip as [|n]; [|eauto].
    destruct (rmatch (Rep true 1 p) prev (x :: s)) as [[rest g]|] eqn:Hm.
    + destruct (length (x :: s) - length rest) as [|m] eqn:Hl.
      * apply rmatch_progress in Hm as (m' & E & Hmin).
        rewrite E, length_app in Hl. cbn [min_len] in Hmin. lia.
      * apply elem_of_cons in Hin as [Hin|Hin]; [discriminate|eauto].
    + apply elem_of_cons in Hin as [Hin|Hin]; [|eauto].
      injection Hin as ->. eapply class_no_match. exact Hm.
Qed.

Lemma scan_class_hit p s prev skip w g :
  Hit w g ∈ scan (Rep true 1 p) prev s skip ->
  g = None /\ w <> [] /\ forallb p w = true.
Proof.
  intros Hin. apply scan_hits in Hin as (Hne & pv & rest & Hm).
  apply class_match in Hm as (-> & m & E & _ & Hall).
  apply app_inv_tail in E. subst m. auto.
Qed.

(** The characters of a substitution, by where they come from. *)
Lemma subst_elem repl ps x :
  x ∈ subst repl ps ->
  Gap x ∈ ps \/ (x ∈ repl /\ exists w g, Hit w g ∈ ps).
Proof.
  induction ps as [|p ps IH]; cbn [subst flat_map]; [inversion 1|].
  intros Hin. apply elem_of_app in Hin as [Hin|Hin].
  - destruct p as [c|w g].
    + apply list_elem_of_singleton in Hin as ->. left. left.
    + right. split; [exact Hin|]. exists w, g. left.
  - destruct (IH Hin) as [H|[H (w & g & Hw)]].
    + left. right. exact H.
    + right. split; [exact H|]. exists w, g. right. exact Hw.
Qed.

(** The characters of the parts of a split are characters outside the
    matches. *)
Lemma split_pieces_elem ps : forall cur part x,
  part ∈ split_pieces ps cur -> x ∈ part -> x ∈ cur \/ Gap x ∈ ps.
Proof.
  induction ps as [|p ps IH]; intros cur part x Hp Hx; cbn [split_pieces] in Hp.
  - apply list_elem_of_singleton in Hp as ->. left. exact Hx.
  - destruct p as [c|w g].
    + destruct (IH _ _ _ Hp Hx) as [H|H]; [|right; right; exact H].
      apply elem_of_app in H as [H|H]; [left; exact H|].
      apply list_elem_of_singleton in H as ->. right. left.
    + apply elem_of_cons in Hp as [->|Hp]; [left; exact Hx|].
      destruct (IH _ _ _ Hp Hx) as [H|H]; [inversion H|right; right; exact H].
Qed.

End HitFacts.

(** ** Words, sentences and links *)

Section TokenFacts.
Context {U : Unicode} {F : PyFloat}.

Lemma word_re_match prev s rest g :
  rmatch word_re prev s = Some (rest, g) ->
  g = None /\ exists m, s = m ++ rest /\ m <> [] /\ forallb isword m = true.
Proof.
  unfold rmatch, word_re. cbn [seq_re fold_right exec].
  destruct (xorb (wordp prev) (wordp (head s))); [|discriminate].
  intros Hm.
  apply rep_greedy_inv in Hm as (pv & m & s' & -> & Hl & Hall & Hk).
  destruct (xorb (wordp pv) (wordp (head s'))); [|discriminate].
  injection Hk as <- <-. split; [reflexivity|].
  exists m. repeat split; auto. destruct m; [simpl in Hl; lia|discriminate].
Qed.

Lemma findall_elem r s x :
  x ∈ re_findall r s ->
  exists w g, Hit w g ∈ scan r None s 0 /\ x = default w g.
Proof.
  unfold re_findall. generalize (scan r None s 0). intros ps.
  induction ps as [|p ps IH]; cbn [flat_map]; [inversion 1|].
  intros Hin. apply elem_of_app in Hin as [Hin|Hin].
  - destruct p as [c|w g]; [inversion Hin|].
    apply list_elem_of_singleton in Hin as ->. exists w, g. split; [left|auto].
  - destruct (IH Hin) as (w & g & Hw & ->). exists w, g.
    split; [right; exact Hw|reflexivity].
Qed.

(** The matches found take no more characters than the pieces hold. *)
Lemma findall_sum_len ps :
  (forall w g, Hit w g ∈ ps -> g = None) ->
  sum_len (flat_map (fun p => match p with
                              | Gap _ => []
                              | Hit w g => [default w g]
                              end) ps)
  <= weight ps.
Proof.
  induction ps as [|p ps IH]; intros Hg; [reflexivity|].
  change (weight (p :: ps)) with (piece_len p + weight ps).
  assert (IH' := IH (fun w g Hin => Hg w g (list_elem_of_further _ _ _ Hin))).
  destruct p as [c|w g]; cbn [flat_map app piece_len].
  - lia.
  - rewrite (Hg w g) by left. cbn [default sum_len fold_right app].
    fold (sum_len (flat_map (fun p => match p with
                             | Gap _ => []
                             | Hit w g => [default w g]
                             end) ps)). lia.
Qed.

Lemma sum_len_nonempty (ws : list str) :
  Forall (fun w => w <> []) ws -> length ws <= sum_len ws.
Proof.
  induction 1 as [|w ws Hw _ IH]; [reflexivity|].
  cbn [length sum_len fold_right]. fold (sum_len ws).
  destruct w; [congruence|]. cbn [length]. lia.
Qed.

Lemma group_run prev s rest g :
  rep_greedy attr_char 1 prev s
    (fun _ s' => Some (s', Some (take (length s - length s') s)))
  = Some (rest, g) ->
  exists m, g = Some m /\ m <> [] /\ forallb attr_char m = true.
Proof.
  intros Hm.
  apply rep_greedy_inv in Hm as (pv & m & s' & -> & Hl & Hall & Hk).
  injection Hk as <- <-. exists m.
  replace (length (m ++ s') - length s') with (length m)
    by (rewrite length_app; lia).
  rewrite take_app_length.
  repeat split; auto. destruct m; [simpl in Hl; lia|discriminate].
Qed.

Lemma attr_re_match p prev s rest g :
  rmatch (seq_re (lits_i p ++ [Opt quote; Grp (Rep true 1 attr_char)]))
         prev s = Some (rest, g) ->
  exists m, g = Some m /\ m <> [] /\ forallb attr_char m = true.
Proof.
  unfold rmatch. rewrite exec_lits.
  destruct (starts_ci p s); [|discriminate].
  cbn [seq_re fold_right exec].
  generalize (prev_after prev (take (length p) s)) (drop (length p) s).
  intros pv t Hm.
  destruct t as [|x t]; [eapply group_run; exact Hm|].
  destruct (quote x); [|eapply group_run; exact Hm].
  apply orelse_Some in Hm as [Hm|[_ Hm]]; eapply group_run; exact Hm.
Qed.

Lemma attr_char_value m :
  m <> [] -> forallb attr_char m = true -> attr_value m.
Proof.
  intros Hne Hall. split; [exact Hne|]. intros c Hc.
  rewrite forallb_forall in Hall.
  apply list_elem_of_In, Hall in Hc. unfold attr_char, quote in Hc.
  apply negb_true_iff in Hc.
  apply orb_false_iff in Hc as [Hc Hgt].
  apply orb_false_iff in Hc as [Hq Hsp].
  apply orb_false_iff in Hq as [Hsq Hdq].
  rewrite N.eqb_neq in Hgt, Hsq, Hdq. auto.
Qed.

Lemma attr_findall p s :
  Forall attr_value
    (re_findall (seq_re (lits_i p ++ [Opt quote; Grp (Rep true 1 attr_char)]))
                s).
Proof.
  apply List.Forall_forall. intros x Hx.
  apply list_elem_of_In, findall_elem in Hx as (w & g & Hin & ->).
  apply scan_hits in Hin as (_ & pv & rest & Hm).
  apply attr_re_match in Hm as (m & -> & Hne & Hall).
  cbn [default]. apply attr_char_value; assumption.
Qed.

End TokenFacts.

(** X4.  The words that [text_statistics] counts and [tokenize_words]
    lower-cases are runs of word characters, none of them empty; there are
    as many tokens as the statistics count words, and the words together
    take no more characters than the text has. *)
Theorem words_are_runs {U : Unicode} {F : PyFloat} (text : str) :
  let ws := re_findall word_re text in
  Forall (fun w => w <> [] /\ forallb isword w = true) ws /\
  word_count (text_statistics text) = length ws /\
  length (tokenize_words text) = length ws /\
  length ws <= sum_len ws /\
  sum_len ws <= length text.
Proof.
  cbn zeta.
  assert (Hall : Forall (fun w => w <> [] /\ forallb isword w = true)
                        (re_findall word_re text)).
  { apply List.Forall_forall. intros x Hx.
    apply list_elem_of_In, findall_elem in Hx as (w & g & Hin & ->).
    apply scan_hits in Hin as (Hne & pv & rest & Hm).
    apply word_re_match in Hm as (-> & m & E & _ & Hm).
    apply app_inv_tail in E. subst m. auto. }
  split; [exact Hall|]. split; [reflexivity|].
  split; [unfold tokenize_words; apply length_map|].
  split.
  - apply sum_len_nonempty. eapply Forall_impl; [exact Hall|].
    intros w [Hw _]. exact Hw.
  - unfold re_findall.
    rewrite <- (Nat.sub_0_r (length text)),
            <- (scan_weight word_re text None 0) by lia.
    apply findall_sum_len. intros w g Hin.
    apply scan_hits in Hin as (_ & pv & rest & Hm).
    apply word_re_match in Hm as [Hg _]. exact Hg.
Qed.

(** X5.  A sentence, for the statistics as for the aggregator, is a part of
    the text that holds none of [.], [!] and [?] and is not blank; the two
    programs count the same sentences. *)
Theorem sentences_are_unpunctuated {U : Unicode} {F : PyFloat} (text : str) :
  Forall (fun s => nonblank s = true /\
                   forall c, c ∈ s -> sentence_end c = false)
         (split_sentences text) /\
  sentence_count (text_statistics text) = length (split_sentences text).
Proof.
  split; [|reflexivity].
  apply List.Forall_forall. intros s Hs. unfold split_sentences in Hs.
  apply filter_In in Hs as [Hs Hb]. split; [exact Hb|].
  intros c Hc. unfold re_split in Hs.
  destruct (split_pieces_elem _ _ _ _ (proj2 (list_elem_of_In _ _) Hs) Hc)
    as [H|H]; [inversion H|].
  eapply scan_class_gap. exact H.
Qed.

(** X6.  Each link and each image source that [strip_html] returns is a
    string that is not empty and holds no quote, no white space and no
    [>]. *)
Theorem links_are_attr_values {U : Unicode} (html : str) :
  Forall attr_value (strip_html html).1.2 /\
  Forall attr_value (strip_html html).2.
Proof.
  unfold strip_html, extract. cbn [fst snd].
  split; [apply (attr_findall (lit "href="))|apply (attr_findall (lit "src="))].
Qed.

(** ** The extracted text *)

Section TextFacts.
Context {U : Unicode}.

Lemma lstrip_id s : head_space s = false -> lstrip s = s.
Proof. destruct s as [|c s]; cbn [head_space lstrip]; [auto|]. intros ->. auto. Qed.

Lemma strip_id s :
  head_space s = false -> head_space (rev s) = false -> strip s = s.
Proof.
  intros H1 H2. unfold strip, rstrip.
  rewrite (lstrip_id s H1), (lstrip_id (rev s) H2). apply rev_involutive.
Qed.

Lemma strip_ends s :
  head_space (strip s) = false /\ head_space (rev (strip s)) = false.
Proof.
  unfold strip, rstrip. rewrite rev_involutive.
  split; [|apply head_space_lstrip].
  destruct (lstrip_suffix (rev (lstrip s))) as (m & E & _).
  pose proof (head_space_lstrip s) as Hh.
  apply (f_equal (@rev N)) in E. rewrite rev_involutive, rev_app_distr in E.
  rewrite E in Hh.
  destruct (rev (lstrip (rev (lstrip s)))); [reflexivity|exact Hh].
Qed.

Lemma strip_elem s c : c ∈ strip s -> c ∈ s.
Proof.
  unfold strip. intros Hc.
  destruct (lstrip_suffix s) as (m & E & _).
  destruct (rstrip_prefix (lstrip s)) as (q & E').
  rewrite E, E'. apply elem_of_app. right. apply elem_of_app. left. exact Hc.
Qed.

Lemma collapse_spaces s c :
  c ∈ re_sub ws_re [SP] s -> isspace c = true -> c = SP.
Proof.
  unfold re_sub. intros Hc Hs.
  apply subst_elem in Hc as [Hc|[Hc _]].
  - apply scan_class_gap in Hc. congruence.
  - apply list_elem_of_singleton in Hc. exact Hc.
Qed.

Lemma extract_normalized html : normalized (extract html).1.1.
Proof.
  unfold extract. cbn [fst].
  destruct (strip_ends (re_sub ws_re [SP] (re_sub tag_re [SP] html)))
    as [H1 H2].
  split; [exact H1|]. split; [exact H2|]. split.
  - apply strip_tidy. unfold re_sub.
    eapply collapse_single_spaced. reflexivity.
  - intros c Hc. apply strip_elem in Hc. eapply collapse_spaces. exact Hc.
Qed.

(** Where the pattern matches nowhere the substitution changes nothing. *)
Lemma re_sub_no_match r repl s :
  (forall i pv, rmatch r pv (drop i s) = None) -> re_sub r repl s = s.
Proof.
  intros Hs. unfold re_sub.
  rewrite <- (app_nil_r s) at 1. rewrite scan_gaps.
  - rewrite subst_app, subst_gaps. apply app_nil_r.
  - intros i pv _. rewrite app_nil_r. apply Hs.
Qed.

Lemma tag_re_sound prev s res :
  rmatch tag_re prev s = Some res -> opens_tag s = true.
Proof.
  unfold rmatch, tag_re. cbn [seq_re fold_right exec].
  destruct s as [|x s]; [discriminate|].
  destruct (N.eqb x LT) eqn:Ex; [|discriminate]. intros Hm.
  apply rep_greedy_inv in Hm as (pv & m & s' & -> & Hl & Hall & Hk).
  destruct s' as [|y s']; [discriminate|].
  destruct (N.eqb y GT) eqn:Ey; [|discriminate].
  apply N.eqb_eq in Ey. subst y.
  destruct m as [|d m]; [simpl in Hl; lia|].
  cbn [forallb] in Hall. apply andb_true_iff in Hall as [Hd _].
  cbn [app opens_tag]. rewrite Ex. unfold notgt in Hd. rewrite Hd.
  cbn [andb]. apply existsb_GT. apply elem_of_app. right. left.
Qed.

Lemma block_re_sound op2 op cl prev s res :
  is_ascii_letter op2 = true ->
  (forall x, iequal op2 x = true -> x <> GT) ->
  rmatch (block_re (LT :: op2 :: op) cl) prev s = Some res ->
  opens_tag s = true.
Proof.
  intros Hl2 Hci. unfold rmatch, block_re. rewrite exec_lits.
  destruct (starts_ci (LT :: op2 :: op) s) eqn:Hs; [|discriminate].
  destruct s as [|x0 [|x1 s]]; cbn [starts_ci] in Hs; try discriminate.
  change (is_ascii_letter LT) with false in Hs. rewrite Hl2 in Hs.
  apply andb_true_iff in Hs as [H0 Hs]. apply andb_true_iff in Hs as [H1 _].
  cbn [length drop app seq_re fold_right exec]. intros Hm.
  apply rep_greedy_inv in Hm as (pv & m & s' & E & _ & _ & Hk).
  destruct s' as [|y s']; [discriminate|].
  destruct (N.eqb y GT) eqn:Ey; [|discriminate].
  apply N.eqb_eq in Ey. subst y.
  cbn [opens_tag]. rewrite H0. cbn [andb].
  apply andb_true_iff. split.
  - apply negb_true_iff, N.eqb_neq. apply Hci. exact H1.
  - apply existsb_GT.
    rewrite <- (take_drop (length op) s), E.
    apply elem_of_app. right. apply elem_of_app. right. left.
Qed.

Lemma tag_free_drop s i : tag_free s = true -> opens_tag (drop i s) = false.
Proof.
  intros Hs. apply (tag_free_opens (take i s)). rewrite take_drop. exact Hs.
Qed.

Lemma no_match_of_sound r s :
  (forall pv t res, rmatch r pv t = Some res -> opens_tag t = true) ->
  tag_free s = true ->
  forall i pv, rmatch r pv (drop i s) = None.
Proof.
  intros Hsound Hs i pv.
  destruct (rmatch r pv (drop i s)) as [res|] eqn:Hm; [|reflexivity].
  apply Hsound in Hm. rewrite (tag_free_drop s i Hs) in Hm. discriminate.
Qed.

(** Collapsing the white space of a text that has single spaces only. *)
Lemma collapse_id s : forall prev,
  single_spaced s = true ->
  (forall c, c ∈ s -> isspace c = true -> c = SP) ->
  subst [SP] (scan ws_re prev s 0) = s.
Proof.
  induction s as [|c s IH]; intros prev Hs Hsp; [reflexivity|].
  cbn [single_spaced] in Hs. apply andb_true_iff in Hs as [Hc Hs].
  assert (IH' : forall pv, subst [SP] (scan ws_re pv s 0) = s).
  { intros pv. apply IH; [exact Hs|].
    intros x Hx. apply Hsp. right. exact Hx. }
  pose proof (ws_re_match prev (c :: s)) as Hm. cbn [head_space] in Hm.
  destruct (isspace c) eqn:Ec.
  - assert (c = SP) by (apply Hsp; [left|exact Ec]). subst c.
    cbn [andb] in Hc. apply negb_true_iff in Hc.
    cbn [lstrip] in Hm. rewrite Ec, (lstrip_id s Hc) in Hm.
    change (SP :: s) with ([SP] ++ s) in Hm |- *.
    rewrite (scan_hit _ _ _ _ None Hm) by discriminate.
    cbn [subst flat_map app]. f_equal. apply IH'.
  - rewrite (scan_gap _ _ _ _ Hm). cbn [subst flat_map app].
    f_equal. apply IH'.
Qed.

End TextFacts.

(** X7.  The text of a record has no white space at either end, and inside
    it white space comes as single spaces only: no tab, no line break, no
    two spaces in a row. *)
Theorem text_is_normalized {U : Unicode} (html : str) :
  normalized (strip_html html).1.1.
Proof. unfold strip_html. apply extract_normalized. Qed.

(** X8.  Extraction is idempotent on the text: [strip_html] applied to the
    text it returned gives that text again.  (The one thing asked of the
    caseless comparison of [re.IGNORECASE] is that no letter matches
    [>].) *)
Theorem strip_html_idempotent {U : Unicode} (html : str) :
  (forall c x, is_ascii_letter c = true -> iequal c x = true -> x <> GT) ->
  let text := (strip_html html).1.1 in
  (strip_html text).1.1 = text.
Proof.
  intros Hci. cbn zeta.
  assert (Hn : normalized (strip_html html).1.1)
    by (unfold strip_html; apply extract_normalized).
  destruct Hn as (N1 & N2 & N3 & N4).
  assert (Hfree : tag_free (strip_html html).1.1 = true)
    by (unfold strip_html; apply extract_tag_free).
  set (t := (strip_html html).1.1) in *.
  unfold strip_html at 1, remove_scripts, remove_styles, extract. cbn [fst].
  rewrite (re_sub_no_match script_re [] t).
  2:{ apply no_match_of_sound; [|exact Hfree]. intros pv s res.
      rewrite script_re_block.
      apply block_re_sound; [reflexivity|].
      intros x. apply Hci. reflexivity. }
  rewrite (re_sub_no_match style_re [] t).
  2:{ apply no_match_of_sound; [|exact Hfree]. intros pv s res.
      rewrite style_re_block.
      apply block_re_sound; [reflexivity|].
      intros x. apply Hci. reflexivity. }
  rewrite (re_sub_no_match tag_re [SP] t).
  2:{ apply no_match_of_sound; [|exact Hfree]. intros pv s res.
      apply tag_re_sound. }
  unfold re_sub. rewrite (collapse_id t None N3 N4).
  apply strip_id; assumption.
Qed.

Lemma strip_html_idempotent_witness :
  (strip_html (U := ascii_tables)
     (lit "<p>Tom &amp;  Jerry</p> 1 < 2")).1.1
  = lit "Tom &amp; Jerry 1 < 2" /\
  (strip_html (U := ascii_tables) (lit "Tom &amp; Jerry 1 < 2")).1.1
  = lit "Tom &amp; Jerry 1 < 2".
Proof.
  split; [reflexivity|].
  apply (strip_html_idempotent (U := ascii_tables)
           (lit "<p>Tom &amp;  Jerry</p> 1 < 2")).
  intros c x Hc Hx ->. cbn [iequal ascii_tables] in Hx.
  change (ascii_lower1 GT) with 62%N in Hx.
  unfold is_ascii_letter in Hc. unfold ascii_lower1 in Hx.
  apply N.eqb_eq in Hx.
  destruct ((65 <=? c) && (c <=? 90))%N eqn:Eu.
  - apply andb_true_iff in Eu as [E1 E2]. apply N.leb_le in E1, E2. lia.
  - cbn [orb] in Hc. apply andb_true_iff in Hc as [E1 E2].
    apply N.leb_le in E1, E2. lia.
Defined.

(** ** The corpus *)

Section CorpusFacts.
Context {U : Unicode} {F : PyFloat}.

Lemma sum_len_app (a b : list str) : sum_len (a ++ b) = sum_len a + sum_len b.
Proof.
  induction a as [|w a IH]; [reflexivity|].
  cbn [app sum_len fold_right]. fold (sum_len (a ++ b)) (sum_len a).
  rewrite IH. lia.
Qed.

Lemma consistent_add_doc st path text :
  consistent st -> consistent (add_doc st path text).
Proof.
  intros (H1 & H2 & H3 & H4). unfold consistent, add_doc.
  cbn [docs all_words all_bigrams all_trigrams total_word_chars words].
  rewrite !flat_map_app. cbn [flat_map words]. rewrite !app_nil_r.
  rewrite sum_len_app, <- H1, <- H2, <- H3, <- H4. auto.
Qed.

(** The loop, for the documents and the sentences. *)
Lemma load_spec l : forall st st',
  load l st = inr st' ->
  docs st' = docs st ++ map doc_of (List.filter loaded l) /\
  total_sentences st'
  = total_sentences st
    + list_sum (map (fun f => length (split_sentences (file_text f)))
                    (List.filter loaded l)) /\
  (consistent st -> consistent st').
Proof.
  induction l as [|f l IH]; intros st st' Hl; cbn [load List.filter] in *.
  - injection Hl as <-. cbn [map list_sum]. rewrite app_nil_r. auto with arith.
  - assert (El : loaded f = match pf_data f with Some _ => true | None => false end)
      by reflexivity.
    destruct (pf_data f) as [data|] eqn:Ed; rewrite El;
      [|apply IH; exact Hl].
    destruct (text_of data) as [e|s] eqn:Et; [discriminate|].
    apply IH in Hl as (H1 & H2 & H3). rewrite H1, H2.
    assert (Ef : file_text f = s) by (unfold file_text; rewrite Ed, Et; reflexivity).
    cbn [add_doc docs total_sentences map list_sum]. unfold doc_of at 2.
    rewrite Ef, <- app_assoc. cbn [app].
    split; [reflexivity|]. split.
    { match goal with |- context [list_sum (?x :: ?t)] =>
        change (list_sum (x :: t)) with (x + list_sum t) end. lia. }
    intros Hc. apply H3. apply consistent_add_doc. exact Hc.
Qed.

End CorpusFacts.

(** X9.  When the loading loop ends, the documents are those of the
    readable record files in the lexicographic order of their paths, each
    with the base name of its file and the tokens of its text; the corpus
    words, bigrams and trigrams are those of the documents put end to end
    (no n-gram spans two documents), [total_word_chars] is the length of
    the corpus words together, and [total_sentences] the sum of the
    sentence counts. *)
Theorem corpus_follows_documents {U : Unicode} {F : PyFloat}
    (globbed : list processed_file) (st : corpus) :
  load (sorted_files globbed) corpus_init = inr st ->
  let files := List.filter loaded (sorted_files globbed) in
  StronglySorted file_le files /\
  Permutation files (List.filter loaded globbed) /\
  docs st = map doc_of files /\
  consistent st /\
  total_sentences st
  = list_sum (map (fun f => length (split_sentences (file_text f))) files).
Proof.
  intros Hl. cbn zeta.
  apply load_spec in Hl as (H1 & H2 & H3).
  cbn [corpus_init docs total_sentences app] in *.
  split.
  { rewrite <- sorted_files_filter. apply sorted_files_sorted. }
  split.
  { rewrite <- sorted_files_filter. apply sorted_files_perm. }
  split; [exact H1|]. split; [|exact H2].
  apply H3. repeat split.
Qed.

Lemma corpus_follows_documents_witness :
  consistent rank_corpus /\
  map name (docs rank_corpus) = [lit "a.json"; lit "b.json"].
Proof.
  destruct (corpus_follows_documents (U := ascii_tables) (F := exact_floats)
    [ {| pf_path := lit "/shared/processed/b.json";
         pf_data := Some (PDict [(lit "text",
                                  PStr (lit "Hello world. Hello again!"))]) |};
      {| pf_path := lit "/shared/processed/a.json";
         pf_data := Some (PDict [(lit "text",
                                  PStr (lit "Hello world again."))]) |} ]
    rank_corpus eq_refl) as (_ & _ & Hd & Hc & _).
  split; [exact Hc|]. rewrite Hd. reflexivity.
Defined.

(** ** Counts and rankings *)

Section RankFacts.

Lemma most_common_ranked n l : ranked n l (most_common n (Counter l)).
Proof.
  unfold ranked, most_common.
  destruct (Counter_spec l) as (HC1 & HC2 & HC3).
  pose proof (sort_desc_sorted l _ (StronglySorted_fst _ _ HC1)) as HS.
  pose proof (sort_desc_perm (Counter l)) as HP.
  set (L := sort_desc (Counter l)) in *.
  assert (HinC : forall x, x ∈ L -> x ∈ Counter l).
  { intros x Hx. rewrite <- HP. exact Hx. }
  split; [rewrite length_take; lia|].
  split.
  { intros i j x y Hij H1 H2.
    apply lookup_take_Some in H1 as [H1 _].
    apply lookup_take_Some in H2 as [H2 _].
    exact (StronglySorted_lookup _ _ HS i j _ _ Hij H1 H2). }
  split.
  { intros [w c] Hx. apply elem_of_take in Hx as (i & Hx & _).
    apply list_elem_of_lookup_2, HinC, HC2 in Hx as [-> Hin]. auto. }
  intros w Hin Hout.
  apply HC3, elem_of_map in Hin as ([w' c] & Ew & Hin). cbn [fst] in Ew.
  subst w'. rewrite <- HP in Hin.
  apply list_elem_of_lookup_1 in Hin as [q Hq].
  assert (Hqn : n <= q).
  { apply Nat.nlt_ge. intros Hlt. apply Hout.
    apply elem_of_map. exists (w, c). split; [reflexivity|].
    apply elem_of_take. eauto. }
  pose proof (lookup_lt_Some _ _ _ Hq) as HqL.
  split; [rewrite length_take; lia|].
  intros [w' c'] Hx. apply elem_of_take in Hx as (i & Hx & Hi).
  pose proof (StronglySorted_lookup _ _ HS i q _ _ ltac:(lia) Hx Hq) as HR.
  apply list_elem_of_lookup_2, HinC, HC2 in Hq as [<- _].
  unfold ranks_before in HR. cbn [fst snd] in HR |- *. lia.
Qed.

Lemma top_ngrams_items l :
  map (fun e => (gram e, gram_count e)) (top_ngrams l)
  = most_common 50 (Counter l).
Proof.
  unfold top_ngrams. rewrite map_map. cbn [gram gram_count].
  rewrite <- (map_id (most_common 50 (Counter l))) at 2.
  apply map_ext. intros [g c]. reflexivity.
Qed.

Lemma counter_add_sum w c :
  list_sum (map snd (counter_add w c)) = S (list_sum (map snd c)).
Proof.
  induction c as [|[k n] c IH]; [reflexivity|].
  cbn [counter_add]. destruct (str_eqb k w); [reflexivity|].
  cbn [map snd]. change (list_sum (?x :: ?t)) with (x + list_sum t).
  rewrite IH. lia.
Qed.

(** The counts of a counter add up to the number of items counted. *)
Lemma Counter_sum l : list_sum (map snd (Counter l)) = length l.
Proof.
  induction l as [|w l IH] using rev_ind; [reflexivity|].
  rewrite Counter_snoc, counter_add_sum, IH, length_app. cbn [length]. lia.
Qed.

Lemma list_sum_perm (a b : list nat) :
  Permutation a b -> list_sum a = list_sum b.
Proof.
  induction 1 as [|x a b _ IH|x y a|a b c _ IH1 _ IH2];
    unfold list_sum in *; cbn [fold_right] in *; lia.
Qed.

Lemma Counter_keys_NoDup l : NoDup (map fst (Counter l)).
Proof.
  destruct (Counter_spec l) as (HC1 & _ & _).
  induction HC1 as [|k ks _ IH Hk]; [constructor|].
  constructor; [|exact IH].
  intros Hin. rewrite List.Forall_forall in Hk.
  apply list_elem_of_In, Hk in Hin. lia.
Qed.

Lemma Counter_keys l w : w ∈ map fst (Counter l) <-> w ∈ l.
Proof.
  destruct (Counter_spec l) as (_ & HC2 & HC3). split; [|apply HC3].
  intros Hw. apply elem_of_map in Hw as ([k n] & -> & Hk).
  apply (HC2 k n Hk).
Qed.

(** [len(word_counter)] is the number of keys of the counter. *)
Lemma Counter_size l :
  size (list_to_set l : gset str) = length (Counter l).
Proof.
  rewrite <- (length_map fst (Counter l)).
  rewrite <- (size_list_to_set (C := gset str) (map fst (Counter l)))
    by apply Counter_keys_NoDup.
  f_equal. apply set_eq. intros w.
  rewrite !elem_of_list_to_set. symmetry. apply Counter_keys.
Qed.

Lemma Counter_length l : length (Counter l) <= length l.
Proof.
  rewrite <- (length_map fst (Counter l)).
  apply submseteq_length, NoDup_submseteq; [apply Counter_keys_NoDup|].
  intros w. apply Counter_keys.
Qed.

End RankFacts.

(** X10.  In the report of a corpus with a token, [unique_words] is
    between 1 and [total_words]; [top_100_words] lists
    min(100, unique_words) words, no word twice; the listed counts add up
    to [total_words] at most, and to exactly [total_words] when the corpus
    has no more than 100 distinct words. *)
Theorem vocabulary_counts {U : Unicode} {F : PyFloat}
    (globbed : list processed_file) (st : corpus) :
  load (sorted_files globbed) corpus_init = inr st ->
  all_words st <> [] ->
  exists rep,
    analyzer_main globbed = inr rep /\
    let top := top_100_words rep in
    0 < unique_words rep <= total_words rep /\
    length top = Nat.min 100 (unique_words rep) /\
    NoDup (map word top) /\
    list_sum (map count top) <= total_words rep /\
    (unique_words rep <= 100 -> list_sum (map count top) = total_words rep).
Proof.
  intros Hl Hw. exists (make_report st).
  split; [apply analyzer_main_report; exact Hl|].
  cbn zeta. unfold make_report.
  destruct (length (all_words st)) as [|n] eqn:Hn;
    [destruct (all_words st); [congruence|discriminate]|].
  cbn [Nat.eqb top_100_words unique_words total_words].
  rewrite !map_map. cbn [word count]. rewrite <- Hn. clear Hn.
  set (l := all_words st) in *.
  rewrite Counter_size. unfold most_common.
  pose proof (sort_desc_perm (Counter l)) as HP.
  pose proof (Counter_length l) as Hlen.
  split.
  { split; [|exact Hlen].
    destruct l as [|w l]; [congruence|].
    destruct (Counter (w :: l)) eqn:E; [|cbn [length]; lia].
    assert (Hin : w ∈ map fst (Counter (w :: l)))
      by (apply Counter_keys; left).
    rewrite E in Hin. inversion Hin. }
  split.
  { rewrite length_map, length_take, (Permutation_length HP). reflexivity. }
  split.
  { change (map fst ?x) with (fst <$> x). rewrite fmap_take.
    eapply sublist_NoDup; [|apply sublist_take].
    rewrite HP. apply Counter_keys_NoDup. }
  assert (Hall : list_sum (map snd (sort_desc (Counter l))) = length l).
  { rewrite <- (Counter_sum l). apply list_sum_perm.
    apply Permutation_map. exact HP. }
  split.
  - rewrite <- Hall. set (L := sort_desc (Counter l)).
    assert (E : list_sum (map snd L)
                = list_sum (map snd (take 100 L))
                  + list_sum (map snd (drop 100 L))).
    { rewrite <- list_sum_app, <- map_app, take_drop. reflexivity. }
    rewrite E. apply Nat.le_add_r.
  - intros H100. rewrite take_ge; [exact Hall|].
    rewrite (Permutation_length HP). exact H100.
Qed.

Lemma vocabulary_counts_witness :
  exists rep,
    analyzer_main (U := ascii_tables) (F := exact_floats)
      [ {| pf_path := lit "/shared/processed/b.json";
           pf_data := Some (PDict [(lit "text",
                                    PStr (lit "Hello world. Hello again!"))]) |};
        {| pf_path := lit "/shared/processed/a.json";
           pf_data := Some (PDict [(lit "text",
                                    PStr (lit "Hello world again."))]) |} ]
    = inr rep /\
    unique_words rep = 3 /\ total_words rep = 7 /\
    list_sum (map count (top_100_words rep)) = 7.
Proof.
  destruct (vocabulary_counts (U := ascii_tables) (F := exact_floats)
    [ {| pf_path := lit "/shared/processed/b.json";
         pf_data := Some (PDict [(lit "text",
                                  PStr (lit "Hello world. Hello again!"))]) |};
      {| pf_path := lit "/shared/processed/a.json";
         pf_data := Some (PDict [(lit "text",
                                  PStr (lit "Hello world again."))]) |} ]
    rank_corpus eq_refl ltac:(discriminate))
    as (rep & Hrep & _ & _ & _ & _ & Hsum).
  exists rep. split; [exact Hrep|].
  assert (E : analyzer_main (U := ascii_tables) (F := exact_floats)
    [ {| pf_path := lit "/shared/processed/b.json";
         pf_data := Some (PDict [(lit "text",
                                  PStr (lit "Hello world. Hello again!"))]) |};
      {| pf_path := lit "/shared/processed/a.json";
         pf_data := Some (PDict [(lit "text",
                                  PStr (lit "Hello world again."))]) |} ]
    = inr (make_report rank_corpus)) by reflexivity.
  rewrite E in Hrep. injection Hrep as <-.
  split; [reflexivity|]. split; [reflexivity|].
  apply Hsum. vm_compute. lia.
Defined.

(** X11.  In the report of a corpus with a token, [top_bigrams] and
    [top_trigrams] each list at most 50 n-grams of the corpus with their
    numbers of occurrences, the higher count first and of two equal counts
    the n-gram first seen; an n-gram of the corpus that is not listed
    occurs no more often than any listed one, and then the list is full. *)
Theorem top_ngrams_ranked {U : Unicode} {F : PyFloat}
    (globbed : list processed_file) (st : corpus) :
  load (sorted_files globbed) corpus_init = inr st ->
  all_words st <> [] ->
  exists rep tri,
    analyzer_main globbed = inr rep /\
    top_trigrams rep = Some tri /\
    let items := map (fun e => (gram e, gram_count e)) in
    ranked 50 (all_bigrams st) (items (top_bigrams rep)) /\
    ranked 50 (all_trigrams st) (items tri).
Proof.
  intros Hl Hw.
  exists (make_report st), (top_ngrams (all_trigrams st)).
  split; [apply analyzer_main_report; exact Hl|].
  unfold make_report.
  destruct (length (all_words st)) as [|n] eqn:Hn;
    [destruct (all_words st); [congruence|discriminate]|].
  cbn [Nat.eqb top_bigrams top_trigrams].
  split; [reflexivity|]. cbn zeta.
  rewrite !top_ngrams_items. split; apply most_common_ranked.
Qed.

Lemma top_ngrams_ranked_witness :
  exists rep tri,
    analyzer_main (U := ascii_tables) (F := exact_floats)
      [ {| pf_path := lit "/shared/processed/b.json";
           pf_data := Some (PDict [(lit "text",
                                    PStr (lit "Hello world. Hello again!"))]) |};
        {| pf_path := lit "/shared/processed/a.json";
           pf_data := Some (PDict [(lit "text",
                                    PStr (lit "Hello world again."))]) |} ]
    = inr rep /\
    top_trigrams rep = Some tri /\
    ranked 50 (all_bigrams rank_corpus)
      (map (fun e => (gram e, gram_count e)) (top_bigrams rep)) /\
    ranked 50 (all_trigrams rank_corpus)
      (map (fun e => (gram e, gram_count e)) tri).
Proof.
  apply (top_ngrams_ranked (U := ascii_tables) (F := exact_floats)
    [ {| pf_path := lit "/shared/processed/b.json";
         pf_data := Some (PDict [(lit "text",
                                  PStr (lit "Hello world. Hello again!"))]) |};
      {| pf_path := lit "/shared/processed/a.json";
         pf_data := Some (PDict [(lit "text",
                                  PStr (lit "Hello world again."))]) |} ]
    rank_corpus eq_refl). discriminate.
Defined.

(** ** Token sets and n-grams *)

Section SetFacts.
Context {F : PyFloat}.

Lemma jaccard_ext (a a' b b' : list str) :
  (forall w, w ∈ a <-> w ∈ a') ->
  (forall w, w ∈ b <-> w ∈ b') ->
  jaccard_similarity a b = jaccard_similarity a' b'.
Proof.
  intros Ha Hb. unfold jaccard_similarity.
  assert (Ea : (list_to_set a : gset str) = list_to_set a').
  { apply set_eq. intros w. rewrite !elem_of_list_to_set. apply Ha. }
  assert (Eb : (list_to_set b : gset str) = list_to_set b').
  { apply set_eq. intros w. rewrite !elem_of_list_to_set. apply Hb. }
  rewrite Ea, Eb. reflexivity.
Qed.

End SetFacts.

(** X12.  The similarity of two documents depends on their sets of tokens
    only, neither on the order of the tokens nor on how often each occurs;
    two documents with the same tokens, one at least, have similarity
    1.0. *)
Theorem jaccard_of_token_sets {F : PyFloat} (a a' b b' : list str) :
  (forall w, w ∈ a <-> w ∈ a') ->
  (forall w, w ∈ b <-> w ∈ b') ->
  jaccard_similarity a b = jaccard_similarity a' b' /\
  (a <> [] -> (forall w, w ∈ a <-> w ∈ b) -> jaccard_similarity a b = fone).
Proof.
  intros Ha Hb. split; [apply jaccard_ext; assumption|].
  intros Hne Hab. rewrite <- (jaccard_self a Hne).
  apply jaccard_ext; [reflexivity|]. intros w. symmetry. apply Hab.
Qed.

Lemma jaccard_of_token_sets_witness :
  jaccard_similarity (F := exact_floats)
    [lit "hello"; lit "world"; lit "hello"] [lit "world"; lit "again"]
  = jaccard_similarity (F := exact_floats)
      [lit "world"; lit "hello"] [lit "again"; lit "again"; lit "world"].
Proof.
  apply (jaccard_of_token_sets (F := exact_floats)
           [lit "hello"; lit "world"; lit "hello"] [lit "world"; lit "hello"]
           [lit "world"; lit "again"]
           [lit "again"; lit "again"; lit "world"]).
  - intros w. rewrite !elem_of_cons, !elem_of_nil. tauto.
  - intros w. rewrite !elem_of_cons, !elem_of_nil. tauto.
Defined.

Section NgramFacts.

Lemma app_sep_inj (a : str) : forall b s t,
  SP ∉ a -> SP ∉ b -> a ++ SP :: s = b ++ SP :: t -> a = b /\ s = t.
Proof.
  induction a as [|x a IH]; intros [|y b] s t Ha Hb E; cbn [app] in E.
  - injection E as <-. auto.
  - injection E as <- _. exfalso. apply Hb. left.
  - injection E as -> _. exfalso. apply Ha. left.
  - injection E as <- E.
    destruct (IH b s t) as [-> ->]; [| |exact E|auto].
    + intros H. apply Ha. right. exact H.
    + intros H. apply Hb. right. exact H.
Qed.

(** Joined with a space, token lists of one length give one string only when
    they are the same list, as long as no token holds a space. *)
Lemma join_inj (l1 : list str) : forall l2,
  length l1 = length l2 ->
  Forall (fun w => SP ∉ w) l1 -> Forall (fun w => SP ∉ w) l2 ->
  join [SP] l1 = join [SP] l2 -> l1 = l2.
Proof.
  induction l1 as [|w1 l1 IH]; intros [|w2 l2] Hlen H1 H2 E;
    try discriminate; [reflexivity|].
  apply Forall_cons in H1 as [Hw1 H1]. apply Forall_cons in H2 as [Hw2 H2].
  destruct l1 as [|x l1], l2 as [|y l2]; try discriminate.
  - cbn [join] in E. rewrite E. reflexivity.
  - change (join [SP] (w1 :: x :: l1))
      with (w1 ++ SP :: join [SP] (x :: l1)) in E.
    change (join [SP] (w2 :: y :: l2))
      with (w2 ++ SP :: join [SP] (y :: l2)) in E.
    apply app_sep_inj in E as [-> E]; [|assumption|assumption].
    f_equal. apply IH; [|assumption|assumption|exact E].
    cbn [length] in *. lia.
Qed.

Lemma ngrams_lookup ws n i g :
  ngrams ws n !! i = Some g ->
  i < length ws + 1 - n /\ g = join [SP] (take n (drop i ws)).
Proof.
  unfold ngrams. change (map ?f ?x) with (f <$> x).
  rewrite list_lookup_fmap.
  destruct (seq 0 (length ws + 1 - n) !! i) as [k|] eqn:Ek; [|discriminate].
  apply lookup_seq in Ek as [-> Hi]. intros [= <-]. auto.
Qed.

Lemma window_length {A} (ws : list A) n i :
  i < length ws + 1 - n -> length (take n (drop i ws)) = n.
Proof. intros Hi. rewrite length_take, length_drop. lia. Qed.

Lemma Forall_window {A} (P : A -> Prop) (ws : list A) n i :
  Forall P ws -> Forall P (take n (drop i ws)).
Proof.
  intros H. apply Forall_take. apply Forall_drop. exact H.
Qed.

End NgramFacts.

(** X13.  An n-gram names its tokens: as long as no token holds a space,
    the n-grams taken at two positions of a document are the same string
    exactly when the same [n] tokens stand at the two positions, so the
    count of an n-gram is the count of a token sequence; and each n-gram
    is made of [n] tokens (none is cut short at the end of the
    document). *)
Theorem ngram_names_its_tokens (ws : list str) (n i j : nat) (g g' : str) :
  Forall (fun w => SP ∉ w) ws ->
  ngrams ws n !! i = Some g ->
  ngrams ws n !! j = Some g' ->
  length (take n (drop i ws)) = n /\
  (g = g' <-> take n (drop i ws) = take n (drop j ws)).
Proof.
  intros Hws Hi Hj.
  apply ngrams_lookup in Hi as [Hi ->]. apply ngrams_lookup in Hj as [Hj ->].
  split; [apply window_length; exact Hi|].
  split; [|intros ->; reflexivity].
  apply join_inj; [|apply Forall_window; exact Hws..].
  rewrite !window_length by assumption. reflexivity.
Qed.

Lemma ngram_names_its_tokens_witness :
  lit "hello world" = lit "hello world" <->
  take 2 (drop 0 [lit "hello"; lit "world"; lit "hello"; lit "world"])
  = take 2 (drop 2 [lit "hello"; lit "world"; lit "hello"; lit "world"]).
Proof.
  apply (ngram_names_its_tokens
           [lit "hello"; lit "world"; lit "hello"; lit "world"] 2 0 2
           (lit "hello world") (lit "hello world")).
  - repeat constructor; intros H;
      repeat (apply elem_of_cons in H as [H|H]; [discriminate|]);
      inversion H.
  - reflexivity.
  - reflexivity.
Defined.

(** ** From the extraction to the report *)

Section PipelineFacts.
Context {U : Unicode} {F : PyFloat}.

Lemma text_of_record now e : text_of (record_json now e) = inr (text e).
Proof.
  unfold text_of, record_json.
  change (dict_get _ (lit "text") (PStr [])) with (PStr (text e)).
  cbn [truthy]. destruct (text e); reflexivity.
Qed.

Lemma record_dir_snoc now w x :
  record_dir now (w ++ [x])
  = <[x.1 := record_json (now x.1) x.2]> (record_dir now w).
Proof. unfold record_dir. rewrite fold_left_app. reflexivity. Qed.

Lemma record_dir_lookup now w k v :
  record_dir now w !! k = Some v ->
  exists e, (k, e) ∈ w /\ v = record_json (now k) e.
Proof.
  induction w as [|x w IH] using rev_ind.
  - unfold record_dir. cbn [fold_left]. rewrite lookup_empty. discriminate.
  - rewrite record_dir_snoc. intros H.
    apply lookup_insert_Some in H as [[<- <-]|[Hne H]].
    + exists x.2. split; [|reflexivity].
      apply elem_of_app. right. destruct x. left.
    + destruct (IH H) as (e & He & ->). exists e. split; [|reflexivity].
      apply elem_of_app. left. exact He.
Qed.

Lemma record_dir_size now w : size (record_dir now w) <= length w.
Proof.
  induction w as [|x w IH] using rev_ind.
  - unfold record_dir. cbn [fold_left length]. rewrite map_size_empty. lia.
  - rewrite record_dir_snoc, map_size_insert, length_app. cbn [length].
    destruct (record_dir now w !! x.1); cbn [id]; lia.
Qed.

Lemma record_dir_list_to_map now w :
  record_dir now w
  = list_to_map
      (rev (map (fun ne => (ne.1, record_json (now ne.1) ne.2)) w)).
Proof.
  induction w as [|x w IH] using rev_ind; [reflexivity|].
  rewrite record_dir_snoc, map_app, rev_app_distr, IH. reflexivity.
Qed.

(** Where no two records share a name the directory holds them all. *)
Lemma record_dir_list now w :
  NoDup (map fst w) ->
  Permutation (map_to_list (record_dir now w))
              (map (fun ne => (ne.1, record_json (now ne.1) ne.2)) w).
Proof.
  intros Hnd. rewrite record_dir_list_to_map, map_to_list_to_map.
  - symmetry. apply Permutation_rev.
  - change (fst <$> ?x) with (map fst x).
    rewrite map_rev, map_map. cbn [fst].
    rewrite <- Permutation_rev. exact Hnd.
Qed.

Lemma process_one_html_stats f e :
  process_one_html f = Some e -> stats e = text_statistics (text e).
Proof.
  unfold process_one_html. destruct (rf_content f); [|discriminate].
  destruct (strip_html _) as [[t ls] im]. intros [= <-]. reflexivity.
Qed.

Lemma driver_loop_stats l : forall st,
  Forall (fun ne => stats ne.2 = text_statistics (text ne.2)) (written st) ->
  Forall (fun ne => stats ne.2 = text_statistics (text ne.2))
         (written (fold_left driver_step l st)).
Proof.
  induction l as [|f l IH]; intros st Hst; cbn [fold_left]; [exact Hst|].
  apply IH. unfold driver_step.
  destruct (process_one_html f) as [e|] eqn:He; [|exact Hst].
  destruct (rf_writable f); [|exact Hst]. cbn [written].
  apply Forall_app. split; [exact Hst|].
  constructor; [|constructor]. apply process_one_html_stats in He. exact He.
Qed.

(** The records written, against the marker. *)
Lemma processor_main_written (globbed : list raw_file) :
  let run := processor_main globbed in
  map fst run.2 = outputs run.1 /\
  length run.2 = processed_success run.1 /\
  Forall (fun ne => stats ne.2 = text_statistics (text ne.2)) run.2.
Proof.
  cbn zeta. unfold processor_main. cbn [fst snd outputs processed_success].
  destruct (driver_loop (sorted_paths globbed) driver_init)
    as (H1 & _ & H3 & H4).
  cbn [driver_init successes processed_files written map app] in *.
  split; [congruence|]. split.
  - rewrite <- (length_map fst), H4, length_map, H1. reflexivity.
  - apply driver_loop_stats. constructor.
Qed.

Lemma total_words_report st :
  total_words (make_report st) = length (all_words st).
Proof.
  unfold make_report.
  destruct (length (all_words st)) eqn:E; cbn [Nat.eqb total_words]; auto.
Qed.

Lemma filter_all {A} (p : A -> bool) (l : list A) :
  (forall x, In x l -> p x = true) -> List.filter p l = l.
Proof.
  induction l as [|x l IH]; intros H; [reflexivity|].
  cbn [List.filter]. rewrite (H x (or_introl eq_refl)).
  f_equal. apply IH. intros y Hy. apply H. right. exact Hy.
Qed.

(** The corpus words, counted file by file. *)
Lemma load_words files st :
  load (sorted_files files) corpus_init = inr st ->
  length (all_words st)
  = list_sum (map (fun f => length (tokenize_words (file_text f)))
                  (List.filter loaded files)).
Proof.
  intros Hl. apply load_spec in Hl as (Hd & _ & Hc).
  destruct Hc as (Hw & _); [repeat split|].
  cbn [corpus_init docs app] in Hd.
  rewrite Hw, Hd, length_flat_map, map_map. cbn [doc_of words].
  apply list_sum_perm, Permutation_map.
  rewrite <- sorted_files_filter. apply sorted_files_perm.
Qed.

End PipelineFacts.

(** X14.  The aggregator run on the records that the extraction driver
    has written (into a directory that held none, found by [glob] in
    whatever order) ends with a report, never with an exception;
    [documents_processed] is at most the driver's [processed_success], and
    where no two documents gave the same output name it is equal to it,
    while [total_words] is the sum of the [word_count] statistics of the
    records. *)
Theorem analyzer_reads_processor_output {U : Unicode} {F : PyFloat}
    (globbed : list raw_file) (now : str -> str)
    (files : list processed_file) :
  let run := processor_main globbed in
  Permutation files (record_files (record_dir now run.2)) ->
  exists rep,
    analyzer_main files = inr rep /\
    documents_processed rep <= processed_success run.1 /\
    (NoDup (outputs run.1) ->
     documents_processed rep = processed_success run.1 /\
     total_words rep
     = list_sum (map (fun ne => word_count (stats ne.2)) run.2)).
Proof.
  cbn zeta. intros Hperm.
  destruct (processor_main_written globbed) as (Hout & Hlen & Hstats).
  cbn zeta in *.
  set (run := processor_main globbed) in *. set (w := run.2) in *.
  assert (Hfile : forall f, In f files ->
            exists k e, pf_data f = Some (record_json (now k) e)).
  { intros f Hf. apply (Permutation_in _ Hperm) in Hf.
    unfold record_files in Hf. apply in_map_iff in Hf as ([k v] & <- & Hkv).
    apply list_elem_of_In, elem_of_map_to_list, record_dir_lookup in Hkv
      as (e & _ & ->).
    exists k, e. reflexivity. }
  destruct (load_total (sorted_files files) corpus_init) as [st Hst].
  { intros f data Hf Hd.
    apply (Permutation_in _ (sorted_files_perm files)) in Hf.
    destruct (Hfile f Hf) as (k & e & He). rewrite He in Hd.
    injection Hd as <-. exists (text e). apply text_of_record. }
  assert (Hloaded : List.filter loaded files = files).
  { apply filter_all. intros f Hf. destruct (Hfile f Hf) as (k & e & He).
    unfold loaded. rewrite He. reflexivity. }
  pose proof (load_words files st Hst) as Hwords.
  destruct (analyzer_main_report files st Hst) as [Hrep Hdocs].
  rewrite Hloaded in Hdocs, Hwords.
  exists (make_report st). split; [exact Hrep|].
  rewrite documents_processed_docs, Hdocs, (Permutation_length Hperm).
  unfold record_files. rewrite length_map, length_map_to_list.
  split; [rewrite <- Hlen; apply record_dir_size|].
  intros Hnd. rewrite <- Hout in Hnd.
  pose proof (record_dir_list now w Hnd) as Hlist.
  split.
  - rewrite <- length_map_to_list, (Permutation_length Hlist), length_map.
    exact Hlen.
  - rewrite total_words_report, Hwords.
    rewrite (list_sum_perm _ _ (Permutation_map _ Hperm)).
    unfold record_files.
    rewrite (list_sum_perm _ _
               (Permutation_map _ (Permutation_map _ Hlist))).
    rewrite !map_map. f_equal. apply map_ext_Forall.
    eapply Forall_impl; [exact Hstats|].
    intros [k e] He. cbn [fst snd] in *. unfold file_text. cbn [pf_data].
    rewrite text_of_record, He. unfold tokenize_words.
    rewrite length_map. reflexivity.
Qed.

Lemma analyzer_reads_processor_output_witness :
  exists rep,
    analyzer_main (U := ascii_tables) (F := exact_floats)
      (record_files
         (record_dir (fun _ => lit "2024-01-01T00:00:00+00:00")
            (processor_main (U := ascii_tables) (F := exact_floats)
               [ {| rf_path := lit "/shared/raw/a.html";
                    rf_content := Some (lit "<p>Hello world</p>");
                    rf_writable := true |};
                 {| rf_path := lit "/shared/raw/b.html";
                    rf_content := None; rf_writable := true |} ]).2))
    = inr rep /\
    documents_processed rep = 1 /\ total_words rep = 2.
Proof.
  destruct (analyzer_reads_processor_output
    (U := ascii_tables) (F := exact_floats)
    [ {| rf_path := lit "/shared/raw/a.html";
         rf_content := Some (lit "<p>Hello world</p>");
         rf_writable := true |};
      {| rf_path := lit "/shared/raw/b.html";
         rf_content := None; rf_writable := true |} ]
    (fun _ => lit "2024-01-01T00:00:00+00:00")
    _ (Permutation_refl _)) as (rep & Hrep & _ & Heq).
  exists rep. split; [exact Hrep|].
  destruct Heq as [-> ->]; [|split; reflexivity].
  change (NoDup [lit "a.json"]). apply NoDup_singleton.
Defined.

(** ** The records and their statistics *)

Section RecordFacts.
Context {U : Unicode} {F : PyFloat}.

Lemma driver_loop_written l : forall st,
  exists recs,
    written (fold_left driver_step l st) = written st ++ recs /\
    Forall2 (fun f ne => ne.1 = out_name (rf_path f) /\
                         process_one_html f = Some ne.2)
            (List.filter succeeded l) recs.
Proof.
  induction l as [|f l IH]; intros st; cbn [fold_left List.filter].
  - exists []. rewrite app_nil_r. split; [reflexivity|constructor].
  - destruct (IH (driver_step st f)) as (recs & E & Hrecs). rewrite E.
    pose proof (process_one_html_succeeds f) as Hp.
    unfold driver_step, succeeded in *.
    destruct (process_one_html f) as [data|] eqn:Hd.
    + destruct (rf_content f) as [html|]; [|congruence].
      destruct (rf_writable f); cbn [written].
      * exists ((out_name (rf_path f), data) :: recs).
        rewrite <- app_assoc. split; [reflexivity|].
        constructor; [|exact Hrecs]. rewrite Hd. auto.
      * exists recs. auto.
    + rewrite Hp. exists recs. auto.
Qed.

(** A hit of the paragraph pattern is white space. *)
Lemma para_re_match prev s rest g :
  rmatch para_re prev s = Some (rest, g) ->
  exists m, s = m ++ rest /\ forallb isspace m = true.
Proof.
  unfold rmatch, para_re. cbn [exec]. intros Hm.
  apply orelse_Some in Hm as [Hm|[_ Hm]];
    apply rep_greedy_inv in Hm as (pv & m & s' & -> & _ & Hall & Hk);
    injection Hk as <- _; exists m; (split; [reflexivity|]).
  - exact Hall.
  - apply forallb_forall. intros c Hc.
    rewrite forallb_forall in Hall. apply Hall, N.eqb_eq in Hc as ->.
    apply isspace_LF.
Qed.

(** Each character of the subject lies in a gap or in a hit of the scan. *)
Lemma scan_cover r s : forall prev skip c,
  c ∈ drop skip s ->
  Gap c ∈ scan r prev s skip \/
  exists w g, Hit w g ∈ scan r prev s skip /\ c ∈ w.
Proof.
  induction s as [|x s IH]; intros prev skip c Hc.
  - rewrite drop_nil in Hc. inversion Hc.
  - cbn [scan]. destruct skip as [|n]; [|apply IH; exact Hc].
    cbn [drop] in Hc.
    assert (Hrec : forall n, c ∈ drop n s ->
              forall p, Gap c ∈ p :: scan r (Some x) s n \/
                        exists w g, Hit w g ∈ p :: scan r (Some x) s n /\
                                    c ∈ w).
    { intros n Hn p. destruct (IH (Some x) n c Hn) as [H|(w & g & H & Hw)].
      - left. right. exact H.
      - right. exists w, g. split; [right; exact H|exact Hw]. }
    assert (Hgap : Gap c ∈ Gap x :: scan r (Some x) s 0 \/
                   exists w g, Hit w g ∈ Gap x :: scan r (Some x) s 0 /\
                               c ∈ w).
    { apply elem_of_cons in Hc as [->|Hc]; [left; left|].
      apply (Hrec 0). exact Hc. }
    destruct (rmatch r prev (x :: s)) as [[rest g]|]; [|exact Hgap].
    destruct (length (x :: s) - length rest) as [|m]; [exact Hgap|].
    rewrite <- (take_drop (S m) (x :: s)) in Hc.
    apply elem_of_app in Hc as [Hc|Hc].
    + right. exists (take (S m) (x :: s)), g. split; [left|exact Hc].
    + cbn [drop] in Hc. apply Hrec. exact Hc.
Qed.

Lemma split_pieces_cover ps : forall cur x,
  x ∈ cur \/ Gap x ∈ ps ->
  exists part, part ∈ split_pieces ps cur /\ x ∈ part.
Proof.
  induction ps as [|p ps IH]; intros cur x Hx; cbn [split_pieces].
  - destruct Hx as [Hx|Hx]; [|inversion Hx]. exists cur. split; [left|exact Hx].
  - destruct p as [c|w g].
    + apply IH. destruct Hx as [Hx|Hx].
      * left. apply elem_of_app. left. exact Hx.
      * apply elem_of_cons in Hx as [[= ->]|Hx]; [|right; exact Hx].
        left. apply elem_of_app. right. left.
    + destruct Hx as [Hx|Hx].
      * exists cur. split; [left|exact Hx].
      * apply elem_of_cons in Hx as [Hx|Hx]; [discriminate|].
        destruct (IH [] x (or_intror Hx)) as (part & Hp & Hin).
        exists part. split; [right; exact Hp|exact Hin].
Qed.

Lemma scan_gap_elem r s : forall prev skip c,
  Gap c ∈ scan r prev s skip -> c ∈ s.
Proof.
  induction s as [|x s IH]; intros prev skip c Hc; cbn [scan] in Hc.
  - inversion Hc.
  - destruct skip as [|n]; [|right; eapply IH; exact Hc].
    assert (Hgap : Gap c ∈ Gap x :: scan r (Some x) s 0 -> c ∈ x :: s).
    { intros H. apply elem_of_cons in H as [[= ->]|H]; [left|].
      right. eapply IH. exact H. }
    destruct (rmatch r prev (x :: s)) as [[rest g]|]; [|auto].
    destruct (length (x :: s) - length rest) as [|m]; [auto|].
    apply elem_of_cons in Hc as [Hc|Hc]; [discriminate|].
    right. eapply IH. exact Hc.
Qed.

Lemma blank_spaces s : nonblank s = false <-> forallb isspace s = true.
Proof.
  unfold nonblank, strip, rstrip. split.
  - intros H. destruct (rev (lstrip (rev (lstrip s)))) eqn:E; [|discriminate].
    apply (f_equal (@rev N)) in E. rewrite rev_involutive in E. cbn [rev] in E.
    apply lstrip_nil_spaces in E.
    pose proof (head_space_lstrip s) as Hh. apply lstrip_nil_spaces.
    destruct (lstrip s) as [|c t]; [reflexivity|].
    cbn [head_space] in Hh. rewrite forallb_forall in E.
    rewrite (E c) in Hh; [discriminate|].
    apply in_rev. rewrite rev_involutive. left. reflexivity.
  - intros H.
    assert (E : lstrip s = []).
    { induction s as [|c s IH]; [reflexivity|].
      cbn [forallb] in H. apply andb_true_iff in H as [Hc H].
      cbn [lstrip]. rewrite Hc. apply IH. exact H. }
    rewrite E. reflexivity.
Qed.

(** A text without a paragraph is white space, and has no sentence. *)
Lemma no_paragraph_no_sentence text :
  List.filter nonblank (re_split para_re text) = [] ->
  List.filter nonblank (re_split sentence_re text) = [].
Proof.
  intros Hp.
  assert (Hblank : forall part, part ∈ re_split para_re text ->
                     nonblank part = false).
  { intros part Hin. destruct (nonblank part) eqn:E; [|reflexivity].
    assert (Hf : part ∈ List.filter nonblank (re_split para_re text)).
    { apply list_elem_of_In, filter_In. split; [|exact E].
      apply list_elem_of_In. exact Hin. }
    rewrite Hp in Hf. inversion Hf. }
  assert (Hsp : forall c, c ∈ text -> isspace c = true).
  { intros c Hc.
    destruct (scan_cover para_re text None 0 c Hc) as [Hg|(w & g & Hh & Hw)].
    - destruct (split_pieces_cover (scan para_re None text 0) [] c
                  (or_intror Hg)) as (part & Hin & Hx).
      apply Hblank, blank_spaces in Hin. rewrite forallb_forall in Hin.
      apply Hin, list_elem_of_In. exact Hx.
    - apply scan_hits in Hh as (_ & pv & rest & Hm).
      apply para_re_match in Hm as (m & E & Hall).
      apply app_inv_tail in E. subst m. rewrite forallb_forall in Hall.
      apply Hall, list_elem_of_In. exact Hw. }
  destruct (List.filter nonblank (re_split sentence_re text)) as [|part l]
    eqn:E; [reflexivity|]. exfalso.
  assert (Hin : In part (List.filter nonblank (re_split sentence_re text)))
    by (rewrite E; left; reflexivity).
  apply filter_In in Hin as [Hin Hnb].
  assert (Hb : nonblank part = false); [|congruence].
  apply blank_spaces, forallb_forall. intros c Hc. apply Hsp.
  apply list_elem_of_In in Hin, Hc.
  destruct (split_pieces_elem _ _ _ _ Hin Hc) as [H|H]; [inversion H|].
  eapply scan_gap_elem. exact H.
Qed.

End RecordFacts.

(** X15.  The records written are those of the documents that succeed, in
    the lexicographic order of their paths: each is what
    [process_one_html] returns for its document, written under the name
    of the document with [.json] for its extension, which is also its
    [source_file] with the extension replaced. *)
Theorem records_follow_documents {U : Unicode} {F : PyFloat}
    (globbed : list raw_file) :
  let run := processor_main globbed in
  Forall2 (fun f ne => ne.1 = out_name (rf_path f) /\
                       process_one_html f = Some ne.2)
          (List.filter succeeded (sorted_paths globbed)) run.2 /\
  Forall (fun ne => ne.1 = splitext_root (source_file ne.2) ++ lit ".json")
         run.2.
Proof.
  cbn zeta. unfold processor_main. cbn [snd].
  destruct (driver_loop_written (sorted_paths globbed) driver_init)
    as (recs & E & Hrecs).
  rewrite E. cbn [driver_init written app]. split; [exact Hrecs|]. clear E.
  induction Hrecs as [|f [n e] fs recs [Hn He] _ IH]; [constructor|].
  constructor; [|exact IH].
  cbn [fst snd] in *. subst n. unfold process_one_html in He.
  destruct (rf_content f); [|discriminate].
  destruct (strip_html _) as [[t ls] im]. injection He as <-. reflexivity.
Qed.

(** X16.  For every text, [paragraph_count] is the number of non-blank
    paragraphs, and 1 when there is none: the fall-back on
    [sentence_count // 3] never gives more than 1, since a text without a
    paragraph is white space and has no sentence either. *)
Theorem paragraph_count_fallback {U : Unicode} {F : PyFloat} (text : str) :
  let paragraphs := List.filter nonblank (re_split para_re text) in
  paragraph_count (text_statistics text) = Nat.max 1 (length paragraphs) /\
  (paragraphs = [] -> sentence_count (text_statistics text) = 0).
Proof.
  cbn zeta. unfold text_statistics. cbn [paragraph_count sentence_count].
  destruct (List.filter nonblank (re_split para_re text)) as [|p ps] eqn:E.
  - rewrite (no_paragraph_no_sentence text E). split; [reflexivity|auto].
  - split; [|discriminate]. cbn [length]. lia.
Qed.

(** ** The order of the record files *)

Lemma sorted_files_order {F : PyFloat} (l1 l2 : list processed_file) :
  Permutation l1 l2 -> NoDup (map pf_path l1) ->
  sorted_files l1 = sorted_files l2.
Proof.
  intros Hp Hnd. apply (sorted_unique file_le).
  - apply sorted_files_sorted.
  - apply sorted_files_sorted.
  - rewrite !sorted_files_perm. exact Hp.
  - intros x y Hx Hy Hxy Hyx.
    apply (Permutation_in _ (sorted_files_perm l1)) in Hx, Hy.
    apply (In_map_inj pf_path l1); auto.
    apply str_leb_antisym; assumption.
Qed.

(** X17.  The outcome of the aggregator (the report, or the exception that
    ends the run) does not depend on the order in which [glob] returns the
    record files, their paths being distinct: the files are sorted before
    the loop. *)
Theorem analyzer_main_order {U : Unicode} {F : PyFloat}
    (globbed globbed' : list processed_file) :
  Permutation globbed globbed' ->
  NoDup (map pf_path globbed) ->
  analyzer_main globbed = analyzer_main globbed'.
Proof.
  intros Hp Hnd. unfold analyzer_main.
  rewrite (sorted_files_order globbed globbed' Hp Hnd). reflexivity.
Qed.

Lemma analyzer_main_order_witness :
  analyzer_main (U := ascii_tables) (F := exact_floats)
    [ {| pf_path := lit "/shared/processed/b.json";
         pf_data := Some (PDict [(lit "text", PStr (lit "Hello again!"))]) |};
      {| pf_path := lit "/shared/processed/a.json";
         pf_data := Some (PDict [(lit "text", PStr (lit "Hello world."))]) |} ]
  = analyzer_main (U := ascii_tables) (F := exact_floats)
      [ {| pf_path := lit "/shared/processed/a.json";
           pf_data := Some (PDict [(lit "text",
                                    PStr (lit "Hello world."))]) |};
        {| pf_path := lit "/shared/processed/b.json";
           pf_data := Some (PDict [(lit "text",
                                    PStr (lit "Hello again!"))]) |} ].
Proof.
  apply analyzer_main_order.
  - apply perm_swap.
  - cbn [map pf_path]. apply NoDup_cons. split.
    + intros Hin. apply list_elem_of_singleton in Hin. discriminate.
    + apply NoDup_singleton.
Defined.
